(** * multiPointSparse: processor-set partitioning and the obj/sens protocol

    A shallow embedding of [src/multiPointSparse.py].  Every process of the
    MPI job runs the same Python code on its own copy of the
    [multiPointSparse] object; a method is embedded as a computation in a
    small state/trace/exception monad that is run by one process, and the
    collective calls (Split, allgather, bcast, allreduce) take what the other
    ranks contribute as an explicit argument. *)

From Stdlib Require Import ZArith String Ascii List Floats DecimalString Lia.
From Stdlib Require DecimalZ DecimalPos.
From stdpp Require Import base list strings gmap.

Open Scope string_scope.
Open Scope list_scope.
Open Scope Z_scope.

(** ** Python values

    Python is dynamically typed: the callbacks of the user, the local result
    dictionaries and the payload of a broadcast hold values of any type.  A
    Python [float] is a binary64 number, a [complex] a pair of them. *)

#[warnings="-register-all"]
Inductive pyval : Type :=
| VNone
| VBool (b : bool)
| VFloat (x : float)
| VComplex (re im : float)
| VArray (a : list float)                (* numpy 1-d array, dtype float64 *)
| VCArray (a : list (float * float))     (* numpy 1-d array, dtype complex128 *)
| VMatrix (m : list (list float))        (* numpy 2-d array, dtype float64 *)
| VDict (d : list (string * pyval)).

(** ** Dictionaries

    A Python [dict] (and [OrderedDict]) iterates in insertion order and
    assigning to an existing key keeps its position: an association list
    holding each key once. *)

Abbreviation dict V := (list (string * V)).

Section Dict.
Context {V : Type}.

Fixpoint dict_get (d : dict V) (k : string) : option V :=
  match d with
  | [] => None
  | (k', v) :: d' => if String.eqb k' k then Some v else dict_get d' k
  end.

(** [d[k] = v] *)
Fixpoint dict_set (d : dict V) (k : string) (v : V) : dict V :=
  match d with
  | [] => [(k, v)]
  | (k', v') :: d' =>
      if String.eqb k' k then (k', v) :: d' else (k', v') :: dict_set d' k v
  end.

Definition dict_keys (d : dict V) : list string := map fst d.

(** [k in d] *)
Definition dict_mem (d : dict V) (k : string) : bool :=
  match dict_get d k with Some _ => true | None => false end.

(** [d.update(other)] *)
Definition dict_update (d other : dict V) : dict V :=
  fold_left (fun acc kv => dict_set acc (fst kv) (snd kv)) other d.
End Dict.

(** ** Exceptions, collective calls and the monad *)

Inductive exn : Type :=
| MPError (message : string)         (* class MPError; the message is printed in a box *)
| AssertionError (message : string)
| UnboundLocalError (name : string)
| KeyError (key : string)
| TypeError (what : string)
| AttributeError (what : string)
| IndexError
| ValueError (what : string)
| Unmodelled (what : string)         (* a numpy shape the embedding does not cover *)
| Deadlock.                          (* not an exception: a peer never joins the collective *)

Record comm : Type := Comm { rank : nat; size : nat }.

(** What a process does that the other processes can observe, in order, plus
    the calls of the user's combination function with their argument. *)
Inductive event : Type :=
| EvSplit (c : comm) (color : nat)
| EvBarrier (c : comm)
| EvAllgather (sent : list string)
| EvBcast (root : nat) (sent : pyval)       (* [VNone] on a rank that is not the root *)
| EvAllreduce (sent : bool)
| EvObjCon (arg : dict pyval).

Definition M (St A : Type) : Type := St -> St * list event * (exn + A).

Definition ret {St A} (a : A) : M St A := fun s => (s, [], inr a).
Definition raise {St A} (e : exn) : M St A := fun s => (s, [], inl e).
Definition bind {St A B} (m : M St A) (k : A -> M St B) : M St B :=
  fun s =>
    match m s with
    | (s1, t1, inl e) => (s1, t1, inl e)
    | (s1, t1, inr a) =>
        match k a s1 with
        | (s2, t2, r) => (s2, t1 ++ t2, r)
        end
    end.
Definition get {St} : M St St := fun s => (s, [], inr s).
Definition put {St} (s' : St) : M St unit := fun _ => (s', [], inr tt).
Definition emit {St} (e : event) : M St unit := fun s => (s, [e], inr tt).

Notation "x <- m ;; k" := (bind m (fun x => k))
  (at level 100, m at next level, right associativity).
Notation "m ;; k" := (bind m (fun _ => k))
  (at level 100, right associativity).

(** A local name that may still be unbound, an attribute that may be [None]. *)
Definition unwrap {St A} (o : option A) (e : exn) : M St A :=
  match o with Some a => ret a | None => raise e end.

(** [for x in l: acc = f acc x] *)
Fixpoint foldM {St A B} (f : A -> B -> M St A) (l : list B) (acc : A) : M St A :=
  match l with
  | [] => ret acc
  | x :: l' => acc' <- f acc x ;; foldM f l' acc'
  end.

Definition outcome {St A} (r : St * list event * (exn + A)) : exn + A := snd r.
Definition trace {St A} (r : St * list event * (exn + A)) : list event := snd (fst r).
Definition final {St A} (r : St * list event * (exn + A)) : St := fst (fst r).

(** The result [r] of a continuation, after the events [t] that came first. *)
Definition with_trace {St A} (t : list event) (r : St * list event * (exn + A))
  : St * list event * (exn + A) :=
  (final r, t ++ trace r, outcome r).

(** ** The transport: splitting a communicator

    [comm.Split(color)] is collective over [c].  [colors] lists what every
    rank of [c] passes ([None] for a rank that raised before the call); the
    new communicator holds the ranks that passed the same colour, ordered by
    their rank in [c] (the key is left at its default). *)

Definition same_color (color : nat) (o : option nat) : bool :=
  match o with Some c => Nat.eqb c color | None => false end.

Definition is_some {A} (o : option A) : bool :=
  match o with Some _ => true | None => false end.

Definition comm_Split {St} (c : comm) (colors : list (option nat)) (color : nat)
  : M St comm :=
  emit (EvSplit c color) ;;
  if forallb is_some colors then
    ret {| rank := length (List.filter (same_color color) (take (rank c) colors));
           size := length (List.filter (same_color color) colors) |}
  else raise Deadlock.

(** ** Integers and formatting *)

(** A numpy ['intc'] cell: a C int, 32 bits, two's complement. *)
Definition intc (z : Z) : Z := (z + 2 ^ 31) mod 2 ^ 32 - 2 ^ 31.

(** ['%d' % z] *)
Definition fmt_d (z : Z) : string := NilZero.string_of_int (Z.to_int z).

Definition spaces (n : nat) : string := string_of_list_ascii (repeat " "%char n).

Definition sum_list_Z (l : list Z) : Z := fold_left Z.add l 0.

(** The cumulative size array, as the three loops of the source build it:
    [cum = zeros(n+1); for i in range(n): cum[i+1] = cum[i] + sizes[i]],
    [cast] being what a store into the array does to the value. *)
Definition cumulative (cast : Z -> Z) (n : nat) (sizes : list Z) : list Z :=
  fold_left (fun cum i => <[S i := cast (cum !!! i + sizes !!! i)]> cum)
            (seq 0 n) (replicate (S n) 0).

(** [rank >= cum[i] and rank < cum[i+1]] *)
Definition in_interval (cum : list Z) (i : nat) (r : nat) : bool :=
  (cum !!! i <=? Z.of_nat r) && (Z.of_nat r <? cum !!! (S i)).

(** [for i in range(n): if rank in interval i: key = i] -- the last match
    stays, [None] is the name still unbound. *)
Definition last_match (cum : list Z) (n : nat) (r : nat) : option nat :=
  fold_left (fun key i => if in_interval cum i r then Some i else key) (seq 0 n) None.

(** ** createGroups (lines 59-97) *)

Definition createGroups (sizes : list Z) (c : comm) : M unit (comm * list bool) :=
  let nGroups := length sizes in
  let nProc_total := sum_list_Z sizes in
  if negb (Z.of_nat (size c) =? nProc_total) then
    raise (MPError ("Cannot split comm. Comm has " +:+ fmt_d (Z.of_nat (size c))
                    +:+ " processors, but" +:+ spaces 8
                    +:+ "requesting to split into " +:+ fmt_d nProc_total +:+ "."))
  else
    let cumGroups := cumulative id nGroups sizes in
    member_key <- unwrap (last_match cumGroups nGroups (rank c))
                         (UnboundLocalError "member_key") ;;
    new_comm <- comm_Split c (map (last_match cumGroups nGroups) (seq 0 (size c)))
                           member_key ;;
    let flags := <[member_key := true]> (replicate nGroups false) in
    ret (new_comm, flags).

(** ** The user's callbacks and the optimization problem

    The functional and sensitivity callbacks return a dictionary, or [None]
    when they fall off their end.  The combination function gets a
    dictionary and returns the pair [(fObj, fCon)] or raises; it is taken to
    be a function of the contents of its argument. *)

Definition objCallback : Type := pyval -> pyval.
Definition sensCallback : Type := pyval -> pyval -> pyval -> pyval.
Definition objConFunc : Type := dict pyval -> exn + (pyval * pyval).

(** What the code reads of pyOptSparse's [Optimization]: per constraint
    [linear], [wrt] and [ncon]; the names of the design-variable sets; and
    [dvOffset[dvSet]['n']], a pair of offsets. *)
Record constraintT : Type := Constraint { linear : bool; wrt : list string; ncon : nat }.
Record Optimization : Type := Build_Optimization {
  constraints : dict constraintT;
  variables : list string;
  dvOffset : dict (Z * Z)
}.

(** ** class procSet (lines 729-772) *)

Module procSet.
Record t : Type := Build {
  setName : string;
  nMembers : Z;
  memberSizes : list Z;
  nProc : Z;
  gcomm : option comm;
  objFunc : list objCallback;
  sensFunc : list sensCallback;
  cumGroups : option (list Z);
  groupID : option nat;
  groupFlags : option (list bool);
  comm_ : option comm;           (* the attribute [comm] *)
  setID : nat
}.

(** [__init__] *)
Definition init (setName : string) (nMembers : Z) (memberSizes : list Z) (setID : nat) : t :=
  {| setName := setName; nMembers := nMembers; memberSizes := memberSizes;
     nProc := sum_list_Z memberSizes;       (* numpy.sum *)
     gcomm := None; objFunc := []; sensFunc := [];
     cumGroups := None; groupID := None; groupFlags := None; comm_ := None;
     setID := setID |}.

Definition set_gcomm (p : t) (c : option comm) : t :=
  Build (setName p) (nMembers p) (memberSizes p) (nProc p) c (objFunc p) (sensFunc p)
        (cumGroups p) (groupID p) (groupFlags p) (comm_ p) (setID p).
Definition set_objFunc (p : t) (f : list objCallback) : t :=
  Build (setName p) (nMembers p) (memberSizes p) (nProc p) (gcomm p) f (sensFunc p)
        (cumGroups p) (groupID p) (groupFlags p) (comm_ p) (setID p).
Definition set_sensFunc (p : t) (f : list sensCallback) : t :=
  Build (setName p) (nMembers p) (memberSizes p) (nProc p) (gcomm p) (objFunc p) f
        (cumGroups p) (groupID p) (groupFlags p) (comm_ p) (setID p).
(** The four attributes [createCommunicators] assigns at its end. *)
Definition set_split (p : t) (c : comm) (flags : list bool) (id : nat) (cum : list Z) : t :=
  Build (setName p) (nMembers p) (memberSizes p) (nProc p) (gcomm p) (objFunc p)
        (sensFunc p) (Some cum) (Some id) (Some flags) (Some c) (setID p).

(** [createCommunicators] (lines 750-772).  The members of the set sit on
    the ranks of [self.gcomm] in the order of their sizes; every rank of
    [self.gcomm] runs this with the same sizes, which gives the colours of
    the split. *)
Definition createCommunicators : M t unit :=
  self <- get ;;
  let n := Z.to_nat (nMembers self) in
  let cumGroups := cumulative intc n (memberSizes self) in
  g <- unwrap (gcomm self) (AttributeError "'NoneType' object has no attribute 'rank'") ;;
  let m_key := last_match cumGroups n (rank g) in
  (* Split takes an int: [None] is refused *)
  color <- unwrap m_key (TypeError "an integer is required") ;;
  c <- comm_Split g (map (last_match cumGroups n) (seq 0 (size g))) color ;;
  let groupFlags := <[color := true]> (replicate n false) in
  put (set_split self c groupFlags color cumGroups).
End procSet.

(** ** class multiPointSparse *)

Record multiPointSparse : Type := Build_multiPointSparse {
  gcomm : comm;
  pSet : dict procSet.t;                   (* OrderedDict *)
  dummyPSet : gset string;
  pSetRoot : option (dict Z);
  setFlags : option (dict bool);
  optProb : option Optimization;
  commPattern : option (dict nat);
  userObjCon : option objConFunc;
  conKeys : option (gset string);
  funcs : option nat;                      (* a reference into [heap] *)
  inputKeys : option (gset string);
  outputKeys : option (gset string);
  passThroughKeys : option (gset string);
  (** The dictionaries that are reached through more than one name:
      [self.funcs] and the local [funcs] of [sens] are references to a cell
      of this store. *)
  heap : list (dict pyval)
}.

(** [__init__] (lines 183-203); [objective], [constraints] and [cumSets] are
    never read again and are left out. *)
Definition init (gcomm : comm) : multiPointSparse :=
  {| gcomm := gcomm; pSet := []; dummyPSet := ∅; pSetRoot := None; setFlags := None;
     optProb := None; commPattern := None; userObjCon := None; conKeys := None;
     funcs := None; inputKeys := None; outputKeys := None; passThroughKeys := None;
     heap := [] |}.

Definition set_pSet (s : multiPointSparse) (v : dict procSet.t) : multiPointSparse :=
  Build_multiPointSparse (gcomm s) v (dummyPSet s) (pSetRoot s) (setFlags s) (optProb s)
    (commPattern s) (userObjCon s) (conKeys s) (funcs s) (inputKeys s) (outputKeys s)
    (passThroughKeys s) (heap s).
Definition set_dummyPSet (s : multiPointSparse) (v : gset string) : multiPointSparse :=
  Build_multiPointSparse (gcomm s) (pSet s) v (pSetRoot s) (setFlags s) (optProb s)
    (commPattern s) (userObjCon s) (conKeys s) (funcs s) (inputKeys s) (outputKeys s)
    (passThroughKeys s) (heap s).
Definition set_pSetRoot (s : multiPointSparse) (v : option (dict Z)) : multiPointSparse :=
  Build_multiPointSparse (gcomm s) (pSet s) (dummyPSet s) v (setFlags s) (optProb s)
    (commPattern s) (userObjCon s) (conKeys s) (funcs s) (inputKeys s) (outputKeys s)
    (passThroughKeys s) (heap s).
Definition set_setFlags (s : multiPointSparse) (v : option (dict bool)) : multiPointSparse :=
  Build_multiPointSparse (gcomm s) (pSet s) (dummyPSet s) (pSetRoot s) v (optProb s)
    (commPattern s) (userObjCon s) (conKeys s) (funcs s) (inputKeys s) (outputKeys s)
    (passThroughKeys s) (heap s).
Definition set_commPattern (s : multiPointSparse) (v : option (dict nat)) : multiPointSparse :=
  Build_multiPointSparse (gcomm s) (pSet s) (dummyPSet s) (pSetRoot s) (setFlags s) (optProb s)
    v (userObjCon s) (conKeys s) (funcs s) (inputKeys s) (outputKeys s)
    (passThroughKeys s) (heap s).
Definition set_userObjCon (s : multiPointSparse) (v : option objConFunc) : multiPointSparse :=
  Build_multiPointSparse (gcomm s) (pSet s) (dummyPSet s) (pSetRoot s) (setFlags s) (optProb s)
    (commPattern s) v (conKeys s) (funcs s) (inputKeys s) (outputKeys s)
    (passThroughKeys s) (heap s).
Definition set_funcs (s : multiPointSparse) (v : option nat) : multiPointSparse :=
  Build_multiPointSparse (gcomm s) (pSet s) (dummyPSet s) (pSetRoot s) (setFlags s) (optProb s)
    (commPattern s) (userObjCon s) (conKeys s) v (inputKeys s) (outputKeys s)
    (passThroughKeys s) (heap s).
Definition set_heap (s : multiPointSparse) (v : list (dict pyval)) : multiPointSparse :=
  Build_multiPointSparse (gcomm s) (pSet s) (dummyPSet s) (pSetRoot s) (setFlags s) (optProb s)
    (commPattern s) (userObjCon s) (conKeys s) (funcs s) (inputKeys s) (outputKeys s)
    (passThroughKeys s) v.
(** The three key sets [obj] assigns together (lines 566-568). *)
Definition set_keys (s : multiPointSparse) (i o p : gset string) : multiPointSparse :=
  Build_multiPointSparse (gcomm s) (pSet s) (dummyPSet s) (pSetRoot s) (setFlags s) (optProb s)
    (commPattern s) (userObjCon s) (conKeys s) (funcs s) (Some i) (Some o) (Some p) (heap s).
(** What [setOptProb] assigns (lines 491-501). *)
Definition set_optProb (s : multiPointSparse) (op : Optimization) (ck : gset string)
  : multiPointSparse :=
  Build_multiPointSparse (gcomm s) (pSet s) (dummyPSet s) (pSetRoot s) (setFlags s) (Some op)
    (commPattern s) (userObjCon s) (Some ck) None None None None (heap s).

Definition modify {St} (f : St -> St) : M St unit := fun s => (f s, [], inr tt).

(** ** addProcessorSet (lines 205-247) *)

(** [memberSizes] is an int or a sequence of ints; [numpy.atleast_1d] makes
    a one-element array of an int. *)
Inductive sizesArg : Type := SizeInt (n : Z) | SizeSeq (l : list Z).

Definition atleast_1d (a : sizesArg) : list Z :=
  match a with SizeInt n => [n] | SizeSeq l => l end.

Definition length_mismatch : string :=
  "The suppliled memberSizes list is not " +:+ spaces 5 +:+ "the correct length.".

(** The sizes are numpy float64 cells from here on when they come from
    [numpy.ones]; they hold the integers of a processor count exactly and
    are kept as integers. *)
Definition addProcessorSet (setName : string) (nMembers : Z) (memberSizes : sizesArg)
  : M multiPointSparse unit :=
  if nMembers =? 0 then
    modify (fun self => set_dummyPSet self ({[setName]} ∪ dummyPSet self))
  else
    let memberSizes := atleast_1d memberSizes in
    memberSizes <-
      (if Nat.eqb (length memberSizes) 1 then
         (* numpy.ones(nMembers) * memberSizes[0] *)
         if nMembers <? 0 then raise (ValueError "negative dimensions are not allowed")
         else ret (replicate (Z.to_nat nMembers) (memberSizes !!! 0%nat))
       else
         if negb (Z.of_nat (length memberSizes) =? nMembers)
         then raise (MPError length_mismatch)
         else ret memberSizes) ;;
    self <- get ;;
    put (set_pSet self (dict_set (pSet self) setName
           (procSet.init setName nMembers memberSizes (length (pSet self))))).

(** ** createCommunicators (lines 249-337) *)

(** Runs a method of the processor set stored under [key] and stores the
    set back: [self.pSet[key].method()]. *)
Definition on_procSet {A} (key : string) (m : M procSet.t A) : M multiPointSparse A :=
  fun self =>
    match dict_get (pSet self) key with
    | None => (self, [], inl (KeyError key))
    | Some p =>
        match m p with
        | (p', tr, r) => (set_pSet self (dict_set (pSet self) key p'), tr, r)
        end
    end.

(** Lines 281-284. *)
Definition totalProcs (ps : dict procSet.t) : Z :=
  fold_left (fun nProc kp => nProc + procSet.nProc (snd kp)) ps 0.

Definition exactly_message (nProc : Z) : string :=
  "multiPointSparse must be called with EXACTLY" +:+ " " +:+ fmt_d nProc +:+ " processors.".

(** Lines 292-295: [setSizes[self.pSet[setName].setID] = self.pSet[setName].nProc]. *)
Definition fill_setSizes {St} (ps : dict procSet.t) : M St (list Z) :=
  foldM (fun setSizes kp =>
           let p : procSet.t := snd kp in
           if Nat.ltb (procSet.setID p) (length setSizes)
           then ret (<[procSet.setID p := procSet.nProc p]> setSizes)
           else raise IndexError)
        ps (replicate (length ps) 0).

(** Lines 303-310: the member key and the flags of one rank. *)
Definition flag_sets (ps : dict procSet.t) (cumSets : list Z) (r : nat)
  : option nat * dict bool :=
  fold_left (fun acc kp =>
               let p : procSet.t := snd kp in
               if in_interval cumSets (procSet.setID p) r
               then (Some (procSet.setID p), dict_set (snd acc) (procSet.setName p) true)
               else (fst acc, dict_set (snd acc) (procSet.setName p) false))
            ps (None, []).

(** Lines 316-326, one round of the loop: the set this process belongs to
    gets [setComm] and splits it; [locals] are [comm], [groupFlags] and
    [ptID], unbound until then. *)
Definition split_set (setComm : comm) (setFlags : dict bool)
    (locals : option comm * option (list bool) * option nat) (key : string)
  : M multiPointSparse (option comm * option (list bool) * option nat) :=
  flag <- unwrap (dict_get setFlags key) (KeyError key) ;;
  if flag : bool then
    on_procSet key (modify (fun p => procSet.set_gcomm p (Some setComm))) ;;
    on_procSet key procSet.createCommunicators ;;
    self <- get ;;
    emit (EvBarrier (gcomm self)) ;;
    p <- unwrap (dict_get (pSet self) key) (KeyError key) ;;
    ret (procSet.comm_ p, procSet.groupFlags p, procSet.groupID p)
  else ret locals.

Definition createCommunicators
  : M multiPointSparse (comm * comm * dict bool * list bool * nat) :=
  self <- get ;;
  let nProc := totalProcs (pSet self) in
  let N := Z.of_nat (size (gcomm self)) in
  if (nProc <? N) || (nProc >? N) then raise (MPError (exactly_message nProc))
  else
    let setCount := length (pSet self) in
    setSizes <- fill_setSizes (pSet self) ;;
    let cumSets := cumulative intc setCount setSizes in
    let mk_flags := flag_sets (pSet self) cumSets (rank (gcomm self)) in
    let setFlags := snd mk_flags in
    memberKey <- unwrap (fst mk_flags) (UnboundLocalError "memberKey") ;;
    setComm <- comm_Split (gcomm self)
                 (map (fun r => fst (flag_sets (pSet self) cumSets r))
                      (seq 0 (size (gcomm self))))
                 memberKey ;;
    (* lines 316-326 *)
    locals <- foldM (split_set setComm setFlags) (dict_keys (pSet self))
                    (None, None, None) ;;
    (* lines 328-331: self.setFlags and the returned setFlags are one object *)
    let setFlags := fold_left (fun flags key => dict_set flags key false)
                              (elements (dummyPSet self)) setFlags in
    modify (fun self => set_setFlags self (Some setFlags)) ;;
    (* lines 333-335 *)
    modify (fun self =>
      set_pSetRoot self
        (Some (fold_left (fun root kp =>
                 dict_set root (fst kp) (cumSets !!! procSet.setID (snd kp)))
               (pSet self) []))) ;;
    (* line 337 *)
    let '(comm, groupFlags, ptID) := locals in
    comm <- unwrap comm (UnboundLocalError "comm") ;;
    groupFlags <- unwrap groupFlags (UnboundLocalError "groupFlags") ;;
    ptID <- unwrap ptID (UnboundLocalError "ptID") ;;
    ret (comm, setComm, setFlags, groupFlags, ptID).

(** ** The setters of the callbacks (lines 387-476); [func] is a function
    handle by its type. *)

Definition not_added : string := "'setName' has not been added with addProcessorSet.".

Definition setProcSetObjFunc (setName : string) (func : objCallback) : M multiPointSparse unit :=
  self <- get ;;
  if negb (dict_mem (pSet self) setName) then raise (MPError not_added)
  else on_procSet setName (modify (fun p => procSet.set_objFunc p [func])).

Definition setProcSetSensFunc (setName : string) (func : sensCallback) : M multiPointSparse unit :=
  self <- get ;;
  if negb (dict_mem (pSet self) setName) then raise (MPError not_added)
  else on_procSet setName (modify (fun p => procSet.set_sensFunc p [func])).

Definition addProcSetObjFunc (setName : string) (func : objCallback) : M multiPointSparse unit :=
  self <- get ;;
  if negb (dict_mem (pSet self) setName) then raise (MPError not_added)
  else on_procSet setName (modify (fun p => procSet.set_objFunc p (procSet.objFunc p ++ [func]))).

Definition addProcSetSensFunc (setName : string) (func : sensCallback) : M multiPointSparse unit :=
  self <- get ;;
  if negb (dict_mem (pSet self) setName) then raise (MPError not_added)
  else on_procSet setName (modify (fun p => procSet.set_sensFunc p (procSet.sensFunc p ++ [func]))).

Definition setObjCon (func : objConFunc) : M multiPointSparse unit :=
  modify (fun self => set_userObjCon self (Some func)).

(** [setOptProb] (lines 478-501): the names of the nonlinear constraints. *)
Definition setOptProb (optProb : Optimization) : M multiPointSparse unit :=
  let conKeys :=
    fold_left (fun conKeys kc => if linear (snd kc) then conKeys else conKeys ++ [fst kc])
              (constraints optProb) [] in
  modify (fun self => set_optProb self optProb (list_to_set conKeys)).

(** ** Python and numpy arithmetic, as far as [sens] uses it

    [1e-40] is read as the binary64 number nearest to it. *)

Definition step : float := 0x1.16c262777579cp-133%float.

Definition complex : Type := float * float.

Definition cadd (a b : complex) : complex := (fst a + fst b, snd a + snd b)%float.
Definition csub (a b : complex) : complex := (fst a - fst b, snd a - snd b)%float.
Definition cmul (a b : complex) : complex :=
  (fst a * fst b - snd a * snd b, fst a * snd b + snd a * fst b)%float.

(** [1e-40j] *)
Definition step_j : complex := (0%float, step).

Definition float_of_bool (b : bool) : float := if b then 1%float else 0%float.

(** [numpy.isscalar] *)
Definition isscalar (v : pyval) : bool :=
  match v with VBool _ | VFloat _ | VComplex _ _ => true | _ => false end.

(** A scalar seen as a complex number, as Python coerces it in mixed
    arithmetic. *)
Definition to_complex (v : pyval) : exn + complex :=
  match v with
  | VBool b => inr (float_of_bool b, 0%float)
  | VFloat x => inr (x, 0%float)
  | VComplex re im => inr (re, im)
  | _ => inl (TypeError "unsupported operand type")
  end.

(** [v + 1e-40j] and [v - 1e-40j] on a scalar. *)
Definition perturb (v : pyval) : exn + pyval :=
  match to_complex v with
  | inr c => inr (VComplex (fst (cadd c step_j)) (snd (cadd c step_j)))
  | inl e => inl e
  end.
Definition unperturb (v : pyval) : exn + pyval :=
  match to_complex v with
  | inr c => inr (VComplex (fst (csub c step_j)) (snd (csub c step_j)))
  | inl e => inl e
  end.

(** [numpy.array(v).astype('D')] on a value that is not a scalar. *)
Definition astype_D (v : pyval) : exn + pyval :=
  match v with
  | VArray a => inr (VCArray (map (fun x => (x, 0%float)) a))
  | VCArray a => inr (VCArray a)
  | VMatrix _ => inl (Unmodelled "a functional with two dimensions")
  | _ => inl (TypeError "float() argument must be a string or a number")
  end.

(** [numpy.imag(v) / 1e-40]; numpy.imag is [asanyarray(v).imag], so the
    quotient of a scalar is a numpy float64. *)
Definition imag_over_step (v : pyval) : exn + pyval :=
  match v with
  | VBool _ | VFloat _ => inr (VFloat (0 / step))
  | VComplex _ im => inr (VFloat (im / step))
  | VArray a => inr (VArray (map (fun _ => (0 / step)%float) a))
  | VCArray a => inr (VArray (map (fun c => (snd c / step)%float) a))
  | VMatrix _ => inl (Unmodelled "a value with two dimensions")
  | _ => inl (TypeError "unsupported operand type")
  end.

(** [deriv * J] for the derivative of the objective, a scalar. *)
Definition scale (deriv J : pyval) : exn + pyval :=
  match deriv with
  | VFloat d =>
      match J with
      | VBool b => inr (VFloat (d * float_of_bool b))
      | VFloat x => inr (VFloat (d * x))
      | VArray a => inr (VArray (map (fun x => (d * x)%float) a))
      | VMatrix m => inr (VMatrix (map (map (fun x => (d * x)%float)) m))
      | VComplex _ _ | VCArray _ => inl (Unmodelled "a complex Jacobian")
      | _ => inl (TypeError "unsupported operand type")
      end
  | VArray _ => inl (Unmodelled "an objective that is an array")
  | _ => inl (TypeError "unsupported operand type")
  end.

Definition shape_error : exn := ValueError "operands could not be broadcast together".

Fixpoint add_rows (t inc : list float) : list float :=
  match t, inc with
  | x :: t', y :: inc' => (x + y)%float :: add_rows t' inc'
  | _, _ => []
  end.

(** [t += inc] on rows, [inc] broadcast to the shape of [t]. *)
Definition iadd_row (t inc : list float) : exn + list float :=
  if Nat.eqb (length inc) (length t) then inr (add_rows t inc)
  else match inc with
       | [y] => inr (map (fun x => (x + y)%float) t)
       | _ => inl shape_error
       end.

Fixpoint iadd_rows (t inc : list (list float)) : exn + list (list float) :=
  match t, inc with
  | [], [] => inr []
  | r :: t', s :: inc' =>
      match iadd_row r s, iadd_rows t' inc' with
      | inr r', inr t'' => inr (r' :: t'')
      | inl e, _ => inl e
      | _, inl e => inl e
      end
  | _, _ => inl shape_error
  end.

(** [target += inc] for the arrays [sens] accumulates in: [gobj[dvSet]],
    one dimension, and [gcon[oKey][dvSet]], two. *)
Definition iadd (target inc : pyval) : exn + pyval :=
  match target, inc with
  | VArray t, VBool b => inr (VArray (map (fun x => (x + float_of_bool b)%float) t))
  | VArray t, VFloat y => inr (VArray (map (fun x => (x + y)%float) t))
  | VArray t, VArray a =>
      match iadd_row t a with inr t' => inr (VArray t') | inl e => inl e end
  | VArray _, VMatrix _ => inl shape_error
  | VMatrix t, VMatrix m =>
      match (if Nat.eqb (length m) (length t) then iadd_rows t m
             else match m with
                  | [row] => iadd_rows t (replicate (length t) row)
                  | _ => inl shape_error
                  end) with
      | inr t' => inr (VMatrix t')
      | inl e => inl e
      end
  | _, _ => inl (TypeError "unsupported operand type")
  end.

(** [(numpy.imag(v) / 1e-40).reshape((ncon, 1))], as the list of its rows. *)
Definition column (v : pyval) (ncon : nat) : exn + list float :=
  match imag_over_step v with
  | inr (VFloat d) => if Nat.eqb ncon 1 then inr [d] else inl (ValueError "cannot reshape array")
  | inr (VArray a) =>
      if Nat.eqb (length a) ncon then inr a else inl (ValueError "cannot reshape array")
  | inr _ => inl (TypeError "unsupported operand type")
  | inl e => inl e
  end.

(** [numpy.atleast_2d(J)] *)
Definition atleast_2d (J : pyval) : exn + list (list float) :=
  match J with
  | VBool b => inr [[float_of_bool b]]
  | VFloat x => inr [[x]]
  | VArray a => inr [a]
  | VMatrix m => inr m
  | VComplex _ _ | VCArray _ => inl (Unmodelled "a complex Jacobian")
  | _ => inl (TypeError "unsupported operand type")
  end.

(** [numpy.dot(deriv, J2)] with [deriv] of shape (ncon, 1): [J2] must have
    one row, and each entry of the product is a single product. *)
Definition dot_column (col : list float) (J2 : list (list float)) : exn + pyval :=
  match J2 with
  | [row] => inr (VMatrix (map (fun c => map (fun x => (c * x)%float) row) col))
  | _ => inl (ValueError "shapes not aligned")
  end.

(** [J[i, :]] *)
Definition row_of (J : pyval) (i : nat) : exn + pyval :=
  match J with
  | VMatrix m => match m !! i with Some r => inr (VArray r) | None => inl IndexError end
  | _ => inl IndexError
  end.

(** [bool(v)] *)
Definition truthy (v : pyval) : exn + bool :=
  match v with
  | VNone => inr false
  | VBool b => inr b
  | VFloat x => inr (negb (PrimFloat.eqb x 0))
  | VComplex re im => inr (negb (PrimFloat.eqb re 0) || negb (PrimFloat.eqb im 0))
  | VArray [] | VCArray [] | VMatrix [] => inr false
  | VArray [x] => inr (negb (PrimFloat.eqb x 0))
  | VCArray [c] => inr (negb (PrimFloat.eqb (fst c) 0) || negb (PrimFloat.eqb (snd c) 0))
  | VArray _ | VCArray _ | VMatrix _ =>
      inl (ValueError "The truth value of an array with more than one element is ambiguous")
  | VDict d => inr (negb (Nat.eqb (length d) 0))
  end.

Definition lift {St A} (r : exn + A) : M St A :=
  match r with inr a => ret a | inl e => raise e end.

(** ** The other processes

    What the rest of the job contributes to the collective calls of one
    [obj] or [sens]: the key list every other rank passes to allgather, the
    value a root other than this process broadcasts, and the OR of the
    failure flags of the other ranks. *)

Inductive bcast_tag : Type :=
| TagKey (key : string)               (* lines 550-552 and 609-611 *)
| TagObj | TagCon | TagFail           (* lines 573-575: fObj, fCon, fail *)
| TagGobj | TagGcon.                  (* lines 708-709 *)

Record peers : Type := Peers {
  peer_keys : nat -> list string;
  peer_bcast : nat -> bcast_tag -> pyval;
  peer_fail : bool
}.

(** [comm.allgather(keys)]: one entry per rank, in rank order. *)
Definition gathered (env : peers) (g : comm) (keys : list string) : list (list string) :=
  map (fun r => if Nat.eqb r (rank g) then keys else peer_keys env r) (seq 0 (size g)).

Definition allgather {St} (env : peers) (g : comm) (keys : list string)
  : M St (list (list string)) :=
  emit (EvAllgather keys) ;; ret (gathered env g keys).

(** [comm.bcast(v, root)]: [v] is evaluated on every rank and sent by the
    root only. *)
Definition bcast {St} (env : peers) (g : comm) (tag : bcast_tag) (v : pyval) (root : nat)
  : M St pyval :=
  emit (EvBcast root v) ;;
  ret (if Nat.eqb root (rank g) then v else peer_bcast env root tag).

(** [comm.allreduce(flag, op=MPI.LOR)] *)
Definition allreduce {St} (env : peers) (flag : bool) : M St bool :=
  emit (EvAllreduce flag) ;; ret (flag || peer_fail env).

(** ** The store of shared dictionaries *)

Definition dangling : exn := Unmodelled "a reference to no dictionary".

Definition alloc (d : dict pyval) : M multiPointSparse nat :=
  self <- get ;;
  put (set_heap self (heap self ++ [d])) ;;
  ret (length (heap self)).

Definition deref (l : nat) : M multiPointSparse (dict pyval) :=
  self <- get ;; unwrap (heap self !! l) dangling.

Definition store (l : nat) (d : dict pyval) : M multiPointSparse unit :=
  modify (fun self => set_heap self (<[l := d]> (heap self))).

Definition not_iterable : exn := TypeError "'NoneType' object is not iterable".
Definition not_subscriptable : exn := TypeError "'NoneType' object is not subscriptable".
Definition not_callable : exn := TypeError "'NoneType' object is not callable".

(** [_complexifyFuncs] (lines 714-720): works on the dictionary it is given
    and returns that same dictionary. *)
Definition _complexifyFuncs (funcs : option nat) (keys : option (gset string))
  : M multiPointSparse (option nat) :=
  keys <- unwrap keys not_iterable ;;
  foldM (fun _ key =>
           l <- unwrap funcs not_subscriptable ;;
           d <- deref l ;;
           v <- unwrap (dict_get d key) (KeyError key) ;;
           if isscalar v then ret tt
           else v' <- lift (astype_D v) ;; store l (dict_set d key v'))
        (elements keys) tt ;;
  ret funcs.

(** [_extractKeys] (lines 722-727): a new dictionary with deep copies of
    the values. *)
Definition _extractKeys {St} (funcs : dict pyval) (keys : list string) : M St (dict pyval) :=
  foldM (fun newDict key =>
           v <- unwrap (dict_get funcs key) (KeyError key) ;;
           ret (dict_set newDict key v))
        keys [].

(** ** obj (lines 503-577) *)

Definition no_return_obj (key : string) : string :=
  "No return from user supplied" +:+ spaces 16
  +:+ "Objective function for pSet " +:+ key
  +:+ ". Functionals must be returned in a" +:+ spaces 26 +:+ "dictionary.".

Definition no_return_sens (key : string) : string :=
  "No return from user supplied" +:+ " "
  +:+ "Sensitivity function for pSet " +:+ key
  +:+ ". Functional derivatives must be returned in a" +:+ " " +:+ "dictionary.".

(** Lines 518-527 and 594-603: the callbacks of one set, each called as
    [call func], fill [res]. *)
Definition run_callbacks {St F} (message : string) (call : F -> pyval) (fs : list F)
  : M St (dict pyval) :=
  res <- foldM (fun res func =>
                  match call func with
                  | VNone => raise (AssertionError message)
                  | VDict tmp => ret (dict_update res tmp)
                  | _ => raise (TypeError "cannot convert dictionary update sequence")
                  end)
               fs [] ;;
  ret (if dict_mem res "fail" then res else dict_set res "fail" (VBool false)).

(** Lines 515-527: [res] stays unbound ([None]) on a process that is in no
    active set. *)
Definition obj_local (x : pyval) : M multiPointSparse (option (dict pyval)) :=
  self <- get ;;
  foldM (fun res kp =>
           flags <- unwrap (setFlags self) not_subscriptable ;;
           flag <- unwrap (dict_get flags (fst kp)) (KeyError (fst kp)) ;;
           if flag : bool then
             res <- run_callbacks (no_return_obj (fst kp)) (fun func : objCallback => func x)
                                  (procSet.objFunc (snd kp)) ;;
             ret (Some res)
           else ret res)
        (pSet self) None.

(** Lines 536-544. *)
Definition discover (allKeys : list (list string)) : dict nat :=
  fold_left (fun commPattern ik =>
               fold_left (fun commPattern key =>
                            if negb (dict_mem commPattern key) then
                              if negb (String.eqb key "fail")
                              then dict_set commPattern key (fst ik)
                              else commPattern
                            else commPattern)
                         (snd ik) commPattern)
            (combine (seq 0 (length allKeys)) allKeys) [].

(** Lines 546-554 and 605-613: the owner of each key of the pattern
    broadcasts its local value. *)
Definition unify (env : peers) (res : option (dict pyval)) (commPattern : dict nat)
  : M multiPointSparse (dict pyval) :=
  self <- get ;;
  foldM (fun allFuncs kr =>
           tmp <- (if Nat.eqb (snd kr) (rank (gcomm self)) then
                     res <- unwrap res (UnboundLocalError "res") ;;
                     v <- unwrap (dict_get res (fst kr)) (KeyError (fst kr)) ;;
                     bcast env (gcomm self) (TagKey (fst kr)) v (snd kr)
                   else bcast env (gcomm self) (TagKey (fst kr)) VNone (snd kr)) ;;
           ret (dict_set allFuncs (fst kr) tmp))
        commPattern [].

(** Lines 557 and 616. *)
Definition reduce_fail (env : peers) (res : option (dict pyval)) : M multiPointSparse bool :=
  res <- unwrap res (UnboundLocalError "res") ;;
  flag <- unwrap (dict_get res "fail") (KeyError "fail") ;;
  flag <- lift (truthy flag) ;;
  allreduce env flag.

(** Lines 529-544: on the first pass only. *)
Definition discover_pattern (env : peers) (res : option (dict pyval)) : M multiPointSparse unit :=
  self <- get ;;
  match commPattern self with
  | None =>
      res <- unwrap res (UnboundLocalError "res") ;;
      allKeys <- allgather env (gcomm self) (dict_keys res) ;;
      modify (fun self => set_commPattern self (Some (discover allKeys)))
  | Some _ => ret tt
  end.

(** Lines 546-577. *)
Definition obj_finish (env : peers) (res : option (dict pyval))
  : M multiPointSparse (pyval * pyval * pyval) :=
  self <- get ;;
  (* lines 546-557 *)
  commPattern <- unwrap (commPattern self) not_iterable ;;
  allFuncs <- unify env res commPattern ;;
  fail <- reduce_fail env res ;;
  (* line 560: self.funcs = copy.deepcopy(allFuncs) *)
  l <- alloc allFuncs ;;
  modify (fun self => set_funcs self (Some l)) ;;
  (* lines 563-568 *)
  let funckeys : gset string := list_to_set (dict_keys allFuncs) in
  conKeys <- unwrap (conKeys self) not_iterable ;;
  modify (fun self => set_keys self (funckeys ∖ conKeys) (conKeys ∖ funckeys)
                                    (funckeys ∩ conKeys)) ;;
  (* lines 570-571 *)
  inputFuncs <- _extractKeys allFuncs (elements (funckeys ∖ conKeys)) ;;
  userObjCon <- unwrap (userObjCon self) not_callable ;;
  emit (EvObjCon inputFuncs) ;;
  fObj_fCon <- lift (userObjCon inputFuncs) ;;
  (* lines 573-577 *)
  fObj <- bcast env (gcomm self) TagObj (fst fObj_fCon) 0 ;;
  fCon <- bcast env (gcomm self) TagCon (snd fObj_fCon) 0 ;;
  fail <- bcast env (gcomm self) TagFail (VBool fail) 0 ;;
  ret (fObj, fCon, fail).

Definition obj (env : peers) (x : pyval) : M multiPointSparse (pyval * pyval * pyval) :=
  res <- obj_local x ;;
  discover_pattern env res ;;
  obj_finish env res.

(** ** sens (lines 579-712) *)

(** Lines 591-603. *)
Definition sens_local (x fObj fCon : pyval) : M multiPointSparse (option (dict pyval)) :=
  self <- get ;;
  foldM (fun res kp =>
           flags <- unwrap (setFlags self) not_subscriptable ;;
           flag <- unwrap (dict_get flags (fst kp)) (KeyError (fst kp)) ;;
           if flag : bool then
             res <- run_callbacks (no_return_sens (fst kp))
                                  (fun func : sensCallback => func x fObj fCon)
                                  (procSet.sensFunc (snd kp)) ;;
             ret (Some res)
           else ret res)
        (pSet self) None.

Definition no_optProb : exn := AttributeError "'NoneType' object has no attribute".

Definition as_dict {St} (v : pyval) : M St (dict pyval) :=
  match v with
  | VDict d => ret d
  | VNone => raise not_subscriptable
  | _ => raise (TypeError "object is not a dictionary")
  end.

(** [ss = self.optProb.dvOffset[dvSet]['n']; ndvs = ss[1]-ss[0]] and the
    check numpy.zeros makes of it. *)
Definition ndvs_of {St} (optProb : Optimization) (dvSet : string) : M St nat :=
  ss <- unwrap (dict_get (dvOffset optProb) dvSet) (KeyError dvSet) ;;
  let ndvs := snd ss - fst ss in
  if ndvs <? 0 then raise (ValueError "negative dimensions are not allowed")
  else ret (Z.to_nat ndvs).

(** Lines 636-643, and again 654-661: zero blocks for the output keys. *)
Definition zero_blocks (gcon : dict pyval) : M multiPointSparse (dict pyval) :=
  self <- get ;;
  outputKeys <- unwrap (outputKeys self) not_iterable ;;
  foldM (fun gcon oKey =>
           optProb <- unwrap (optProb self) no_optProb ;;
           c <- unwrap (dict_get (constraints optProb) oKey) (KeyError oKey) ;;
           blocks <- foldM (fun blocks dvSet =>
                              ndvs <- ndvs_of optProb dvSet ;;
                              ret (dict_set blocks dvSet
                                     (VMatrix (replicate (ncon c) (replicate ndvs 0%float)))))
                           (wrt c) [] ;;
           ret (dict_set gcon oKey (VDict blocks)))
        (elements outputKeys) gcon.

(** Lines 649-652. *)
Definition zero_gobj : M multiPointSparse (dict pyval) :=
  self <- get ;;
  optProb <- unwrap (optProb self) no_optProb ;;
  foldM (fun gobj dvSet =>
           ndvs <- ndvs_of optProb dvSet ;;
           ret (dict_set gobj dvSet (VArray (replicate ndvs 0%float))))
        (variables optProb) [].

(** Lines 670-673 and 692-695; [pick] is the identity for a scalar
    functional and [J[i, :]] for component [i] of a vector. *)
Definition chain_obj (obj : pyval) (sensI : dict pyval) (pick : pyval -> exn + pyval)
    (gobj : dict pyval) : M multiPointSparse (dict pyval) :=
  self <- get ;;
  foldM (fun gobj dvSet_J =>
           optProb <- unwrap (optProb self) no_optProb ;;
           if existsb (String.eqb (fst dvSet_J)) (variables optProb) then
             deriv <- lift (imag_over_step obj) ;;
             g <- unwrap (dict_get gobj (fst dvSet_J)) (KeyError (fst dvSet_J)) ;;
             J <- lift (pick (snd dvSet_J)) ;;
             inc <- lift (scale deriv J) ;;
             g' <- lift (iadd g inc) ;;
             ret (dict_set gobj (fst dvSet_J) g')
           else ret gobj)
        sensI gobj.

(** Lines 676-683 and 698-706. *)
Definition chain_con (con : pyval) (sensI : dict pyval) (pick : pyval -> exn + pyval)
    (gcon : dict pyval) : M multiPointSparse (dict pyval) :=
  self <- get ;;
  outputKeys <- unwrap (outputKeys self) not_iterable ;;
  foldM (fun gcon oKey =>
           optProb <- unwrap (optProb self) no_optProb ;;
           c <- unwrap (dict_get (constraints optProb) oKey) (KeyError oKey) ;;
           foldM (fun gcon dvSet =>
                    match dict_get sensI dvSet with
                    | Some J =>
                        con <- as_dict con ;;
                        v <- unwrap (dict_get con oKey) (KeyError oKey) ;;
                        deriv <- lift (column v (ncon c)) ;;
                        blocks <- unwrap (dict_get gcon oKey) (KeyError oKey) ;;
                        blocks <- as_dict blocks ;;
                        g <- unwrap (dict_get blocks dvSet) (KeyError dvSet) ;;
                        J <- lift (pick J) ;;
                        J2 <- lift (atleast_2d J) ;;
                        inc <- lift (dot_column deriv J2) ;;
                        g' <- lift (iadd g inc) ;;
                        ret (dict_set gcon oKey (VDict (dict_set blocks dvSet g')))
                    | None => ret gcon
                    end)
                 (wrt c) gcon)
        (elements outputKeys) gcon.

(** [funcs[key]] through the reference [funcs]. *)
Definition getitem (funcs : option nat) (key : string) : M multiPointSparse pyval :=
  l <- unwrap funcs not_subscriptable ;;
  d <- deref l ;;
  unwrap (dict_get d key) (KeyError key).

(** [funcs[key] = v] *)
Definition setitem (funcs : option nat) (key : string) (v : pyval) : M multiPointSparse unit :=
  l <- unwrap funcs not_subscriptable ;;
  d <- deref l ;;
  store l (dict_set d key v).

(** [self.userObjCon(funcs)]: the function sees the dictionary as it is now. *)
Definition call_userObjCon (funcs : option nat) : M multiPointSparse (pyval * pyval) :=
  self <- get ;;
  userObjCon <- unwrap (userObjCon self) not_callable ;;
  l <- unwrap funcs (TypeError "'NoneType' object is not a dictionary") ;;
  d <- deref l ;;
  emit (EvObjCon d) ;;
  lift (userObjCon d).

(** Lines 664-683: a scalar functional. *)
Definition sens_scalar (funcs : option nat) (funcSens : dict pyval) (iKey : string)
    (g : dict pyval * dict pyval) : M multiPointSparse (dict pyval * dict pyval) :=
  v <- getitem funcs iKey ;;
  v <- lift (perturb v) ;;
  setitem funcs iKey v ;;
  obj_con <- call_userObjCon funcs ;;
  v <- getitem funcs iKey ;;
  v <- lift (unperturb v) ;;
  setitem funcs iKey v ;;
  sensI <- unwrap (dict_get funcSens iKey) (KeyError iKey) ;;
  sensI <- as_dict sensI ;;
  gobj <- chain_obj (fst obj_con) sensI inr (fst g) ;;
  gcon <- chain_con (snd obj_con) sensI inr (snd g) ;;
  ret (gobj, gcon).

(** [a[i] += c] on a complex array. *)
Definition perturb_at (v : pyval) (i : nat) : exn + pyval :=
  match v with
  | VCArray a =>
      match a !! i with
      | Some z => inr (VCArray (<[i := cadd z step_j]> a))
      | None => inl IndexError
      end
  | _ => inl (TypeError "object does not support item assignment")
  end.

(** [a[i] -= c] *)
Definition unperturb_at (v : pyval) (i : nat) : exn + pyval :=
  match v with
  | VCArray a =>
      match a !! i with
      | Some z => inr (VCArray (<[i := csub z step_j]> a))
      | None => inl IndexError
      end
  | _ => inl (TypeError "object does not support item assignment")
  end.

(** [len(v)] *)
Definition len {St} (v : pyval) : M St nat :=
  match v with
  | VArray a => ret (length a)
  | VCArray a => ret (length a)
  | VMatrix m => ret (length m)
  | VDict d => ret (length d)
  | _ => raise (TypeError "object has no len()")
  end.

(** Lines 685-706: a vector functional, one component at a time. *)
Definition sens_vector (funcs : option nat) (funcSens : dict pyval) (iKey : string)
    (g : dict pyval * dict pyval) : M multiPointSparse (dict pyval * dict pyval) :=
  v <- getitem funcs iKey ;;
  n <- len v ;;
  foldM (fun g i =>
           v <- getitem funcs iKey ;;
           v <- lift (perturb_at v i) ;;
           setitem funcs iKey v ;;
           obj_con <- call_userObjCon funcs ;;
           v <- getitem funcs iKey ;;
           v <- lift (unperturb_at v i) ;;
           setitem funcs iKey v ;;
           sensI <- unwrap (dict_get funcSens iKey) (KeyError iKey) ;;
           sensI <- as_dict sensI ;;
           gobj <- chain_obj (fst obj_con) sensI (fun J => row_of J i) (fst g) ;;
           gcon <- chain_con (snd obj_con) sensI (fun J => row_of J i) (snd g) ;;
           ret (gobj, gcon))
        (seq 0 n) g.

(** Lines 605-712. *)
Definition sens_finish (env : peers) (res : option (dict pyval))
  : M multiPointSparse (pyval * pyval * pyval) :=
  (* lines 605-616 *)
  self <- get ;;
  commPattern <- unwrap (commPattern self) not_iterable ;;
  funcSens <- unify env res commPattern ;;
  fail <- reduce_fail env res ;;
  (* lines 626-629 *)
  funcs1 <- _complexifyFuncs (funcs self) (inputKeys self) ;;
  inputKeys <- unwrap (inputKeys self) not_iterable ;;
  (match funcs1 with
   | Some l => d <- deref l ;; _extractKeys d (elements inputKeys)
   | None => match elements inputKeys with
             | [] => ret []
             | _ => raise not_subscriptable
             end
   end) ;;
  (* lines 632-633 *)
  passThroughKeys <- unwrap (passThroughKeys self) not_iterable ;;
  gcon <- foldM (fun gcon pKey =>
                   v <- unwrap (dict_get funcSens pKey) (KeyError pKey) ;;
                   ret (dict_set gcon pKey v))
                (elements passThroughKeys) [] ;;
  (* lines 636-643 *)
  gcon <- zero_blocks gcon ;;
  (* line 646: funcs is self.funcs itself from here on *)
  funcs2 <- _complexifyFuncs (funcs self) (Some inputKeys) ;;
  (* lines 649-661 *)
  gobj <- zero_gobj ;;
  gcon <- zero_blocks gcon ;;
  (* lines 663-706 *)
  g <- foldM (fun g iKey =>
                v <- getitem funcs2 iKey ;;
                if isscalar v then sens_scalar funcs2 funcSens iKey g
                else sens_vector funcs2 funcSens iKey g)
             (elements inputKeys) (gobj, gcon) ;;
  (* lines 708-712 *)
  gobj <- bcast env (gcomm self) TagGobj (VDict (fst g)) 0 ;;
  gcon <- bcast env (gcomm self) TagGcon (VDict (snd g)) 0 ;;
  fail <- bcast env (gcomm self) TagFail (VBool fail) 0 ;;
  ret (gobj, gcon, fail).

Definition sens (env : peers) (x fObj fCon : pyval)
  : M multiPointSparse (pyval * pyval * pyval) :=
  res <- sens_local x fObj fCon ;;
  sens_finish env res.

(** ** Vocabulary of the statements *)

(** The sum of the first [i] sizes: what cell [i] of a cumulative array
    holds when no store wrapped. *)
Definition psum (sizes : list Z) (i : nat) : Z := sum_list_Z (take i sizes).

(** Rank [r] lies in interval [i] of the prefix sums. *)
Definition in_psum (sizes : list Z) (i r : nat) : Prop :=
  psum sizes i <= Z.of_nat r < psum sizes (S i).

(** A processor-set specification: the arguments of one call of
    [addProcessorSet]; [declare] makes the calls in order, as the user's
    script does before it calls [createCommunicators]. *)
Record setSpec : Type := SetSpec {
  spec_name : string;
  spec_nMembers : Z;
  spec_sizes : sizesArg
}.

Definition declare (specs : list setSpec) : M multiPointSparse unit :=
  foldM (fun _ s => addProcessorSet (spec_name s) (spec_nMembers s) (spec_sizes s)) specs tt.

(** Sizes are processor counts. *)
Definition nonneg_sizes (s : setSpec) : Prop :=
  Forall (fun z => 0 <= z) (atleast_1d (spec_sizes s)).

(** What [addProcessorSet] establishes for the set stored at position [i]
    under [k]. *)
Definition wf_procSet (i : nat) (k : string) (p : procSet.t) : Prop :=
  procSet.setName p = k /\ procSet.setID p = i /\
  1 <= procSet.nMembers p /\
  length (procSet.memberSizes p) = Z.to_nat (procSet.nMembers p) /\
  procSet.nProc p = sum_list_Z (procSet.memberSizes p) /\
  Forall (fun z => 0 <= z) (procSet.memberSizes p).

Definition wf_pSet (ps : dict procSet.t) : Prop :=
  NoDup (dict_keys ps) /\ forall i k p, ps !! i = Some (k, p) -> wf_procSet i k p.

(** The processor counts of the sets, by setID. *)
Definition setSizes_of (ps : dict procSet.t) : list Z := map (fun kp => procSet.nProc (snd kp)) ps.

(** ** A sample problem: [objCon(f) = (f['a'] + f['b'], {'c': f['a'] * f['b']})]

    Python's [+] and [*] on floats and complex numbers: a float meets a
    complex as the complex with imaginary part 0.0. *)

Definition py_add (u v : pyval) : exn + pyval :=
  match u, v with
  | VFloat x, VFloat y => inr (VFloat (x + y))
  | _, _ =>
      match to_complex u, to_complex v with
      | inr a, inr b => inr (VComplex (fst (cadd a b)) (snd (cadd a b)))
      | inl e, _ | _, inl e => inl e
      end
  end.

Definition py_mul (u v : pyval) : exn + pyval :=
  match u, v with
  | VFloat x, VFloat y => inr (VFloat (x * y))
  | _, _ =>
      match to_complex u, to_complex v with
      | inr a, inr b => inr (VComplex (fst (cmul a b)) (snd (cmul a b)))
      | inl e, _ | _, inl e => inl e
      end
  end.

Definition objCon_sum_product : objConFunc :=
  fun f =>
    match dict_get f "a", dict_get f "b" with
    | Some a, Some b =>
        match py_add a b, py_mul a b with
        | inr s, inr p => inr (s, VDict [("c", p)])
        | inl e, _ | _, inl e => inl e
        end
    | None, _ => inl (KeyError "a")
    | _, None => inl (KeyError "b")
    end.

(** One process, one set with one member; the functionals are a = 3 and
    b = 4; 'c' is a nonlinear constraint over the design variables 'x',
    two of them; da/dx = [1, 0] and db/dx = [0, 1]. *)
Definition sample_obj : objCallback :=
  fun _ => VDict [("a", VFloat 3); ("b", VFloat 4)].

Definition sample_sens : sensCallback :=
  fun _ _ _ => VDict [("a", VDict [("x", VArray [1; 0]%float)]);
                      ("b", VDict [("x", VArray [0; 1]%float)])].

Definition sample_optProb : Optimization :=
  {| constraints := [("c", {| linear := false; wrt := ["x"]; ncon := 1 |})];
     variables := ["x"];
     dvOffset := [("x", (0, 2))] |}.

(** A job of one process has no other rank to hear from. *)
Definition alone : peers :=
  {| peer_keys := fun _ => []; peer_bcast := fun _ _ => VNone; peer_fail := false |}.

Definition sample_setup (obj_f : objCallback) (sens_f : sensCallback) (op : Optimization)
  : M multiPointSparse unit :=
  addProcessorSet "point" 1 (SizeInt 1) ;;
  createCommunicators ;;
  setProcSetObjFunc "point" obj_f ;;
  setProcSetSensFunc "point" sens_f ;;
  setObjCon objCon_sum_product ;;
  setOptProb op.

Definition sample : multiPointSparse :=
  final (sample_setup sample_obj sample_sens sample_optProb (init (Comm 0 1))).


(** A second sample: one vector functional v = [1.5, 2.5] with Jacobian
    [[1, 2], [3, 4]]; the combination function returns the objective 0 and
    the constraint c = v. *)
Definition objCon_copy : objConFunc :=
  fun f =>
    match dict_get f "v" with
    | Some v => inr (VFloat 0, VDict [("c", v)])
    | None => inl (KeyError "v")
    end.

Definition vector_obj : objCallback :=
  fun _ => VDict [("v", VArray [1.5; 2.5]%float)].

Definition vector_sens : sensCallback :=
  fun _ _ _ => VDict [("v", VDict [("x", VMatrix [[1; 2]; [3; 4]]%float)])].

Definition vector_optProb : Optimization :=
  {| constraints := [("c", {| linear := false; wrt := ["x"]; ncon := 2 |})];
     variables := ["x"];
     dvOffset := [("x", (0, 2))] |}.

Definition vector_sample : multiPointSparse :=
  final ((sample_setup vector_obj vector_sens vector_optProb ;; setObjCon objCon_copy)
           (init (Comm 0 1))).

Definition is_objcon (e : event) : bool :=
  match e with EvObjCon _ => true | _ => false end.

(** The collective calls of a trace that the ownership pattern schedules:
    the roots of the broadcasts, and [None] for an allgather. *)
Definition schedule (tr : list event) : list (option nat) :=
  flat_map (fun e => match e with
                     | EvBcast root _ => [Some root]
                     | EvAllgather _ => [None]
                     | _ => []
                     end) tr.

(** Every event of the computation satisfies [P], whatever the state. *)
Definition emits {St A} (P : event -> Prop) (m : M St A) : Prop :=
  forall s, Forall P (trace (m s)).

(** An event the ownership pattern does not schedule. *)
Definition unscheduled (e : event) : Prop := schedule [e] = [].

(** The scheduled calls of [m] from [s] are the list [L], or a prefix of it
    when [m] raises. *)
Definition follows {A} (L : list (option nat)) (m : M multiPointSparse A)
    (s : multiPointSparse) : Prop :=
  schedule (trace (m s)) `prefix_of` L /\
  (forall a, outcome (m s) = inr a -> schedule (trace (m s)) = L).

(** The schedule a pattern fixes: one broadcast per key, from its owner. *)
Definition pattern_schedule (commPattern : dict nat) : list (option nat) :=
  map (fun kr => Some (snd kr)) commPattern.

(** A third sample: from its second call on (any [x] but [None]) the
    callback produces one more functional, 'z'. *)
Definition growing_obj : objCallback :=
  fun x =>
    match x with
    | VNone => VDict [("a", VFloat 3); ("b", VFloat 4)]
    | _ => VDict [("a", VFloat 3); ("b", VFloat 4); ("z", VFloat 5)]
    end.

Definition growing_sample : multiPointSparse :=
  final (sample_setup growing_obj sample_sens sample_optProb (init (Comm 0 1))).

(** The dictionary [self.funcs] refers to. *)
Definition stored (s : multiPointSparse) : option (dict pyval) :=
  match funcs s with Some l => heap s !! l | None => None end.

(** Every callback of the list returns a dictionary. *)
Definition returns_dicts {F} (call : F -> pyval) (fs : list F) : Prop :=
  Forall (fun f => exists d, call f = VDict d) fs.

(** The sets of [sets] are inactive on this process, or their functional
    callbacks all return dictionaries at [x]. *)
Definition sets_return_dicts (flags : dict bool) (x : pyval) (sets : dict procSet.t) : Prop :=
  Forall (fun kq => exists b, dict_get flags (fst kq) = Some b /\
                      (b = true ->
                       returns_dicts (fun g : objCallback => g x) (procSet.objFunc (snd kq))))
         sets.

(** Two more callbacks: one returns the empty dictionary, one falls off
    its end. *)
Definition empty_obj : objCallback := fun _ => VDict [].
Definition forgetful_obj : objCallback := fun _ => VNone.

Definition empty_first_sample : multiPointSparse :=
  final ((sample_setup empty_obj sample_sens sample_optProb ;;
          addProcSetObjFunc "point" sample_obj) (init (Comm 0 1))).

Definition forgetful_sample : multiPointSparse :=
  final ((sample_setup sample_obj sample_sens sample_optProb ;;
          addProcSetObjFunc "point" forgetful_obj) (init (Comm 0 1))).

(** The process is in no active set: it has no set at all, or the flag of
    every set it has is False. *)
Definition no_active_set (s : multiPointSparse) : Prop :=
  pSet s = [] \/
  exists flags, setFlags s = Some flags /\
                Forall (fun kp => dict_get flags (fst kp) = Some false) (pSet s).

(** The keys of the pattern that come before the first one rank [me] owns. *)
Fixpoint before_own (me : nat) (commPattern : dict nat) : dict nat :=
  match commPattern with
  | [] => []
  | kr :: rest => if Nat.eqb (snd kr) me then [] else kr :: before_own me rest
  end.

(** A job of two processes and two sets of one process each: the set
    'first', on rank 0, produces a = 3; the set 'second', on rank 1,
    produces b = 4.  Seen from rank 1: what rank 0 contributes. *)
Definition first_obj : objCallback := fun _ => VDict [("a", VFloat 3)].
Definition second_obj : objCallback := fun _ => VDict [("b", VFloat 4)].
Definition first_sens : sensCallback :=
  fun _ _ _ => VDict [("a", VDict [("x", VArray [1; 0]%float)])].
Definition second_sens : sensCallback :=
  fun _ _ _ => VDict [("b", VDict [("x", VArray [0; 1]%float)])].

Definition from_rank0 : peers :=
  {| peer_keys := fun _ => ["a"; "fail"];
     peer_bcast := fun _ tag =>
       match tag with
       | TagKey _ => VFloat 3
       | TagObj => VFloat 7
       | TagCon => VDict [("c", VFloat 12)]
       | TagFail => VBool false
       | _ => VNone
       end;
     peer_fail := false |}.

(** Rank 1 evaluates once, then declares 'second' again with no member,
    which makes the name a dummy, and creates the communicators again. *)
Definition retired_sample : multiPointSparse :=
  final ((addProcessorSet "first" 1 (SizeInt 1) ;;
          addProcessorSet "second" 1 (SizeInt 1) ;;
          createCommunicators ;;
          setProcSetObjFunc "first" first_obj ;;
          setProcSetObjFunc "second" second_obj ;;
          setProcSetSensFunc "first" first_sens ;;
          setProcSetSensFunc "second" second_sens ;;
          setObjCon objCon_sum_product ;;
          setOptProb sample_optProb ;;
          obj from_rank0 VNone ;;
          addProcessorSet "second" 0 (SizeInt 1) ;;
          createCommunicators) (init (Comm 1 2))).

(** Every declared set is a dummy. *)
Definition all_dummy_sample : multiPointSparse :=
  final (addProcessorSet "off" 0 (SizeInt 4) (init (Comm 0 1))).

(** A computation that leaves the object as it was; one that makes no
    observable call. *)
Definition pure_state {St A} (m : M St A) : Prop := forall s, final (m s) = s.
Definition silent {St A} (m : M St A) : Prop := forall s, trace (m s) = [].

(** The first rank, counted from [a], whose key list holds [key]. *)
Fixpoint first_owner (key : string) (allKeys : list (list string)) (a : nat) : option nat :=
  match allKeys with
  | [] => None
  | ks :: rest => if bool_decide (key ∈ ks) then Some a else first_owner key rest (S a)
  end.

(** A computation that leaves [self.commPattern] as it was. *)
Definition keeps_pattern {A} (m : M multiPointSparse A) : Prop :=
  forall s, commPattern (final (m s)) = commPattern s.

(** The object after declarations under the names [used]: the sets are
    well formed, and no name is both a set and a dummy. *)
Definition declared (used : list string) (mp : multiPointSparse) : Prop :=
  wf_pSet (pSet mp) /\
  (forall k, k ∈ dict_keys (pSet mp) -> k ∈ used) /\
  (forall k, k ∈ dummyPSet mp -> k ∈ used) /\
  (forall k, k ∈ dummyPSet mp -> k ∉ dict_keys (pSet mp)).

(** * Further vocabulary

    What the statements about the rest of the code are made of. *)

(** ** Declarations *)

(** The sizes a call stores: [nMembers] copies of a single size, or the
    sequence as given. *)
Definition stored_sizes (nMembers : Z) (memberSizes : sizesArg) : list Z :=
  match atleast_1d memberSizes with
  | [n] => replicate (Z.to_nat nMembers) n
  | l => l
  end.

(** What every stored set has, whatever was declared. *)
Definition sound_procSet (k : string) (p : procSet.t) : Prop :=
  procSet.setName p = k /\ 1 <= procSet.nMembers p /\
  Z.of_nat (length (procSet.memberSizes p)) = procSet.nMembers p /\
  procSet.nProc p = sum_list_Z (procSet.memberSizes p) /\
  procSet.objFunc p = [] /\ procSet.sensFunc p = [] /\
  procSet.gcomm p = None /\ procSet.comm_ p = None.

Definition sound_pSet (s : multiPointSparse) : Prop :=
  NoDup (dict_keys (pSet s)) /\
  forall k p, dict_get (pSet s) k = Some p -> sound_procSet k p.

(** The offsets [createCommunicators] stores in [self.pSetRoot]
    (lines 333-335). *)
Definition roots_of (cumSets : list Z) (ps : dict procSet.t) : dict Z :=
  fold_left (fun root kp => dict_set root (fst kp) (cumSets !!! procSet.setID (snd kp))) ps [].


(** ** createDirectories (lines 339-385)

    The method leaves the object as it is.  Besides returning, it runs
    shell commands, on the global root only: it is embedded as the pair of
    the commands passed to [os.system], in the order of the calls, and the
    returned value, [None] when no set is declared. *)

(** [ptDirs[key].append(dirName)] *)
Definition dict_append (ptDirs : dict (list string)) (key dirName : string)
  : dict (list string) :=
  match dict_get ptDirs key with
  | Some l => dict_set ptDirs key (l ++ [dirName])
  | None => ptDirs
  end.

Definition createDirectories (rootDir : string) (self : multiPointSparse)
  : list string * option (dict (list string)) :=
  if Nat.eqb (length (pSet self)) 0 then ([], None)
  else
    let done :=
      fold_left (fun acc kp =>
          let key := fst kp in
          fold_left (fun acc i =>
              let dirName := rootDir +:+ "/" +:+ procSet.setName (snd kp) +:+ "_"
                             +:+ fmt_d (Z.of_nat i) in
              let ptDirs := dict_append (snd acc) key dirName in
              if Nat.eqb (rank (gcomm self)) 0
              then (fst acc ++ ["mkdir -p " +:+ dirName], ptDirs)
              else (fst acc, ptDirs))
            (seq 0 (Z.to_nat (procSet.nMembers (snd kp))))
            (fst acc, dict_set (snd acc) key []))
        (pSet self) ([], []) in
    (fst done, Some (snd done)).

(** The directories of the members of one set, in the order of the
    members. *)
Definition member_dirs (rootDir : string) (p : procSet.t) : list string :=
  map (fun i => rootDir +:+ "/" +:+ procSet.setName p +:+ "_" +:+ fmt_d (Z.of_nat i))
      (seq 0 (Z.to_nat (procSet.nMembers p))).

Fixpoint has_char (c : ascii) (s : string) : bool :=
  match s with
  | EmptyString => false
  | String c' s' => Ascii.eqb c' c || has_char c s'
  end.

(** ** What the evaluations leave as it is *)

(** [m] takes every object to one that is [R]-related to it, whether it
    returns or raises. *)
Definition preserves {A} (R : multiPointSparse -> multiPointSparse -> Prop)
    (m : M multiPointSparse A) : Prop :=
  forall s, R s (final (m s)).

(** The setup of the problem: what the declarations, createCommunicators
    and the setters made.  [obj] adds dictionaries to the store and writes
    into none that is there. *)
Definition same_setup (s s' : multiPointSparse) : Prop :=
  gcomm s' = gcomm s /\ pSet s' = pSet s /\ dummyPSet s' = dummyPSet s /\
  pSetRoot s' = pSetRoot s /\ setFlags s' = setFlags s /\ optProb s' = optProb s /\
  userObjCon s' = userObjCon s /\ conKeys s' = conKeys s /\
  heap s `prefix_of` heap s'.

(** Everything but the contents of the stored dictionaries. *)
Definition same_but_values (s s' : multiPointSparse) : Prop :=
  gcomm s' = gcomm s /\ pSet s' = pSet s /\ dummyPSet s' = dummyPSet s /\
  pSetRoot s' = pSetRoot s /\ setFlags s' = setFlags s /\ optProb s' = optProb s /\
  userObjCon s' = userObjCon s /\ conKeys s' = conKeys s /\
  commPattern s' = commPattern s /\ funcs s' = funcs s /\
  inputKeys s' = inputKeys s /\ outputKeys s' = outputKeys s /\
  passThroughKeys s' = passThroughKeys s /\
  length (heap s') = length (heap s).

(** ** What _complexifyFuncs makes of a dictionary *)

(** A value [numpy.array(v).astype('D')] accepts. *)
Definition is_vector (v : pyval) : bool :=
  match v with VArray _ | VCArray _ => true | _ => false end.

(** The value under a key of [keys] after the conversion: a vector is a
    complex array, a scalar is left alone. *)
Definition widened (v : pyval) : pyval :=
  match v with
  | VArray a => VCArray (map (fun x => (x, 0%float)) a)
  | _ => v
  end.

Definition complexified (keys : list string) (d : dict pyval) : dict pyval :=
  map (fun kv => if bool_decide (fst kv ∈ keys) then (fst kv, widened (snd kv)) else kv) d.

(** ** What the callbacks of one set leave in [res] *)

(** The value the last of the dictionaries [ds] that hold [k] gives it. *)
Definition last_value (ds : list (dict pyval)) (k : string) : option pyval :=
  fold_left (fun found tmp => match dict_get tmp k with Some v => Some v | None => found end)
            ds None.

(** ** class MPError (lines 36-53): the text the constructor prints

    [MPError_text] is [msg], the string the constructor builds and hands
    to [print].  The exception is then made by [Exception.__init__(self)],
    without the message: the message is in the printed text only. *)




Definition dashes (n : nat) : string := string_of_list_ascii (repeat "-"%char n).



(** The top and bottom line of the box. *)
Definition border : string := "+" +:+ dashes 78 +:+ "+".








(** ** The shapes of the gradients sens assembles *)

(** [ndvs] of a design-variable set, from [dvOffset[dvSet]['n']]. *)
Definition ndvs_spec (op : Optimization) (dvSet : string) : option nat :=
  match dict_get (dvOffset op) dvSet with
  | Some ss => if snd ss - fst ss <? 0 then None else Some (Z.to_nat (snd ss - fst ss))
  | None => None
  end.

Definition is_vector_of (n : nat) (v : pyval) : Prop :=
  exists a, v = VArray a /\ length a = n.

Definition is_matrix_of (rows cols : nat) (v : pyval) : Prop :=
  exists m, v = VMatrix m /\ length m = rows /\ Forall (fun row => length row = cols) m.

(** A dictionary with an entry per design-variable set of [dvSets], each
    of the shape [good] asks for its [ndvs]. *)
Definition by_dvSet (op : Optimization) (good : nat -> pyval -> Prop)
    (dvSets : list string) (d : dict pyval) : Prop :=
  (forall dv, dv ∈ dict_keys d <-> dv ∈ dvSets) /\
  forall dv v, dict_get d dv = Some v -> exists n, ndvs_spec op dv = Some n /\ good n v.

(** gobj: one vector per design-variable set of the problem. *)
Definition gobj_shape (op : Optimization) (gobj : dict pyval) : Prop :=
  by_dvSet op is_vector_of (variables op) gobj.

(** gcon[oKey] for an output key: one block per design-variable set the
    constraint depends on, of ncon rows and ndvs columns. *)
Definition blocks_shape (op : Optimization) (oKey : string) (v : pyval) : Prop :=
  exists con blocks,
    dict_get (constraints op) oKey = Some con /\ v = VDict blocks /\
    by_dvSet op (is_matrix_of (ncon con)) (wrt con) blocks.

(** gcon: an entry per pass-through key and per output key, those of the
    output keys as [blocks_shape] has them. *)
Definition gcon_shape (op : Optimization) (passKeys outKeys : gset string)
    (gcon : dict pyval) : Prop :=
  (forall k, k ∈ dict_keys gcon <-> k ∈ passKeys \/ k ∈ outKeys) /\
  forall oKey, oKey ∈ outKeys ->
    exists v, dict_get gcon oKey = Some v /\ blocks_shape op oKey v.

(** When [m] returns from an object that satisfies [P], the object still
    satisfies [P] and the result satisfies [Q]. *)
Definition triple {A} (P : multiPointSparse -> Prop) (m : M multiPointSparse A)
    (Q : A -> Prop) : Prop :=
  forall s s' tr a, P s -> m s = (s', tr, inr a) -> P s' /\ Q a.

(** What sens reads of the object while it assembles the gradients. *)
Definition assembling (op : Optimization) (passKeys outKeys : gset string)
    (s : multiPointSparse) : Prop :=
  optProb s = Some op /\ passThroughKeys s = Some passKeys /\ outputKeys s = Some outKeys /\
  rank (gcomm s) = 0%nat.

(** The two gradients, as the loop over the input keys carries them. *)
Definition both_shapes (op : Optimization) (passKeys outKeys : gset string)
    (g : dict pyval * dict pyval) : Prop :=
  gobj_shape op (fst g) /\ gcon_shape op passKeys outKeys (snd g).

(** * Proofs *)

(** ** Running the monad *)

Lemma with_trace_nil {St A} (r : St * list event * (exn + A)) : with_trace [] r = r.
Proof. now destruct r as [[s t] o]. Qed.

Lemma with_trace_app {St A} t1 t2 (r : St * list event * (exn + A)) :
  with_trace t1 (with_trace t2 r) = with_trace (t1 ++ t2) r.
Proof.
  destruct r as [[s t] o]. unfold with_trace, final, trace, outcome. simpl.
  now rewrite app_assoc.
Qed.

Lemma bind_inr {St A B} (m : M St A) (k : A -> M St B) s s1 t1 a :
  m s = (s1, t1, inr a) -> bind m k s = with_trace t1 (k a s1).
Proof.
  intros H. unfold bind. rewrite H.
  destruct (k a s1) as [[s2 t2] r]. reflexivity.
Qed.

Lemma bind_inl {St A B} (m : M St A) (k : A -> M St B) s s1 t1 e :
  m s = (s1, t1, inl e) -> bind m k s = (s1, t1, inl e).
Proof. intros H. unfold bind. now rewrite H. Qed.

Lemma run_eta {St A} (r : St * list event * (exn + A)) :
  r = (final r, trace r, outcome r).
Proof. now destruct r as [[s t] o]. Qed.

Lemma bind_ret {St A B} (a : A) (k : A -> M St B) s : bind (ret a) k s = k a s.
Proof. rewrite (bind_inr _ _ s s [] a) by reflexivity. apply with_trace_nil. Qed.

Lemma bind_get {St B} (k : St -> M St B) s : bind get k s = k s s.
Proof. rewrite (bind_inr _ _ s s [] s) by reflexivity. apply with_trace_nil. Qed.

Lemma bind_put {St B} (s' : St) (k : unit -> M St B) s : bind (put s') k s = k tt s'.
Proof. rewrite (bind_inr _ _ s s' [] tt) by reflexivity. apply with_trace_nil. Qed.

Lemma bind_modify {St B} (f : St -> St) (k : unit -> M St B) s :
  bind (modify f) k s = k tt (f s).
Proof. rewrite (bind_inr _ _ s (f s) [] tt) by reflexivity. apply with_trace_nil. Qed.

Lemma bind_emit {St B} (e : event) (k : unit -> M St B) s :
  bind (emit e) k s = with_trace [e] (k tt s).
Proof. now rewrite (bind_inr _ _ s s [e] tt). Qed.

Lemma bind_raise {St A B} (e : exn) (k : A -> M St B) s :
  bind (raise e) k s = (s, [], inl e).
Proof. reflexivity. Qed.

Lemma bind_bind {St A B C} (m : M St A) (f : A -> M St B) (g : B -> M St C) s :
  bind (bind m f) g s = bind m (fun a => bind (f a) g) s.
Proof.
  unfold bind. destruct (m s) as [[s1 t1] [e|a]]; [reflexivity|].
  destruct (f a s1) as [[s2 t2] [e|b]]; [reflexivity|].
  destruct (g b s2) as [[s3 t3] r]. now rewrite app_assoc.
Qed.

Ltac mstep :=
  first [ rewrite bind_ret | rewrite bind_get | rewrite bind_put | rewrite bind_modify
        | rewrite bind_emit | rewrite bind_raise ].
Ltac msimpl :=
  repeat (progress (repeat mstep; cbn [unwrap with_trace final trace outcome fst snd app])).

(** ** Dictionaries *)

Section DictFacts.
Context {V : Type}.
Implicit Types (d : dict V) (k : string) (v : V).

Lemma dict_get_set_eq d k v : dict_get (dict_set d k v) k = Some v.
Proof.
  induction d as [|[k' v'] d IH]; simpl.
  - now rewrite String.eqb_refl.
  - destruct (String.eqb k' k) eqn:E; simpl; rewrite E; auto.
Qed.

Lemma dict_get_set_ne d k k' v : k <> k' -> dict_get (dict_set d k v) k' = dict_get d k'.
Proof.
  intros Hne. induction d as [|[k0 v0] d IH]; simpl.
  - destruct (String.eqb k k') eqn:E; auto. apply String.eqb_eq in E. contradiction.
  - destruct (String.eqb k0 k) eqn:E; simpl.
    + apply String.eqb_eq in E. subst k0.
      destruct (String.eqb k k') eqn:E'; auto.
      apply String.eqb_eq in E'. contradiction.
    + now rewrite IH.
Qed.

Lemma dict_get_None d k : dict_get d k = None <-> k ∉ dict_keys d.
Proof.
  induction d as [|[k' v'] d IH]; simpl.
  - split; [intros _; apply not_elem_of_nil | auto].
  - rewrite not_elem_of_cons. destruct (String.eqb k' k) eqn:E.
    + apply String.eqb_eq in E. split; [discriminate | intros [H _]; congruence].
    + apply String.eqb_neq in E. rewrite IH. split; [intros H; split; congruence | tauto].
Qed.

Lemma dict_set_fresh d k v : k ∉ dict_keys d -> dict_set d k v = d ++ [(k, v)].
Proof.
  induction d as [|[k' v'] d IH]; simpl; intros H; auto.
  apply not_elem_of_cons in H as [Hne H].
  destruct (String.eqb k' k) eqn:E.
  - apply String.eqb_eq in E. congruence.
  - now rewrite IH.
Qed.

Lemma dict_keys_set d k v :
  dict_keys (dict_set d k v) = if dict_mem d k then dict_keys d else dict_keys d ++ [k].
Proof.
  unfold dict_mem.
  induction d as [|[k' v'] d IH]; simpl; auto.
  destruct (String.eqb k' k) eqn:E; simpl; auto.
  rewrite IH. now destruct (dict_get d k).
Qed.

Lemma dict_set_set d k v v' : dict_set (dict_set d k v) k v' = dict_set d k v'.
Proof.
  induction d as [|[k0 v0] d IH]; simpl.
  - now rewrite String.eqb_refl.
  - destruct (String.eqb k0 k) eqn:E; simpl; rewrite E; [reflexivity | now rewrite IH].
Qed.

Lemma dict_get_lookup d i k v :
  NoDup (dict_keys d) -> d !! i = Some (k, v) -> dict_get d k = Some v.
Proof.
  revert i. induction d as [|[k' v'] d IH]; intros i Hnd Hi; [done|].
  simpl in Hnd. apply NoDup_cons in Hnd as [Hk' Hnd].
  destruct i as [|i]; simpl in *.
  - injection Hi as -> ->. now rewrite String.eqb_refl.
  - destruct (String.eqb k' k) eqn:E.
    + apply String.eqb_eq in E. subst k'. exfalso. apply Hk'.
      apply list_elem_of_lookup. exists i. unfold dict_keys.
      now rewrite list_lookup_fmap, Hi.
    + eauto.
Qed.

End DictFacts.

(** ** C9 and C5: the two explicit checks *)

Example length_mismatch_text :
  length_mismatch = "The suppliled memberSizes list is not      the correct length.".
Proof. reflexivity. Qed.

(** C9. addProcessorSet with nMembers >= 1 and a memberSizes sequence whose
    length is neither 1 nor nMembers raises MPError with the length-mismatch
    message; the object is left exactly as it was (no set is registered, no
    dummy either, the list is neither truncated nor padded). *)
Theorem addProcessorSet_length_mismatch
    (self : multiPointSparse) (setName : string) (nMembers : Z) (memberSizes : sizesArg) :
  1 <= nMembers ->
  length (atleast_1d memberSizes) <> 1%nat ->
  Z.of_nat (length (atleast_1d memberSizes)) <> nMembers ->
  addProcessorSet setName nMembers memberSizes self
  = (self, [], inl (MPError length_mismatch)).
Proof.
  intros Hn H1 Hlen. unfold addProcessorSet.
  destruct (Z.eqb_spec nMembers 0) as [->|_]; [lia|].
  destruct (Nat.eqb_spec (length (atleast_1d memberSizes)) 1) as [E|_]; [contradiction|].
  destruct (Z.eqb_spec (Z.of_nat (length (atleast_1d memberSizes))) nMembers) as [E|_];
    [contradiction|].
  reflexivity.
Qed.

Lemma addProcessorSet_length_mismatch_witness :
  addProcessorSet "maneuver" 3 (SizeSeq [10; 20]) (init (Comm 0 30))
  = (init (Comm 0 30), [], inl (MPError length_mismatch)).
Proof.
  apply (addProcessorSet_length_mismatch (init (Comm 0 30)) "maneuver" 3 (SizeSeq [10; 20]));
    simpl; lia.
Defined.

(** C5. createCommunicators raises MPError, with the required processor
    count in its message, whenever the processor counts of the registered
    sets do not add up to the size of the global communicator; createGroups
    raises MPError with both counts in its message when comm.size differs
    from sum(sizes).  In both the trace is empty -- no Split was made -- and
    the object is unchanged. *)
Theorem size_mismatch_raises :
  (forall self : multiPointSparse,
      totalProcs (pSet self) <> Z.of_nat (size (gcomm self)) ->
      createCommunicators self
      = (self, [],
         inl (MPError ("multiPointSparse must be called with EXACTLY "
                       +:+ fmt_d (totalProcs (pSet self)) +:+ " processors.")))) /\
  (forall (sizes : list Z) (c : comm),
      Z.of_nat (size c) <> sum_list_Z sizes ->
      createGroups sizes c tt
      = (tt, [],
         inl (MPError ("Cannot split comm. Comm has " +:+ fmt_d (Z.of_nat (size c))
                       +:+ " processors, but        requesting to split into "
                       +:+ fmt_d (sum_list_Z sizes) +:+ ".")))).
Proof.
  split.
  - intros self H. unfold createCommunicators, bind, get.
    destruct (Z.ltb_spec (totalProcs (pSet self)) (Z.of_nat (size (gcomm self))));
      destruct (Z.gtb_spec (totalProcs (pSet self)) (Z.of_nat (size (gcomm self))));
      simpl; try reflexivity; lia.
  - intros sizes c H. unfold createGroups.
    destruct (Z.eqb_spec (Z.of_nat (size c)) (sum_list_Z sizes)); [contradiction|].
    reflexivity.
Qed.

Lemma size_mismatch_raises_witness :
  outcome (createCommunicators
             (final (addProcessorSet "cruise" 1 (SizeInt 7) (init (Comm 3 10)))))
  = inl (MPError "multiPointSparse must be called with EXACTLY 7 processors.") /\
  createGroups [7] (Comm 3 10) tt
  = (tt, [], inl (MPError
       "Cannot split comm. Comm has 10 processors, but        requesting to split into 7.")).
Proof.
  split.
  - rewrite (proj1 size_mismatch_raises) by (vm_compute; discriminate).
    reflexivity.
  - exact (proj2 size_mismatch_raises [7] (Comm 3 10) ltac:(vm_compute; discriminate)).
Defined.

(** ** Prefix sums and the cumulative array *)

Lemma fold_add_acc (l : list Z) (a : Z) : fold_left Z.add l a = a + sum_list_Z l.
Proof.
  unfold sum_list_Z. revert a.
  induction l as [|x l IH]; intros a; simpl; [lia|].
  rewrite (IH (a + x)), (IH (0 + x)). lia.
Qed.

Lemma sum_list_Z_cons x l : sum_list_Z (x :: l) = x + sum_list_Z l.
Proof. unfold sum_list_Z at 1. simpl. apply fold_add_acc. Qed.

Lemma sum_list_Z_snoc l x : sum_list_Z (l ++ [x]) = sum_list_Z l + x.
Proof. unfold sum_list_Z. rewrite fold_left_app. reflexivity. Qed.

Lemma sum_list_Z_nonneg l : Forall (fun z => 0 <= z) l -> 0 <= sum_list_Z l.
Proof.
  induction 1 as [|x l Hx _ IH]; [reflexivity|].
  rewrite sum_list_Z_cons. lia.
Qed.

Lemma sum_list_Z_replicate n z : sum_list_Z (replicate n z) = Z.of_nat n * z.
Proof.
  induction n as [|n IH]; [reflexivity|].
  simpl replicate. rewrite sum_list_Z_cons, IH. lia.
Qed.

Lemma psum_0 sizes : psum sizes 0 = 0.
Proof. reflexivity. Qed.

Lemma psum_S sizes i :
  (i < length sizes)%nat -> psum sizes (S i) = psum sizes i + sizes !!! i.
Proof.
  intros Hi. unfold psum.
  destruct (lookup_lt_is_Some_2 sizes i Hi) as [x Hx].
  rewrite (take_S_r _ _ _ Hx), sum_list_Z_snoc.
  now rewrite (list_lookup_total_correct _ _ _ Hx).
Qed.

Lemma psum_all sizes i : (length sizes <= i)%nat -> psum sizes i = sum_list_Z sizes.
Proof. intros H. unfold psum. now rewrite take_ge. Qed.

Lemma psum_mono sizes i j :
  Forall (fun z => 0 <= z) sizes -> (i <= j)%nat -> psum sizes i <= psum sizes j.
Proof.
  intros Hpos Hij. induction Hij as [|j Hij IH]; [lia|].
  destruct (Nat.lt_ge_cases j (length sizes)) as [Hj|Hj].
  - rewrite psum_S by done.
    destruct (lookup_lt_is_Some_2 sizes j Hj) as [x Hx].
    rewrite (list_lookup_total_correct _ _ _ Hx).
    pose proof (proj1 (Forall_lookup _ _) Hpos j x Hx). simpl in *. lia.
  - rewrite (psum_all sizes (S j)) by lia. now rewrite (psum_all sizes j) in IH by lia.
Qed.

Lemma psum_nonneg sizes i : Forall (fun z => 0 <= z) sizes -> 0 <= psum sizes i.
Proof. intros H. rewrite <- (psum_0 sizes). apply psum_mono; [done | lia]. Qed.

Lemma psum_le_total sizes i :
  Forall (fun z => 0 <= z) sizes -> psum sizes i <= sum_list_Z sizes.
Proof.
  intros H. rewrite <- (psum_all sizes (max i (length sizes))) by lia.
  apply psum_mono; [done | lia].
Qed.

Lemma intc_small z : - 2 ^ 31 <= z < 2 ^ 31 -> intc z = z.
Proof. intros H. unfold intc. rewrite Z.mod_small; lia. Qed.

(** The loop of [cumulative] after its first [k] rounds. *)
Lemma cumulative_prefix cast n sizes k :
  (n <= length sizes)%nat ->
  (forall i, (i <= n)%nat -> cast (psum sizes i) = psum sizes i) ->
  (k <= n)%nat ->
  let cum := fold_left (fun cum i => <[S i := cast (cum !!! i + sizes !!! i)]> cum)
                       (seq 0 k) (replicate (S n) 0) in
  length cum = S n /\ forall i, (i <= k)%nat -> cum !! i = Some (psum sizes i).
Proof.
  intros Hn Hcast. induction k as [|k IH]; intros Hk.
  - simpl. split; [now rewrite length_replicate|].
    intros i Hi. assert (i = 0%nat) as -> by lia. reflexivity.
  - rewrite seq_S, fold_left_app. simpl.
    destruct IH as [Hlen IH]; [lia|].
    set (cum := fold_left _ (seq 0 k) _) in *.
    split; [now rewrite length_insert|].
    intros i Hi. destruct (decide (i = S k)) as [->|Hne].
    + rewrite list_lookup_insert_eq by lia.
      rewrite (list_lookup_total_correct _ _ _ (IH k (Nat.le_refl k))).
      rewrite <- psum_S by lia. now rewrite Hcast by lia.
    + rewrite list_lookup_insert_ne by lia. apply IH. lia.
Qed.

Lemma cumulative_lookup cast n sizes i :
  (n <= length sizes)%nat ->
  (forall i, (i <= n)%nat -> cast (psum sizes i) = psum sizes i) ->
  (i <= n)%nat ->
  cumulative cast n sizes !!! i = psum sizes i.
Proof.
  intros Hn Hcast Hi. apply list_lookup_total_correct.
  now apply (cumulative_prefix cast n sizes n Hn Hcast (Nat.le_refl n)).
Qed.

(** With sizes that are processor counts adding up to less than 2^31, no
    store into the ['intc'] array wraps. *)
Lemma cumulative_intc n sizes i :
  (n <= length sizes)%nat -> Forall (fun z => 0 <= z) sizes ->
  sum_list_Z sizes < 2 ^ 31 -> (i <= n)%nat ->
  cumulative intc n sizes !!! i = psum sizes i.
Proof.
  intros Hn Hpos Hsum Hi. apply cumulative_lookup; try done.
  intros j _. apply intc_small.
  pose proof (psum_nonneg sizes j Hpos). pose proof (psum_le_total sizes j Hpos). lia.
Qed.

(** ** Interval membership: one interval and only one *)

Lemma interval_exists sizes (r : nat) :
  Z.of_nat r < sum_list_Z sizes ->
  exists i, (i < length sizes)%nat /\ in_psum sizes i r.
Proof.
  intros Hr. unfold in_psum.
  assert (forall n, Z.of_nat r < psum sizes n ->
                    exists i, (i < n)%nat /\ psum sizes i <= Z.of_nat r < psum sizes (S i)) as H.
  { induction n as [|n IH]; intros Hn.
    - rewrite psum_0 in Hn. lia.
    - destruct (Z.le_gt_cases (psum sizes n) (Z.of_nat r)) as [Hle|Hgt].
      + exists n. split; [lia | done].
      + destruct (IH Hgt) as (i & Hi & Hin). exists i. split; [lia | done]. }
  apply H. now rewrite psum_all.
Qed.

Lemma interval_unique sizes (r i j : nat) :
  Forall (fun z => 0 <= z) sizes -> in_psum sizes i r -> in_psum sizes j r -> i = j.
Proof.
  intros Hpos [Hi1 Hi2] [Hj1 Hj2].
  destruct (Nat.lt_trichotomy i j) as [H|[H|H]]; [|done|].
  - pose proof (psum_mono sizes (S i) j Hpos ltac:(lia)). lia.
  - pose proof (psum_mono sizes (S j) i Hpos ltac:(lia)). lia.
Qed.

Lemma in_interval_spec cum i r :
  in_interval cum i r = true <-> cum !!! i <= Z.of_nat r < cum !!! (S i).
Proof. unfold in_interval. rewrite andb_true_iff, Z.leb_le, Z.ltb_lt. tauto. Qed.

Lemma last_match_Some cum n r i :
  last_match cum n r = Some i -> (i < n)%nat /\ in_interval cum i r = true.
Proof.
  unfold last_match. induction n as [|n IH]; [discriminate|].
  rewrite seq_S, fold_left_app. simpl.
  destruct (in_interval cum n r) eqn:E.
  - intros [= <-]. split; [lia | done].
  - intros H. destruct (IH H). split; [lia | done].
Qed.

Lemma last_match_unique cum n r i :
  (i < n)%nat -> in_interval cum i r = true ->
  (forall j, (j < n)%nat -> in_interval cum j r = true -> j = i) ->
  last_match cum n r = Some i.
Proof.
  unfold last_match. induction n as [|n IH]; intros Hi Hin Huniq; [lia|].
  rewrite seq_S, fold_left_app. simpl.
  destruct (in_interval cum n r) eqn:E.
  - f_equal. apply Huniq; [lia | done].
  - apply IH; [|done|intros j Hj; apply Huniq; lia].
    destruct (decide (i = n)) as [->|]; [congruence | lia].
Qed.

(** On a cumulative array of processor counts, the loop finds the one
    interval that holds the rank. *)
Lemma last_match_psum cum sizes n r i :
  n = length sizes -> Forall (fun z => 0 <= z) sizes ->
  (forall j, (j <= n)%nat -> cum !!! j = psum sizes j) ->
  (i < n)%nat -> in_psum sizes i r ->
  last_match cum n r = Some i.
Proof.
  intros -> Hpos Hcum Hi Hin. apply last_match_unique; [done| |].
  - apply in_interval_spec. rewrite !Hcum by lia. exact Hin.
  - intros j Hj Hj'. apply in_interval_spec in Hj'. rewrite !Hcum in Hj' by lia.
    exact (interval_unique sizes r j i Hpos Hj' Hin).
Qed.

(** How many ranks below [m] lie in [[a, b)]. *)
Lemma count_in_range (a b m : nat) :
  (a <= b)%nat ->
  length (List.filter (fun r => Nat.leb a r && Nat.ltb r b) (seq 0 m))
  = (Nat.min m b - Nat.min m a)%nat.
Proof.
  intros Hab. induction m as [|m IH]; [reflexivity|].
  rewrite seq_S, List.filter_app, length_app, IH.
  cbn [List.filter Nat.add].
  destruct (Nat.leb_spec a m); destruct (Nat.ltb_spec m b); cbn [andb length]; lia.
Qed.

(** ** The loops of createCommunicators on well-formed sets *)

Lemma wf_pSet_app ps qs : wf_pSet (ps ++ qs) -> wf_pSet ps.
Proof.
  intros [Hnd Hwf]. split.
  - unfold dict_keys in *. rewrite map_app in Hnd. now apply NoDup_app in Hnd.
  - intros i k p Hi. apply Hwf. now apply lookup_app_l_Some.
Qed.

Lemma wf_pSet_last ps k p :
  wf_pSet (ps ++ [(k, p)]) -> wf_procSet (length ps) k p /\ k ∉ dict_keys ps.
Proof.
  intros [Hnd Hwf]. split.
  - apply Hwf. now apply list_lookup_middle.
  - unfold dict_keys in *. rewrite map_app in Hnd. apply NoDup_app in Hnd as (_ & Hdisj & _).
    intros Hk. apply (Hdisj k Hk). simpl. apply list_elem_of_here.
Qed.

Lemma flag_sets_wf ps cum r :
  wf_pSet ps ->
  flag_sets ps cum r
  = (last_match cum (length ps) r,
     map (fun kp => (fst kp, in_interval cum (procSet.setID (snd kp)) r)) ps).
Proof.
  induction ps as [|[k p] ps IH] using rev_ind; intros Hwf; [reflexivity|].
  destruct (wf_pSet_last _ _ _ Hwf) as [(Hname & Hid & _) Hfresh].
  unfold flag_sets, last_match in *.
  rewrite fold_left_app, (IH (wf_pSet_app _ _ Hwf)).
  rewrite length_app, Nat.add_1_r, seq_S, fold_left_app, map_app.
  cbn [fold_left fst snd map Nat.add]. rewrite Hname, Hid.
  assert (k ∉ dict_keys (map (fun kp : string * procSet.t =>
            (fst kp, in_interval cum (procSet.setID (snd kp)) r)) ps)) as Hfresh'.
  { unfold dict_keys in *. now rewrite map_map. }
  destruct (in_interval cum (length ps) r); now rewrite dict_set_fresh.
Qed.

Lemma flag_lookup ps cum r i k p :
  wf_pSet ps -> ps !! i = Some (k, p) ->
  dict_get (snd (flag_sets ps cum r)) k = Some (in_interval cum i r).
Proof.
  intros Hwf Hi. rewrite flag_sets_wf by done. cbn [snd].
  destruct Hwf as [Hnd Hwf]. destruct (Hwf i k p Hi) as (_ & Hid & _).
  apply (dict_get_lookup _ i).
  - unfold dict_keys in *. now rewrite map_map.
  - change (map ?f ps) with (f <$> ps). rewrite list_lookup_fmap, Hi. simpl. now rewrite Hid.
Qed.

Lemma flag_keys ps cum r :
  wf_pSet ps -> dict_keys (snd (flag_sets ps cum r)) = dict_keys ps.
Proof.
  intros Hwf. rewrite flag_sets_wf by done. unfold dict_keys. cbn [snd].
  now rewrite map_map.
Qed.

(** Lines 292-295 fill the array with the processor counts in the order of
    the sets. *)
Lemma fill_setSizes_wf {St} ps (s : St) :
  wf_pSet ps -> fill_setSizes ps s = (s, [], inr (setSizes_of ps)).
Proof.
  intros [_ Hwf]. unfold fill_setSizes, setSizes_of.
  assert (forall post pre,
            ps = pre ++ post ->
            foldM (fun setSizes kp =>
                     let p : procSet.t := snd kp in
                     if Nat.ltb (procSet.setID p) (length setSizes)
                     then ret (<[procSet.setID p := procSet.nProc p]> setSizes)
                     else raise IndexError)
                  post (map (fun kp => procSet.nProc (snd kp)) pre
                        ++ replicate (length post) 0) s
            = (s, [], inr (map (fun kp : string * procSet.t => procSet.nProc (snd kp)) ps))) as H.
  { induction post as [|[k p] post IH]; intros pre Hps.
    - simpl. rewrite !app_nil_r in *. now subst.
    - cbn [foldM snd].
      destruct (Hwf (length pre) k p) as (_ & Hid & _).
      { subst ps. now apply list_lookup_middle. }
      rewrite Hid.
      match goal with |- context [Nat.ltb ?a ?b] => assert (Nat.ltb a b = true) as E end.
      { apply Nat.ltb_lt. rewrite length_app, length_map, length_replicate. simpl. lia. }
      rewrite E. msimpl. cbn [replicate].
      replace (<[length pre:=procSet.nProc p]>
                 (map (fun kp => procSet.nProc (snd kp)) pre ++ 0 :: replicate (length post) 0))
        with (map (fun kp : string * procSet.t => procSet.nProc (snd kp)) (pre ++ [(k, p)])
              ++ replicate (length post) 0).
      + rewrite IH by (subst ps; now rewrite <- app_assoc). reflexivity.
      + rewrite map_app, <- app_assoc. cbn [map app snd].
        rewrite insert_app_r_alt by (rewrite length_map; lia).
        rewrite length_map, Nat.sub_diag. reflexivity. }
  apply (H ps []). reflexivity.
Qed.

Lemma setSizes_of_length ps : length (setSizes_of ps) = length ps.
Proof. apply length_map. Qed.

Lemma setSizes_of_lookup ps i k p :
  ps !! i = Some (k, p) -> setSizes_of ps !!! i = procSet.nProc p.
Proof.
  intros Hi. apply list_lookup_total_correct. unfold setSizes_of.
  change (map ?f ps) with (f <$> ps). now rewrite list_lookup_fmap, Hi.
Qed.

Lemma setSizes_of_total ps : sum_list_Z (setSizes_of ps) = totalProcs ps.
Proof.
  unfold totalProcs, setSizes_of. induction ps as [|kp ps IH] using rev_ind; [reflexivity|].
  rewrite map_app. cbn [map]. rewrite sum_list_Z_snoc, fold_left_app, IH. reflexivity.
Qed.

Lemma setSizes_of_nonneg ps : wf_pSet ps -> Forall (fun z => 0 <= z) (setSizes_of ps).
Proof.
  intros [_ Hwf]. apply Forall_lookup. intros i z Hz.
  unfold setSizes_of in Hz. change (map ?f ps) with (f <$> ps) in Hz.
  rewrite list_lookup_fmap in Hz.
  destruct (ps !! i) as [[k p]|] eqn:Hi; [|discriminate]. injection Hz as <-.
  destruct (Hwf i k p Hi) as (_ & _ & _ & _ & -> & Hpos). now apply sum_list_Z_nonneg.
Qed.

(** ** Split on interval colours *)

Section SplitColors.
Variables (sizes cum : list Z) (n N : nat).
Hypothesis Hn : n = length sizes.
Hypothesis Hpos : Forall (fun z => 0 <= z) sizes.
Hypothesis Hcum : forall j, (j <= n)%nat -> cum !!! j = psum sizes j.
Hypothesis Htotal : sum_list_Z sizes = Z.of_nat N.

Lemma color_of_rank r :
  (r < N)%nat -> exists i, (i < n)%nat /\ in_psum sizes i r /\ last_match cum n r = Some i.
Proof.
  intros Hr. destruct (interval_exists sizes r) as (i & Hi & Hin); [lia|].
  exists i. repeat split; try apply Hin; [lia|].
  apply (last_match_psum cum sizes); auto; lia.
Qed.

Lemma colors_all_some : forallb is_some (map (last_match cum n) (seq 0 N)) = true.
Proof.
  apply forallb_forall. intros o Ho. apply in_map_iff in Ho as (r & <- & Hr).
  apply in_seq in Hr. destruct (color_of_rank r) as (i & _ & _ & ->); [lia | done].
Qed.

Lemma count_color i m :
  (i < n)%nat -> (m <= N)%nat ->
  length (List.filter (same_color i) (map (last_match cum n) (seq 0 m)))
  = (Nat.min m (Z.to_nat (psum sizes (S i))) - Nat.min m (Z.to_nat (psum sizes i)))%nat.
Proof.
  intros Hi Hm.
  pose proof (psum_nonneg sizes i Hpos) as Ha.
  pose proof (psum_mono sizes i (S i) Hpos ltac:(lia)) as Hab.
  rewrite <- count_in_range by lia.
  rewrite filter_map_swap, length_map. f_equal. apply filter_ext_in.
  intros r Hr. apply in_seq in Hr.
  destruct (color_of_rank r) as (j & Hj & Hin & ->); [lia|].
  unfold same_color. destruct Hin as [Hin1 Hin2].
  destruct (Nat.eqb_spec j i) as [->|Hne].
  - symmetry. apply andb_true_iff. split; [apply Nat.leb_le | apply Nat.ltb_lt]; lia.
  - symmetry. apply andb_false_iff.
    destruct (Nat.leb_spec (Z.to_nat (psum sizes i)) r) as [H1|H1]; [|now left].
    destruct (Nat.ltb_spec r (Z.to_nat (psum sizes (S i)))) as [H2|H2]; [|now right].
    exfalso. apply Hne. apply (interval_unique sizes r j i Hpos); unfold in_psum; lia.
Qed.

Lemma split_rank i r :
  (i < n)%nat -> (r < N)%nat -> in_psum sizes i r ->
  length (List.filter (same_color i) (take r (map (last_match cum n) (seq 0 N))))
  = Z.to_nat (Z.of_nat r - psum sizes i).
Proof.
  intros Hi Hr [H1 H2].
  change (map ?f ?l) with (f <$> l). rewrite <- fmap_take, take_seq.
  change (?f <$> ?l) with (map f l). rewrite Nat.min_l by lia.
  rewrite count_color by lia.
  pose proof (psum_nonneg sizes i Hpos). lia.
Qed.

Lemma split_size i :
  (i < n)%nat ->
  length (List.filter (same_color i) (map (last_match cum n) (seq 0 N)))
  = Z.to_nat (sizes !!! i).
Proof.
  intros Hi. rewrite count_color by lia.
  pose proof (psum_nonneg sizes i Hpos).
  pose proof (psum_le_total sizes (S i) Hpos).
  pose proof (psum_S sizes i ltac:(lia)).
  pose proof (psum_mono sizes i (S i) Hpos ltac:(lia)). lia.
Qed.
End SplitColors.

(** ** procSet.createCommunicators on a well-formed set *)

Lemma member_cum_lookup p i k j :
  wf_procSet i k p -> procSet.nProc p < 2 ^ 31 ->
  (j <= Z.to_nat (procSet.nMembers p))%nat ->
  cumulative intc (Z.to_nat (procSet.nMembers p)) (procSet.memberSizes p) !!! j
  = psum (procSet.memberSizes p) j.
Proof.
  intros (_ & _ & _ & Hlen & Hsum & Hpos) Hlt Hj.
  apply cumulative_intc; try done; lia.
Qed.

Lemma procSet_createCommunicators_run p i k g :
  wf_procSet i k p ->
  procSet.gcomm p = Some g ->
  Z.of_nat (size g) = procSet.nProc p ->
  procSet.nProc p < 2 ^ 31 ->
  (rank g < size g)%nat ->
  exists m,
    (m < Z.to_nat (procSet.nMembers p))%nat /\
    in_psum (procSet.memberSizes p) m (rank g) /\
    procSet.createCommunicators p
    = (procSet.set_split p
         {| rank := Z.to_nat (Z.of_nat (rank g) - psum (procSet.memberSizes p) m);
            size := Z.to_nat (procSet.memberSizes p !!! m) |}
         (<[m := true]> (replicate (Z.to_nat (procSet.nMembers p)) false))
         m
         (cumulative intc (Z.to_nat (procSet.nMembers p)) (procSet.memberSizes p)),
       [EvSplit g m], inr tt).
Proof.
  intros Hwf Hg Hsize Hlt Hr.
  pose proof Hwf as (_ & _ & Hn & Hlen & Hsum & Hpos).
  set (n := Z.to_nat (procSet.nMembers p)) in *.
  set (sizes := procSet.memberSizes p) in *.
  set (cum := cumulative intc n sizes).
  assert (forall j, (j <= n)%nat -> cum !!! j = psum sizes j) as Hcum.
  { intros j Hj. now apply (member_cum_lookup p i k j). }
  assert (sum_list_Z sizes = Z.of_nat (size g)) as Htot by lia.
  destruct (color_of_rank sizes cum n (size g) (eq_sym Hlen) Hpos Hcum Htot (rank g) Hr)
    as (m & Hm & Hin & Hlast).
  exists m. repeat split; try done; try apply Hin.
  unfold procSet.createCommunicators. msimpl.
  fold n sizes cum. rewrite Hg. msimpl. rewrite Hlast. msimpl.
  unfold comm_Split. rewrite bind_bind. msimpl.
  rewrite (colors_all_some sizes cum n (size g)) by done. msimpl.
  rewrite (split_rank sizes cum n (size g)) by done.
  rewrite (split_size sizes cum n (size g)) by done.
  reflexivity.
Qed.

(** ** The loop over the sets (lines 316-326) *)

Lemma foldM_app {St A B} (f : A -> B -> M St A) l1 l2 acc s :
  foldM f (l1 ++ l2) acc s = (acc' <- foldM f l1 acc ;; foldM f l2 acc') s.
Proof.
  revert acc s. induction l1 as [|x l1 IH]; intros acc s.
  - simpl. unfold bind, ret. now destruct (foldM f l2 acc s) as [[s2 t2] r].
  - simpl. unfold bind.
    destruct (f acc x s) as [[s1 t1] [e|a]]; [reflexivity|].
    rewrite IH. unfold bind.
    destruct (foldM f l1 a s1) as [[s2 t2] [e|b]]; [reflexivity|].
    destruct (foldM f l2 b s2) as [[s3 t3] r]. now rewrite app_assoc.
Qed.

Lemma split_set_skip setComm flags keys locals s :
  (forall k, k ∈ keys -> dict_get flags k = Some false) ->
  foldM (split_set setComm flags) keys locals s = (s, [], inr locals).
Proof.
  revert s. induction keys as [|k keys IH]; intros s H; [reflexivity|].
  cbn [foldM]. unfold split_set at 1. rewrite (H k) by apply list_elem_of_here.
  rewrite bind_bind. msimpl.
  apply IH. intros k' Hk'. apply H. now apply list_elem_of_further.
Qed.

Lemma split_set_hit setComm flags key locals s p p' tr :
  dict_get flags key = Some true ->
  dict_get (pSet s) key = Some p ->
  procSet.createCommunicators (procSet.set_gcomm p (Some setComm)) = (p', tr, inr tt) ->
  split_set setComm flags locals key s
  = (set_pSet s (dict_set (pSet s) key p'), tr ++ [EvBarrier (gcomm s)],
     inr (procSet.comm_ p', procSet.groupFlags p', procSet.groupID p')).
Proof.
  intros Hflag Hp Hrun. unfold split_set. rewrite Hflag. msimpl.
  rewrite (bind_inr _ _ _ (set_pSet s (dict_set (pSet s) key (procSet.set_gcomm p (Some setComm))))
             [] tt) by (unfold on_procSet; now rewrite Hp).
  rewrite with_trace_nil.
  rewrite (bind_inr _ _ _
             (set_pSet s (dict_set (pSet s) key p')) tr tt); last first.
  { unfold on_procSet. cbn [pSet set_pSet]. rewrite dict_get_set_eq, Hrun.
    f_equal. f_equal. unfold set_pSet. cbn. f_equal. apply dict_set_set. }
  msimpl. cbn [pSet set_pSet gcomm]. rewrite dict_get_set_eq. msimpl.
  reflexivity.
Qed.

(** ** What the declarations establish *)

Lemma wf_pSet_snoc ps k p :
  wf_pSet ps -> k ∉ dict_keys ps -> wf_procSet (length ps) k p -> wf_pSet (ps ++ [(k, p)]).
Proof.
  intros [Hnd Hwf] Hk Hp. split.
  - unfold dict_keys in *. rewrite map_app. apply NoDup_app. repeat split; [done| |].
    + intros x Hx Hx'. apply list_elem_of_singleton in Hx'. now subst.
    + apply NoDup_singleton.
  - intros i k' p' Hi. apply lookup_snoc_Some in Hi as [[_ Hi]|[-> [= <- <-]]]; auto.
Qed.

Lemma addProcessorSet_declared used mp name n sz mp' tr :
  declared used mp -> name ∉ used ->
  Forall (fun z => 0 <= z) (atleast_1d sz) ->
  addProcessorSet name n sz mp = (mp', tr, inr tt) ->
  declared (name :: used) mp' /\ gcomm mp' = gcomm mp /\ tr = [].
Proof.
  intros (Hwf & Hkeys & Hdum & Hdisj) Hfresh Hpos. unfold addProcessorSet.
  destruct (Z.eqb_spec n 0) as [->|Hn0].
  - intros [= <- <-]. split; [|done].
    split; [exact Hwf|]. cbn [pSet dummyPSet set_dummyPSet]. split; [|split].
    + intros k Hk. apply list_elem_of_further. auto.
    + intros k Hk. apply elem_of_union in Hk as [Hk|Hk].
      * apply elem_of_singleton in Hk. subst. apply list_elem_of_here.
      * apply list_elem_of_further. auto.
    + intros k Hk. apply elem_of_union in Hk as [Hk|Hk]; [|auto].
      apply elem_of_singleton in Hk. subst. intros Hk. apply Hfresh. auto.
  - assert (name ∉ dict_keys (pSet mp)) as Hname by (intros Hk; apply Hfresh; auto).
    assert (forall sizes,
               length sizes = Z.to_nat n -> 1 <= n -> Forall (fun z => 0 <= z) sizes ->
               declared (name :: used)
                 (set_pSet mp (dict_set (pSet mp) name
                                 (procSet.init name n sizes (length (pSet mp)))))) as Hadd.
    { intros sizes Hlen Hn Hsz. rewrite dict_set_fresh by done.
      split; [|split; [|split]]; cbn [pSet dummyPSet set_pSet].
      - apply wf_pSet_snoc; try done; repeat split; cbn; done.
      - intros k Hk. unfold dict_keys in Hk. rewrite map_app in Hk.
        apply elem_of_app in Hk as [Hk|Hk].
        + apply list_elem_of_further. auto.
        + apply list_elem_of_singleton in Hk. subst. apply list_elem_of_here.
      - intros k Hk. apply list_elem_of_further. auto.
      - intros k Hk Hk'. unfold dict_keys in Hk'. rewrite map_app in Hk'.
        apply elem_of_app in Hk' as [Hk'|Hk'].
        + now apply (Hdisj k).
        + apply list_elem_of_singleton in Hk'. cbn in Hk'. subst. apply Hfresh. auto. }
    destruct (Nat.eqb_spec (length (atleast_1d sz)) 1) as [Hlen1|Hlen1].
    + destruct (Z.ltb_spec n 0) as [Hneg|Hnn]; [discriminate|].
      msimpl. intros [= <- <-]. split; [|done].
      apply Hadd; [now rewrite length_replicate | lia |].
      apply Forall_replicate.
      destruct (atleast_1d sz) as [|z l]; [discriminate|]. now inversion Hpos.
    + destruct (Z.eqb_spec (Z.of_nat (length (atleast_1d sz))) n) as [Hlen|Hlen];
        [|discriminate].
      msimpl. intros [= <- <-]. split; [|done].
      apply Hadd; [lia | lia | done].
Qed.

Lemma declare_declared specs : forall used mp mp' tr,
  declared used mp -> NoDup (used ++ map spec_name specs) ->
  Forall nonneg_sizes specs ->
  declare specs mp = (mp', tr, inr tt) ->
  wf_pSet (pSet mp') /\ gcomm mp' = gcomm mp /\
  (forall k, k ∈ dummyPSet mp' -> k ∉ dict_keys (pSet mp')) /\
  (forall k, k ∈ dict_keys (pSet mp') \/ k ∈ dummyPSet mp' ->
             k ∈ used ++ map spec_name specs).
Proof.
  unfold declare.
  induction specs as [|s specs IH]; intros used mp mp' tr Hdecl Hnd Hpos.
  - intros [= <- <-]. destruct Hdecl as (Hwf & Hkeys & Hdum & Hdisj).
    split; [done|]. split; [done|]. split; [done|].
    cbn [map]. rewrite app_nil_r. intros k [Hk|Hk]; auto.
  - cbn [foldM]. unfold bind.
    destruct (addProcessorSet (spec_name s) (spec_nMembers s) (spec_sizes s) mp)
      as [[mp1 t1] [e|[]]] eqn:Hadd; [discriminate|].
    destruct (foldM _ specs tt mp1) as [[mp2 t2] r] eqn:Hrest.
    intros [= <- <- ->].
    cbn [map] in Hnd.
    assert (spec_name s ∉ used) as Hfresh.
    { apply NoDup_app in Hnd as (_ & Hd & _). intros Hk. apply (Hd _ Hk), list_elem_of_here. }
    inversion Hpos as [|? ? Hs Hpos']; subst.
    destruct (addProcessorSet_declared used mp _ _ _ mp1 t1 Hdecl Hfresh Hs Hadd)
      as (Hdecl1 & Hg1 & ->).
    destruct (IH (spec_name s :: used) mp1 mp2 t2 Hdecl1) as (Hwf & Hg & Hdisj & Hsub);
      try done.
    { apply NoDup_app in Hnd as (Hu & Hd & Hs').
      apply NoDup_cons in Hs' as [Hs1 Hs2].
      cbn [app]. apply NoDup_cons. split.
      - rewrite elem_of_app. intros [?|?]; auto.
      - apply NoDup_app. repeat split; try done.
        intros x Hx Hx'. apply (Hd x Hx). now apply list_elem_of_further. }
    split; [done|]. split; [congruence|]. split; [done|].
    intros k Hk. specialize (Hsub k Hk). cbn [app map] in *.
    rewrite elem_of_app, elem_of_cons. rewrite elem_of_cons, elem_of_app in Hsub. tauto.
Qed.

Lemma init_declared c : declared [] (init c).
Proof.
  split; [split | split; [|split]]; cbn.
  - apply NoDup_nil_2.
  - intros i k p Hi. now rewrite lookup_nil in Hi.
  - intros k Hk. done.
  - intros k Hk. now apply not_elem_of_empty in Hk.
  - intros k Hk. now apply not_elem_of_empty in Hk.
Qed.

(** ** createCommunicators on declared sets *)

Lemma fold_dummy_flags (l : list string) (flags : dict bool) (k : string) :
  dict_get (fold_left (fun flags key => dict_set flags key false) l flags) k
  = if bool_decide (k ∈ l) then Some false else dict_get flags k.
Proof.
  revert flags. induction l as [|x l IH]; intros flags; [reflexivity|].
  cbn [fold_left]. rewrite IH.
  destruct (decide (x = k)) as [->|Hne].
  - rewrite dict_get_set_eq. rewrite (bool_decide_eq_true_2 (k ∈ k :: l)) by apply list_elem_of_here.
    now destruct (bool_decide (k ∈ l)).
  - rewrite dict_get_set_ne by done.
    destruct (bool_decide_reflect (k ∈ l)) as [Hk|Hk].
    + now rewrite bool_decide_eq_true_2 by now apply list_elem_of_further.
    + rewrite bool_decide_eq_false_2; [done|].
      rewrite elem_of_cons. intros [?|?]; congruence.
Qed.

Lemma in_interval_psum cum sizes n i r :
  (forall j, (j <= n)%nat -> cum !!! j = psum sizes j) -> (i < n)%nat ->
  in_interval cum i r = true <-> in_psum sizes i r.
Proof.
  intros Hcum Hi. rewrite in_interval_spec, !Hcum by lia. reflexivity.
Qed.

Lemma dict_keys_split {V} (ps : dict V) i k v :
  ps !! i = Some (k, v) ->
  dict_keys ps = dict_keys (take i ps) ++ k :: dict_keys (drop (S i) ps).
Proof.
  intros Hi. rewrite <- (take_drop_middle ps i (k, v) Hi) at 1.
  unfold dict_keys. now rewrite map_app.
Qed.

Lemma createCommunicators_run_full mp :
  wf_pSet (pSet mp) ->
  (forall k, k ∈ dummyPSet mp -> k ∉ dict_keys (pSet mp)) ->
  totalProcs (pSet mp) = Z.of_nat (size (gcomm mp)) ->
  Z.of_nat (size (gcomm mp)) < 2 ^ 31 ->
  (rank (gcomm mp) < size (gcomm mp))%nat ->
  exists i name p m flags,
    pSet mp !! i = Some (name, p) /\
    in_psum (setSizes_of (pSet mp)) i (rank (gcomm mp)) /\
    (m < Z.to_nat (procSet.nMembers p))%nat /\
    in_psum (procSet.memberSizes p) m
      (Z.to_nat (Z.of_nat (rank (gcomm mp)) - psum (setSizes_of (pSet mp)) i)) /\
    let setComm :=
      {| rank := Z.to_nat (Z.of_nat (rank (gcomm mp)) - psum (setSizes_of (pSet mp)) i);
         size := Z.to_nat (procSet.nProc p) |} in
    let comm :=
      {| rank := Z.to_nat (Z.of_nat (rank setComm) - psum (procSet.memberSizes p) m);
         size := Z.to_nat (procSet.memberSizes p !!! m) |} in
    let groupFlags := <[m := true]> (replicate (Z.to_nat (procSet.nMembers p)) false) in
    let p' := procSet.set_split (procSet.set_gcomm p (Some setComm)) comm groupFlags m
                (cumulative intc (Z.to_nat (procSet.nMembers p)) (procSet.memberSizes p)) in
    let ps' := dict_set (pSet mp) name p' in
    createCommunicators mp
    = (set_pSetRoot (set_setFlags (set_pSet mp ps') (Some flags))
         (Some (roots_of (cumulative intc (length (pSet mp)) (setSizes_of (pSet mp))) ps')),
       [EvSplit (gcomm mp) i; EvSplit setComm m; EvBarrier (gcomm mp)],
       inr (comm, setComm, flags, groupFlags, m)) /\
    (forall j k' p', pSet mp !! j = Some (k', p') ->
                     dict_get flags k' = Some (bool_decide (j = i))) /\
    (forall k, k ∈ dummyPSet mp -> dict_get flags k = Some false) /\
    (forall k, k ∉ dict_keys (pSet mp) -> k ∉ dummyPSet mp -> dict_get flags k = None).
Proof.
  intros Hwf Hdisj Htot Hlt Hr.
  set (ps := pSet mp) in *. set (g := gcomm mp) in *.
  set (sets := setSizes_of ps). set (n := length ps).
  set (cum := cumulative intc n sets).
  pose proof (setSizes_of_nonneg ps Hwf) as Hpos.
  assert (n = length sets) as Hn by (unfold sets; now rewrite setSizes_of_length).
  assert (sum_list_Z sets = Z.of_nat (size g)) as Hsum
      by (unfold sets; now rewrite setSizes_of_total).
  assert (forall j, (j <= n)%nat -> cum !!! j = psum sets j) as Hcum.
  { intros j Hj. apply cumulative_intc; try done; lia. }
  destruct (color_of_rank sets cum n (size g) Hn Hpos Hcum Hsum (rank g) Hr)
    as (i & Hi & Hin & Hlast).
  destruct (lookup_lt_is_Some_2 ps i Hi) as [[name p] Hp].
  pose proof (proj2 Hwf i name p Hp) as Hwfp.
  pose proof (setSizes_of_lookup ps i name p Hp) as Hsz. fold sets in Hsz.
  set (setComm := {| rank := Z.to_nat (Z.of_nat (rank g) - psum sets i);
                     size := Z.to_nat (procSet.nProc p) |}).
  (* the split of the set's communicator *)
  assert (0 <= procSet.nProc p) as Hnp.
  { rewrite <- Hsz. destruct (lookup_lt_is_Some_2 sets i ltac:(lia)) as [z Hz].
    rewrite (list_lookup_total_correct _ _ _ Hz).
    exact (proj1 (Forall_lookup _ _) Hpos i z Hz). }
  assert (psum sets (S i) = psum sets i + procSet.nProc p) as HpS.
  { rewrite psum_S by lia. now rewrite Hsz. }
  pose proof (psum_le_total sets (S i) Hpos) as Hle.
  pose proof (psum_nonneg sets i Hpos) as Hge.
  destruct (procSet_createCommunicators_run (procSet.set_gcomm p (Some setComm)) i name setComm)
    as (m & Hm & Hmin & Hrun);
    [exact Hwfp | reflexivity | cbn; lia | cbn [procSet.nProc procSet.set_gcomm]; lia
    | cbn [rank size setComm]; destruct Hin; lia | ].
  cbn [procSet.set_gcomm procSet.nMembers procSet.memberSizes] in Hm, Hmin, Hrun.
  set (p' := procSet.set_split _ _ _ _ _) in Hrun.
  set (flags0 := snd (flag_sets ps cum (rank g))).
  set (flags := fold_left (fun flags key => dict_set flags key false)
                          (elements (dummyPSet mp)) flags0).
  assert (forall j k' p', ps !! j = Some (k', p') ->
                          dict_get flags0 k' = Some (bool_decide (j = i))) as Hflags0.
  { intros j k' q Hj. unfold flags0. rewrite (flag_lookup ps cum (rank g) j k' q) by done.
    f_equal. apply lookup_lt_Some in Hj. fold n in Hj.
    destruct (bool_decide_reflect (j = i)) as [->|Hne].
    - now apply (in_interval_psum cum sets n).
    - apply not_true_is_false. intros Hj'.
      apply (in_interval_psum cum sets n) in Hj'; try done.
      apply Hne. exact (interval_unique sets (rank g) j i Hpos Hj' Hin). }
  exists i, name, p, m, flags.
  split; [done|]. split; [done|]. split; [done|]. split; [exact Hmin|].
  cbv zeta. fold ps g sets setComm n cum.
  split; [|split; [|split]].
  - unfold createCommunicators. msimpl. fold ps g.
    destruct (Z.ltb_spec (totalProcs ps) (Z.of_nat (size g))); [lia|].
    destruct (Z.gtb_spec (totalProcs ps) (Z.of_nat (size g))); [lia|].
    cbn [orb].
    rewrite (bind_inr _ _ _ mp [] sets) by now apply fill_setSizes_wf.
    rewrite with_trace_nil. fold n cum.
    fold flags0.
    replace (fst (flag_sets ps cum (rank g))) with (Some i)
      by (rewrite flag_sets_wf by done; now rewrite <- Hlast).
    msimpl.
    rewrite (bind_inr _ _ _ mp [EvSplit g i] setComm); last first.
    { unfold comm_Split. msimpl.
      rewrite (map_ext _ (last_match cum n)) by (intros r; now rewrite flag_sets_wf).
      rewrite (colors_all_some sets cum n (size g)) by done.
      rewrite (split_rank sets cum n (size g)) by done.
      rewrite (split_size sets cum n (size g)) by done.
      unfold setComm. now rewrite Hsz. }
    rewrite (dict_keys_split ps i name p Hp).
    erewrite bind_inr; last first.
    { rewrite foldM_app.
      erewrite bind_inr; last first.
      { apply split_set_skip. intros k Hk. unfold dict_keys in Hk.
        apply list_elem_of_fmap in Hk as ([k' q] & -> & Hk).
        apply list_elem_of_lookup in Hk as [j Hj].
        rewrite lookup_take_Some in Hj. destruct Hj as [Hj Hji].
        cbn [fst]. rewrite (Hflags0 j k' q Hj). f_equal. apply bool_decide_eq_false_2. lia. }
      rewrite with_trace_nil. cbn [foldM].
      erewrite bind_inr; last first.
      { apply (split_set_hit setComm flags0 name _ mp p p' [EvSplit setComm m]).
        - rewrite (Hflags0 i name p Hp). f_equal. now apply bool_decide_eq_true_2.
        - apply (dict_get_lookup _ i); [apply Hwf | done].
        - exact Hrun. }
      rewrite split_set_skip; [reflexivity|].
      intros k Hk. unfold dict_keys in Hk.
      apply list_elem_of_fmap in Hk as ([k' q] & -> & Hk).
      apply list_elem_of_lookup in Hk as [j Hj].
      rewrite lookup_drop in Hj.
      cbn [fst]. rewrite (Hflags0 _ k' q Hj). f_equal. apply bool_decide_eq_false_2. lia. }
    cbn [with_trace final trace outcome fst snd app].
    msimpl. fold flags. cbn [procSet.comm_ procSet.groupFlags procSet.groupID p' procSet.set_split].
    msimpl. reflexivity.
  - intros j k' q Hj. unfold flags. rewrite fold_dummy_flags.
    rewrite bool_decide_eq_false_2; [exact (Hflags0 j k' q Hj)|].
    rewrite elem_of_elements. intros Hk. apply (Hdisj k' Hk).
    unfold dict_keys. apply list_elem_of_fmap. exists (k', q). split; [done|].
    apply list_elem_of_lookup. now exists j.
  - intros k Hk. unfold flags. rewrite fold_dummy_flags.
    now rewrite bool_decide_eq_true_2 by now apply elem_of_elements.
  - intros k Hk Hk'. unfold flags. rewrite fold_dummy_flags.
    rewrite bool_decide_eq_false_2 by now rewrite elem_of_elements.
    apply dict_get_None. unfold flags0. now rewrite flag_keys.
Qed.

Lemma createCommunicators_run mp :
  wf_pSet (pSet mp) ->
  (forall k, k ∈ dummyPSet mp -> k ∉ dict_keys (pSet mp)) ->
  totalProcs (pSet mp) = Z.of_nat (size (gcomm mp)) ->
  Z.of_nat (size (gcomm mp)) < 2 ^ 31 ->
  (rank (gcomm mp) < size (gcomm mp))%nat ->
  exists i name p m mp' comm flags,
    pSet mp !! i = Some (name, p) /\
    in_psum (setSizes_of (pSet mp)) i (rank (gcomm mp)) /\
    (m < Z.to_nat (procSet.nMembers p))%nat /\
    in_psum (procSet.memberSizes p) m
      (Z.to_nat (Z.of_nat (rank (gcomm mp)) - psum (setSizes_of (pSet mp)) i)) /\
    createCommunicators mp
    = (mp',
       [EvSplit (gcomm mp) i;
        EvSplit {| rank := Z.to_nat (Z.of_nat (rank (gcomm mp)) - psum (setSizes_of (pSet mp)) i);
                   size := Z.to_nat (procSet.nProc p) |} m;
        EvBarrier (gcomm mp)],
       inr (comm,
            {| rank := Z.to_nat (Z.of_nat (rank (gcomm mp)) - psum (setSizes_of (pSet mp)) i);
               size := Z.to_nat (procSet.nProc p) |},
            flags,
            <[m := true]> (replicate (Z.to_nat (procSet.nMembers p)) false),
            m)) /\
    (forall j k' p', pSet mp !! j = Some (k', p') ->
                     dict_get flags k' = Some (bool_decide (j = i))) /\
    (forall k, k ∈ dummyPSet mp -> dict_get flags k = Some false) /\
    (forall k, k ∉ dict_keys (pSet mp) -> k ∉ dummyPSet mp -> dict_get flags k = None) /\
    setFlags mp' = Some flags.
Proof.
  intros Hwf Hdisj Htot Hlt Hr.
  destruct (createCommunicators_run_full mp Hwf Hdisj Htot Hlt Hr)
    as (i & name & p & m & flags & Hp & Hin & Hm & Hmin & Hrun & Hfl & Hdum & Hnone).
  exists i, name, p, m. eexists. eexists. exists flags.
  split; [exact Hp|]. split; [exact Hin|]. split; [exact Hm|]. split; [exact Hmin|].
  split; [exact Hrun|]. split; [exact Hfl|]. split; [exact Hdum|]. split; [exact Hnone|].
  reflexivity.
Qed.

Lemma dict_keys_set_mono {V} (d : dict V) k v k' :
  k' ∈ dict_keys d \/ k' = k -> k' ∈ dict_keys (dict_set d k v).
Proof.
  rewrite dict_keys_set. unfold dict_mem.
  destruct (dict_get d k) eqn:E.
  - intros [H| ->]; [done|].
    destruct (decide (k ∈ dict_keys d)) as [Hk|Hk]; [done|].
    apply dict_get_None in Hk. congruence.
  - rewrite elem_of_app, list_elem_of_singleton. tauto.
Qed.

Lemma addProcessorSet_registers mp name n sz mp' tr :
  addProcessorSet name n sz mp = (mp', tr, inr tt) ->
  (name ∈ dict_keys (pSet mp') \/ name ∈ dummyPSet mp') /\
  (forall k, k ∈ dict_keys (pSet mp) \/ k ∈ dummyPSet mp ->
             k ∈ dict_keys (pSet mp') \/ k ∈ dummyPSet mp').
Proof.
  unfold addProcessorSet. destruct (Z.eqb_spec n 0) as [->|Hn0].
  - intros [= <- <-]. cbn. split.
    + right. apply elem_of_union_l. now apply elem_of_singleton.
    + intros k [Hk|Hk]; [now left | right; now apply elem_of_union_r].
  - destruct (Nat.eqb (length (atleast_1d sz)) 1).
    + destruct (n <? 0); [discriminate|]. msimpl. intros [= <- <-]. cbn. split.
      * left. apply dict_keys_set_mono. now right.
      * intros k [Hk|Hk]; [left; apply dict_keys_set_mono; now left | now right].
    + destruct (negb (Z.of_nat (length (atleast_1d sz)) =? n)); [discriminate|].
      msimpl. intros [= <- <-]. cbn. split.
      * left. apply dict_keys_set_mono. now right.
      * intros k [Hk|Hk]; [left; apply dict_keys_set_mono; now left | now right].
Qed.

Lemma declare_registers specs : forall mp mp' tr,
  declare specs mp = (mp', tr, inr tt) ->
  (forall s, s ∈ specs ->
             spec_name s ∈ dict_keys (pSet mp') \/ spec_name s ∈ dummyPSet mp') /\
  (forall k, k ∈ dict_keys (pSet mp) \/ k ∈ dummyPSet mp ->
             k ∈ dict_keys (pSet mp') \/ k ∈ dummyPSet mp').
Proof.
  unfold declare. induction specs as [|s specs IH]; intros mp mp' tr.
  - intros [= <- <-]. split; [|tauto]. intros s Hs. now apply elem_of_nil in Hs.
  - cbn [foldM]. unfold bind.
    destruct (addProcessorSet (spec_name s) (spec_nMembers s) (spec_sizes s) mp)
      as [[mp1 t1] [e|[]]] eqn:Hadd; [discriminate|].
    destruct (foldM _ specs tt mp1) as [[mp2 t2] r] eqn:Hrest.
    intros [= <- <- ->].
    destruct (addProcessorSet_registers _ _ _ _ _ _ Hadd) as [Hs Hmono].
    destruct (IH mp1 mp2 t2 Hrest) as [Hall Hmono'].
    split; [|auto].
    intros s' Hs'. apply elem_of_cons in Hs' as [->|Hs']; auto.
Qed.

(** C1. Declare any list of processor sets with distinct names and sizes
    that are processor counts; let the counts add up to the size N of the
    global communicator (N < 2^31: the size of a communicator is a C int).
    Then on every rank r < N createCommunicators returns, and
    - the rank lies in the interval of the cumulative processor counts of
      one set and of no other; the returned setFlags is True under the name
      of that set and under no other name, and holds a flag for every
      declared name;
    - the rank of this process in the communicator of its set is r minus
      the set's offset; it lies in the interval of one member and of no
      other; groupFlags has one entry per member, True at the index of that
      member and nowhere else, and this index is the returned ptID. *)
Theorem createCommunicators_partition
    (specs : list setSpec) (N r : nat) (mp : multiPointSparse) :
  NoDup (map spec_name specs) ->
  Forall nonneg_sizes specs ->
  declare specs (init (Comm r N)) = (mp, [], inr tt) ->
  totalProcs (pSet mp) = Z.of_nat N ->
  Z.of_nat N < 2 ^ 31 ->
  (r < N)%nat ->
  exists mp' tr comm setComm setFlags groupFlags ptID name p,
    createCommunicators mp = (mp', tr, inr (comm, setComm, setFlags, groupFlags, ptID)) /\
    dict_get (pSet mp) name = Some p /\
    in_psum (setSizes_of (pSet mp)) (procSet.setID p) r /\
    (forall j, in_psum (setSizes_of (pSet mp)) j r -> j = procSet.setID p) /\
    (forall k, dict_get setFlags k = Some true <-> k = name) /\
    (forall s, s ∈ specs -> is_Some (dict_get setFlags (spec_name s))) /\
    Z.of_nat (rank setComm)
    = Z.of_nat r - psum (setSizes_of (pSet mp)) (procSet.setID p) /\
    in_psum (procSet.memberSizes p) ptID (rank setComm) /\
    (forall m, in_psum (procSet.memberSizes p) m (rank setComm) -> m = ptID) /\
    length groupFlags = Z.to_nat (procSet.nMembers p) /\
    (forall m, groupFlags !! m = Some true <-> m = ptID).
Proof.
  intros Hnd Hpos Hdecl Htot HN Hr.
  destruct (declare_declared specs [] _ _ _ (init_declared _) Hnd Hpos Hdecl)
    as (Hwf & Hg & Hdisj & _).
  destruct (declare_registers specs _ _ _ Hdecl) as [Hreg _].
  cbn [gcomm init] in Hg.
  destruct (createCommunicators_run mp) as
    (i & name & p & m & mp' & c & flags & Hp & Hin & Hm & Hmin & Hrun & Hfl & Hdum & Hnone & _);
    try done; try (rewrite Hg; cbn [rank size]; done).
  rewrite Hg in *. cbn [rank size] in *.
  destruct (proj2 Hwf i name p Hp) as (_ & Hid & _ & _ & _ & Hmpos).
  pose proof (setSizes_of_nonneg _ Hwf) as Hspos.
  destruct Hin as [Hin1 Hin2].
  eexists mp', _, c, _, flags, _, m, name, p.
  split; [exact Hrun|]. rewrite Hid. cbn [rank].
  split; [apply (dict_get_lookup _ i); [apply Hwf | done]|].
  split; [done|].
  split; [intros j Hj; now apply (interval_unique _ r j i Hspos)|].
  split; [|split; [|split; [|split; [|split; [|split]]]]].
  - intros k. split.
    + intros Hk. destruct (decide (k ∈ dict_keys (pSet mp))) as [Hin|Hout].
      * unfold dict_keys in Hin. apply list_elem_of_fmap in Hin as ([k' q] & -> & Hq).
        apply list_elem_of_lookup in Hq as [j Hj]. cbn [fst] in *.
        rewrite (Hfl j k' q Hj) in Hk. injection Hk as Hk.
        apply bool_decide_eq_true_1 in Hk. subst j. congruence.
      * destruct (decide (k ∈ dummyPSet mp)) as [Hd|Hd].
        -- rewrite (Hdum k Hd) in Hk. discriminate.
        -- rewrite (Hnone k Hout Hd) in Hk. discriminate.
    + intros ->. rewrite (Hfl i name p Hp). f_equal. now apply bool_decide_eq_true_2.
  - intros s Hs. destruct (Hreg s Hs) as [Hk|Hk].
    + unfold dict_keys in Hk. apply list_elem_of_fmap in Hk as ([k' q] & -> & Hq).
      apply list_elem_of_lookup in Hq as [j Hj]. cbn [fst]. rewrite (Hfl j k' q Hj). eauto.
    + rewrite (Hdum _ Hk). eauto.
  - lia.
  - exact Hmin.
  - intros m' Hm'. exact (interval_unique _ _ m' m Hmpos Hm' Hmin).
  - now rewrite length_insert, length_replicate.
  - intros m'. destruct (decide (m' = m)) as [->|Hne].
    + rewrite list_lookup_insert_eq by now rewrite length_replicate. tauto.
    + rewrite list_lookup_insert_ne by done. split; [|done].
      intros H. apply lookup_replicate in H as [? _]. discriminate.
Qed.

Lemma createCommunicators_partition_witness :
  let specs := [SetSpec "cruise" 3 (SizeInt 2); SetSpec "off" 0 (SizeInt 4);
                SetSpec "maneuver" 2 (SizeSeq [1; 2])] in
  let mp := final (declare specs (init (Comm 7 9))) in
  exists mp' tr comm setComm setFlags groupFlags ptID name p,
    createCommunicators mp = (mp', tr, inr (comm, setComm, setFlags, groupFlags, ptID)) /\
    dict_get (pSet mp) name = Some p /\
    in_psum (setSizes_of (pSet mp)) (procSet.setID p) 7 /\
    (forall j, in_psum (setSizes_of (pSet mp)) j 7 -> j = procSet.setID p) /\
    (forall k, dict_get setFlags k = Some true <-> k = name) /\
    (forall s, s ∈ specs -> is_Some (dict_get setFlags (spec_name s))) /\
    Z.of_nat (rank setComm)
    = Z.of_nat 7 - psum (setSizes_of (pSet mp)) (procSet.setID p) /\
    in_psum (procSet.memberSizes p) ptID (rank setComm) /\
    (forall m, in_psum (procSet.memberSizes p) m (rank setComm) -> m = ptID) /\
    length groupFlags = Z.to_nat (procSet.nMembers p) /\
    (forall m, groupFlags !! m = Some true <-> m = ptID).
Proof.
  intros specs mp.
  apply (createCommunicators_partition specs 9 7 mp).
  - apply (bool_decide_unpack _). vm_compute. exact I.
  - repeat constructor; vm_compute; discriminate.
  - vm_compute. reflexivity.
  - vm_compute. reflexivity.
  - vm_compute. reflexivity.
  - lia.
Defined.

(** The two hypotheses on the declarations are needed: the code checks
    neither.  With a negative size two intervals hold rank 2, and two flags
    are True; with a name declared twice the second setID is out of range. *)
Example negative_size_two_flags :
  let specs := [SetSpec "a" 1 (SizeInt 3); SetSpec "b" 1 (SizeInt (-1));
                SetSpec "c" 1 (SizeInt 2)] in
  match outcome ((declare specs ;; createCommunicators) (init (Comm 2 4))) with
  | inr (_, _, setFlags, _, _) => setFlags = [("a", true); ("b", false); ("c", true)]
  | inl _ => False
  end.
Proof. vm_compute. reflexivity. Qed.

Example repeated_name_index_error :
  let specs := [SetSpec "a" 1 (SizeInt 1); SetSpec "a" 1 (SizeInt 1)] in
  outcome ((declare specs ;; createCommunicators) (init (Comm 0 1))) = inl IndexError.
Proof. vm_compute. reflexivity. Qed.

(** ** The sample problems, evaluated *)

(** The step is the binary64 number nearest to 10^-40: it is m * 2^-185
    with a 53-bit m, and 10^-40 is within half a unit in the last place. *)
Lemma step_is_1e_40 :
  Prim2SF step = S754_finite false 4903985730770844 (-185) /\
  (2 ^ 52 <= 4903985730770844 < 2 ^ 53) /\
  Z.abs (2 * 4903985730770844 * 10 ^ 40 - 2 ^ 186) <= 10 ^ 40.
Proof. vm_compute. repeat split; discriminate. Qed.


(** C2, evaluated.  obj stores a = 3.0 and b = 4.0 as floats; after sens the
    stored dictionary -- the same one -- holds the complex numbers 3+0j and
    4+0j, and the combination function was called on that dictionary while
    it held the perturbed a.  With a vector functional, sens replaces the
    stored float array by a complex array. *)
Theorem sens_rewrites_the_snapshot (x fObj fCon : pyval) :
  let stored s := match funcs s with Some l => heap s !! l | None => None end in
  let after_obj := final (obj alone x sample) in
  let after_sens := final (sens alone x fObj fCon after_obj) in
  let after_obj_v := final (obj alone x vector_sample) in
  let after_sens_v := final (sens alone x fObj fCon after_obj_v) in
  stored after_obj = Some [("a", VFloat 3); ("b", VFloat 4)] /\
  funcs after_sens = funcs after_obj /\
  stored after_sens = Some [("a", VComplex 3 0); ("b", VComplex 4 0)] /\
  EvObjCon [("a", VComplex 3 step); ("b", VFloat 4)]
    ∈ trace (sens alone x fObj fCon after_obj) /\
  stored after_obj_v = Some [("v", VArray [1.5; 2.5]%float)] /\
  stored after_sens_v = Some [("v", VCArray [(1.5, 0); (2.5, 0)]%float)] /\
  outcome (sens alone x fObj fCon after_obj_v)
  = inr (VDict [("x", VArray [0; 0]%float)],
         VDict [("c", VDict [("x", VMatrix [[1; 2]; [3; 4]]%float)])],
         VBool false).
Proof.
  cbv zeta. repeat split; try (vm_compute; reflexivity).
  vm_compute. apply list_elem_of_further, list_elem_of_further, list_elem_of_further,
    list_elem_of_here.
Qed.

(** ** Computations that leave the object alone, computations without events *)

Lemma bind_final {St A B} (m : M St A) (k : A -> M St B) s :
  final (bind m k s)
  = match outcome (m s) with
    | inr a => final (k a (final (m s)))
    | inl _ => final (m s)
    end.
Proof.
  unfold bind. destruct (m s) as [[s1 t1] [e|a]]; [reflexivity|].
  cbn. now destruct (k a s1) as [[s2 t2] r].
Qed.

Lemma bind_trace {St A B} (m : M St A) (k : A -> M St B) s :
  trace (bind m k s)
  = trace (m s) ++ match outcome (m s) with
                   | inr a => trace (k a (final (m s)))
                   | inl _ => []
                   end.
Proof.
  unfold bind. destruct (m s) as [[s1 t1] [e|a]]; cbn; [now rewrite app_nil_r|].
  now destruct (k a s1) as [[s2 t2] r].
Qed.

Lemma bind_outcome {St A B} (m : M St A) (k : A -> M St B) s :
  outcome (bind m k s)
  = match outcome (m s) with
    | inr a => outcome (k a (final (m s)))
    | inl e => inl e
    end.
Proof.
  unfold bind. destruct (m s) as [[s1 t1] [e|a]]; [reflexivity|].
  cbn. now destruct (k a s1) as [[s2 t2] r].
Qed.

Lemma bind_inr_inv {St A B} (m : M St A) (k : A -> M St B) s s' tr b :
  bind m k s = (s', tr, inr b) ->
  exists s1 t1 a t2, m s = (s1, t1, inr a) /\ k a s1 = (s', t2, inr b) /\ tr = t1 ++ t2.
Proof.
  unfold bind. destruct (m s) as [[s1 t1] [e|a]]; [discriminate|].
  destruct (k a s1) as [[s2 t2] r] eqn:Hk. intros [= <- <- ->].
  now exists s1, t1, a, t2.
Qed.

Lemma pure_ret {St A} (a : A) : pure_state (@ret St A a).
Proof. now intros s. Qed.
Lemma pure_raise {St A} e : pure_state (@raise St A e).
Proof. now intros s. Qed.
Lemma pure_get {St} : pure_state (@get St).
Proof. now intros s. Qed.
Lemma pure_emit {St} e : pure_state (@emit St e).
Proof. now intros s. Qed.
Lemma pure_unwrap {St A} (o : option A) e : pure_state (@unwrap St A o e).
Proof. now destruct o. Qed.
Lemma pure_lift {St A} (r : exn + A) : pure_state (@lift St A r).
Proof. now destruct r. Qed.
Lemma pure_bind {St A B} (m : M St A) (k : A -> M St B) :
  pure_state m -> (forall a, pure_state (k a)) -> pure_state (bind m k).
Proof.
  intros Hm Hk s. rewrite bind_final, Hm. destruct (outcome (m s)); [done | apply Hk].
Qed.
Lemma pure_foldM {St A B} (f : A -> B -> M St A) l acc :
  (forall a x, pure_state (f a x)) -> pure_state (foldM f l acc).
Proof.
  intros Hf. revert acc. induction l as [|x l IH]; intros acc; [apply pure_ret|].
  apply pure_bind; auto.
Qed.

Lemma silent_ret {St A} (a : A) : silent (@ret St A a).
Proof. now intros s. Qed.
Lemma silent_raise {St A} e : silent (@raise St A e).
Proof. now intros s. Qed.
Lemma silent_get {St} : silent (@get St).
Proof. now intros s. Qed.
Lemma silent_put {St} s' : silent (@put St s').
Proof. now intros s. Qed.
Lemma silent_modify {St} f : silent (@modify St f).
Proof. now intros s. Qed.
Lemma silent_unwrap {St A} (o : option A) e : silent (@unwrap St A o e).
Proof. now destruct o. Qed.
Lemma silent_lift {St A} (r : exn + A) : silent (@lift St A r).
Proof. now destruct r. Qed.
Lemma silent_bind {St A B} (m : M St A) (k : A -> M St B) :
  silent m -> (forall a, silent (k a)) -> silent (bind m k).
Proof.
  intros Hm Hk s. rewrite bind_trace, Hm. destruct (outcome (m s)); [done | apply Hk].
Qed.
Lemma silent_foldM {St A B} (f : A -> B -> M St A) l acc :
  (forall a x, silent (f a x)) -> silent (foldM f l acc).
Proof.
  intros Hf. revert acc. induction l as [|x l IH]; intros acc; [apply silent_ret|].
  apply silent_bind; auto.
Qed.

Ltac pure_tac :=
  repeat first
    [ apply pure_ret | apply pure_raise | apply pure_get | apply pure_emit
    | apply pure_unwrap | apply pure_lift
    | apply pure_bind; [|intros ?]
    | apply pure_foldM; intros ? ?
    | match goal with
      | |- pure_state (if ?b then _ else _) => destruct b
      | |- pure_state (match ?x with _ => _ end) => destruct x
      end
    | progress cbv beta zeta ].

Ltac silent_tac :=
  repeat first
    [ apply silent_ret | apply silent_raise | apply silent_get | apply silent_put
    | apply silent_modify | apply silent_unwrap | apply silent_lift
    | apply silent_bind; [|intros ?]
    | apply silent_foldM; intros ? ?
    | match goal with
      | |- silent (if ?b then _ else _) => destruct b
      | |- silent (match ?x with _ => _ end) => destruct x
      end
    | progress cbv beta zeta ].

Lemma run_callbacks_pure {St F} message (call : F -> pyval) fs :
  pure_state (@run_callbacks St F message call fs).
Proof. unfold run_callbacks. pure_tac. Qed.

Lemma run_callbacks_silent {St F} message (call : F -> pyval) fs :
  silent (@run_callbacks St F message call fs).
Proof. unfold run_callbacks. silent_tac. Qed.

Lemma obj_local_pure x : pure_state (obj_local x).
Proof. unfold obj_local. pure_tac; try apply run_callbacks_pure. Qed.

Lemma obj_local_silent x : silent (obj_local x).
Proof. unfold obj_local. silent_tac; try apply run_callbacks_silent. Qed.

Lemma sens_local_pure x fObj fCon : pure_state (sens_local x fObj fCon).
Proof. unfold sens_local. pure_tac; try apply run_callbacks_pure. Qed.

Lemma sens_local_silent x fObj fCon : silent (sens_local x fObj fCon).
Proof. unfold sens_local. silent_tac; try apply run_callbacks_silent. Qed.

Lemma bcast_pure {St} env g tag v root : pure_state (@bcast St env g tag v root).
Proof. unfold bcast. pure_tac. Qed.

Lemma unify_pure env res cp : pure_state (unify env res cp).
Proof. unfold unify. pure_tac; try apply bcast_pure. Qed.

Lemma reduce_fail_pure env res : pure_state (reduce_fail env res).
Proof. unfold reduce_fail, allreduce. pure_tac. Qed.

Lemma extractKeys_pure {St} funcs keys : pure_state (@_extractKeys St funcs keys).
Proof. unfold _extractKeys. pure_tac. Qed.

Lemma extractKeys_silent {St} funcs keys : silent (@_extractKeys St funcs keys).
Proof. unfold _extractKeys. silent_tac. Qed.

(** A run that is pure and silent, seen as an equation. *)
Lemma pure_silent_run {St A} (m : M St A) s :
  pure_state m -> silent m -> m s = (s, [], outcome (m s)).
Proof. intros Hp Hs. rewrite (run_eta (m s)) at 1. now rewrite Hp, Hs. Qed.

Lemma emits_ret {St A} P (a : A) : emits P (@ret St A a).
Proof. intros s. constructor. Qed.
Lemma emits_raise {St A} P e : emits P (@raise St A e).
Proof. intros s. constructor. Qed.
Lemma emits_get {St} P : emits P (@get St).
Proof. intros s. constructor. Qed.
Lemma emits_put {St} P s' : emits P (@put St s').
Proof. intros s. constructor. Qed.
Lemma emits_modify {St} P f : emits P (@modify St f).
Proof. intros s. constructor. Qed.
Lemma emits_unwrap {St A} P (o : option A) e : emits P (@unwrap St A o e).
Proof. destruct o; intros s; constructor. Qed.
Lemma emits_lift {St A} P (r : exn + A) : emits P (@lift St A r).
Proof. destruct r; intros s; constructor. Qed.
Lemma emits_emit {St} (P : event -> Prop) e : P e -> emits P (@emit St e).
Proof. intros H s. now repeat constructor. Qed.
Lemma emits_bind {St A B} P (m : M St A) (k : A -> M St B) :
  emits P m -> (forall a, emits P (k a)) -> emits P (bind m k).
Proof.
  intros Hm Hk s. rewrite bind_trace. apply Forall_app. split; [apply Hm|].
  destruct (outcome (m s)); [constructor | apply Hk].
Qed.
Lemma emits_foldM {St A B} P (f : A -> B -> M St A) l acc :
  (forall a x, emits P (f a x)) -> emits P (foldM f l acc).
Proof.
  intros Hf. revert acc. induction l as [|x l IH]; intros acc; [apply emits_ret|].
  apply emits_bind; auto.
Qed.
Lemma silent_emits {St A} P (m : M St A) : silent m -> emits P m.
Proof. intros H s. rewrite H. constructor. Qed.

Ltac emits_tac :=
  repeat first
    [ apply emits_ret | apply emits_raise | apply emits_get | apply emits_put
    | apply emits_modify | apply emits_unwrap | apply emits_lift
    | apply emits_emit; try done
    | apply emits_bind; [|intros ?]
    | apply emits_foldM; intros ? ?
    | match goal with
      | |- emits _ (if ?b then _ else _) => destruct b
      | |- emits _ (match ?x with _ => _ end) => destruct x
      end
    | progress cbv beta zeta ].

Lemma filter_none {A} (f : A -> bool) (l : list A) :
  Forall (fun x => f x = false) l -> List.filter f l = [].
Proof. induction 1 as [|x l Hx _ IH]; [reflexivity|]. cbn. now rewrite Hx. Qed.

(** ** The key sets of obj *)

Lemma dict_keys_set_iff {V} (d : dict V) k v k' :
  k' ∈ dict_keys (dict_set d k v) <-> k' ∈ dict_keys d \/ k' = k.
Proof.
  split; [|apply dict_keys_set_mono].
  rewrite dict_keys_set. destruct (dict_mem d k); [tauto|].
  rewrite elem_of_app, list_elem_of_singleton. tauto.
Qed.

Lemma dict_get_Some_key {V} (d : dict V) k v : dict_get d k = Some v -> k ∈ dict_keys d.
Proof.
  intros H. destruct (decide (k ∈ dict_keys d)) as [|Hn]; [done|].
  apply dict_get_None in Hn. congruence.
Qed.


Lemma extractKeys_loop {St} (funcs : dict pyval) keys : forall acc (s s' : St) tr d,
  foldM (fun newDict key =>
           v <- unwrap (dict_get funcs key) (KeyError key) ;;
           ret (dict_set newDict key v)) keys acc s = (s', tr, inr d) ->
  (forall k, k ∈ dict_keys d <-> k ∈ dict_keys acc \/ k ∈ keys) /\
  (forall k v, dict_get d k = Some v ->
               dict_get acc k = Some v \/ dict_get funcs k = Some v).
Proof.
  induction keys as [|x keys IH]; intros acc s s' tr d Hrun.
  - injection Hrun as _ _ <-. split; [|auto].
    intros k. rewrite elem_of_nil. tauto.
  - cbn [foldM] in Hrun. apply bind_inr_inv in Hrun as (s1 & t1 & a & t2 & Hf & Hrest & _).
    apply bind_inr_inv in Hf as (s2 & t3 & v & t4 & Hv & Hret & _).
    injection Hret as _ _ <-.
    destruct (dict_get funcs x) as [v'|] eqn:Hget; [|discriminate].
    injection Hv as _ _ <-.
    destruct (IH _ _ _ _ _ Hrest) as [Hkeys Hvals]. split.
    + intros k. rewrite Hkeys, dict_keys_set_iff, elem_of_cons. tauto.
    + intros k v Hk. destruct (Hvals k v Hk) as [H|H]; [|now right].
      destruct (decide (x = k)) as [->|Hne].
      * rewrite dict_get_set_eq in H. right. congruence.
      * rewrite dict_get_set_ne in H by done. now left.
Qed.

Lemma extractKeys_spec {St} (funcs : dict pyval) keys (s s' : St) tr d :
  _extractKeys funcs keys s = (s', tr, inr d) ->
  (forall k, k ∈ dict_keys d <-> k ∈ keys) /\
  (forall k v, dict_get d k = Some v -> dict_get funcs k = Some v).
Proof.
  intros Hrun. destruct (extractKeys_loop funcs keys [] s s' tr d Hrun) as [Hkeys Hvals].
  split.
  - intros k. rewrite Hkeys. cbn. rewrite elem_of_nil. tauto.
  - intros k v Hk. destruct (Hvals k v Hk) as [H|H]; [discriminate | done].
Qed.

(** The unified mapping has the keys of the pattern. *)
Lemma unify_keys env res cp s s' tr allFuncs :
  unify env res cp s = (s', tr, inr allFuncs) ->
  forall k, k ∈ dict_keys allFuncs <-> k ∈ dict_keys cp.
Proof.
  unfold unify. rewrite bind_get.
  generalize (rank (gcomm s)) as me. intros me.
  assert (forall l acc (s0 s1 : multiPointSparse) t r,
            foldM (fun allFuncs kr =>
                     tmp <- (if Nat.eqb (snd kr) me then
                               res <- unwrap res (UnboundLocalError "res") ;;
                               v <- unwrap (dict_get res (fst kr)) (KeyError (fst kr)) ;;
                               bcast env (gcomm s) (TagKey (fst kr)) v (snd kr)
                             else bcast env (gcomm s) (TagKey (fst kr)) VNone (snd kr)) ;;
                     ret (dict_set allFuncs (fst kr) tmp)) l acc s0 = (s1, t, inr r) ->
            forall k, k ∈ dict_keys r <-> k ∈ dict_keys acc \/ k ∈ dict_keys l) as H.
  { induction l as [|[key root] l IH]; intros acc s0 s1 t r Hrun k.
    - injection Hrun as _ _ <-. cbn. rewrite elem_of_nil. tauto.
    - cbn [foldM] in Hrun.
      apply bind_inr_inv in Hrun as (s2 & t1 & a & t2 & Hf & Hrest & _).
      apply bind_inr_inv in Hf as (s3 & t3 & v & t4 & Hv & Hret & _).
      injection Hret as _ _ <-.
      rewrite (IH _ _ _ _ _ Hrest k), dict_keys_set_iff. cbn [dict_keys map fst].
      rewrite elem_of_cons. tauto. }
  intros Hrun k. rewrite (H _ _ _ _ _ _ Hrun k). cbn. rewrite elem_of_nil. tauto.
Qed.

Lemma unify_emits_bcast env res cp :
  emits (fun e => is_objcon e = false) (unify env res cp).
Proof. unfold unify, bcast. emits_tac. Qed.

Lemma reduce_fail_emits env res :
  emits (fun e => is_objcon e = false) (reduce_fail env res).
Proof. unfold reduce_fail, allreduce. emits_tac. Qed.

Lemma discover_pattern_emits env res :
  emits (fun e => is_objcon e = false) (discover_pattern env res).
Proof. unfold discover_pattern, allgather. emits_tac. Qed.

(** What discover_pattern leaves of the object: everything but the pattern. *)
Lemma discover_pattern_final env res s :
  final (discover_pattern env res s) = s \/
  exists cp, final (discover_pattern env res s) = set_commPattern s (Some cp).
Proof.
  unfold discover_pattern. rewrite bind_get.
  destruct (commPattern s); [now left|].
  destruct res as [res|]; [|now left].
  right. eexists. reflexivity.
Qed.

(** setOptProb keeps the names of the constraints that are not linear. *)
Lemma setOptProb_conKeys (optProb : Optimization) (s : multiPointSparse) :
  exists ck, conKeys (final (setOptProb optProb s)) = Some ck /\
    forall k, k ∈ ck <-> exists c, (k, c) ∈ constraints optProb /\ linear c = false.
Proof.
  unfold setOptProb. eexists. split; [reflexivity|].
  intros k. rewrite elem_of_list_to_set.
  set (f := fun (conKeys : list string) (kc : string * constraintT) =>
              if linear (snd kc) then conKeys else conKeys ++ [fst kc]).
  assert (forall l acc, k ∈ fold_left f l acc <->
            k ∈ acc \/ exists c, (k, c) ∈ l /\ linear c = false) as H.
  { induction l as [|[k' c'] l IH]; intros acc; cbn [fold_left].
    - split; [now left | intros [H|(c & Hc & _)]; [done | now apply elem_of_nil in Hc]].
    - rewrite IH. unfold f. cbn [fst snd]. split.
      + intros [Hk|(c & Hc & Hl)].
        * destruct (linear c') eqn:E; [now left|].
          apply elem_of_app in Hk as [Hk|Hk]; [now left|].
          apply list_elem_of_singleton in Hk. subst. right. exists c'. split; [left | done].
        * right. exists c. split; [now right | done].
      + intros [Hk|(c & Hc & Hl)].
        * left. destruct (linear c'); [done | apply elem_of_app; now left].
        * apply elem_of_cons in Hc as [[= -> ->]|Hc].
          -- left. rewrite Hl. apply elem_of_app. right. now apply list_elem_of_singleton.
          -- right. now exists c. }
  rewrite H. split; [intros [Hk|Hk]; [now apply elem_of_nil in Hk | done] | now right].
Qed.

Lemma pure_run_state {St A} (m : M St A) s s' tr r :
  pure_state m -> m s = (s', tr, r) -> s' = s.
Proof. intros Hp Hrun. specialize (Hp s). now rewrite Hrun in Hp. Qed.

Lemma emits_run {St A} P (m : M St A) s s' tr r :
  emits P m -> m s = (s', tr, r) -> Forall P tr.
Proof. intros He Hrun. specialize (He s). now rewrite Hrun in He. Qed.

Lemma silent_run {St A} (m : M St A) s s' tr r :
  silent m -> m s = (s', tr, r) -> tr = [].
Proof. intros Hs Hrun. specialize (Hs s). now rewrite Hrun in Hs. Qed.

Lemma unwrap_inr_inv {St A} (o : option A) e (s s' : St) tr a :
  unwrap o e s = (s', tr, inr a) -> o = Some a /\ s' = s /\ tr = [].
Proof. destruct o; [now intros [= <- <- <-] | discriminate]. Qed.

Lemma lift_inr_inv {St A} (r : exn + A) (s s' : St) tr a :
  lift r s = (s', tr, inr a) -> r = inr a /\ s' = s /\ tr = [].
Proof. destruct r; [discriminate | now intros [= <- <- <-]]. Qed.

(** C7. When obj returns, the object holds: inputKeys = the names of the
    unified functionals (the keys of the snapshot self.funcs) minus conKeys,
    outputKeys = conKeys minus those names, passThroughKeys = their
    intersection -- conKeys being the names of the nonlinear constraints that
    setOptProb recorded.  So inputKeys and passThroughKeys are disjoint and
    together are all the unified names.  The combination function was called
    once in this obj, on a dictionary whose keys are inputKeys and whose
    values are those of the unified mapping. *)
Theorem obj_key_partition
    (env : peers) (x : pyval) (s s' : multiPointSparse) (tr : list event)
    (ret : pyval * pyval * pyval) :
  obj env x s = (s', tr, inr ret) ->
  exists (ck : gset string) (l : nat) (unified : dict pyval),
    conKeys s = Some ck /\ conKeys s' = Some ck /\
    funcs s' = Some l /\ heap s' !! l = Some unified /\
    let funckeys : gset string := list_to_set (dict_keys unified) in
    inputKeys s' = Some (funckeys ∖ ck) /\
    outputKeys s' = Some (ck ∖ funckeys) /\
    passThroughKeys s' = Some (funckeys ∩ ck) /\
    (funckeys ∖ ck) ## (funckeys ∩ ck) /\
    (funckeys ∖ ck) ∪ (funckeys ∩ ck) = funckeys /\
    exists inputFuncs,
      List.filter is_objcon tr = [EvObjCon inputFuncs] /\
      (forall k, k ∈ dict_keys inputFuncs <-> k ∈ funckeys ∖ ck) /\
      (forall k v, dict_get inputFuncs k = Some v -> dict_get unified k = Some v).
Proof.
  unfold obj. intros H.
  apply bind_inr_inv in H as (s1 & t1 & res & t2 & Hlocal & H & ->).
  apply bind_inr_inv in H as (s2 & t3 & [] & t4 & Hdisc & H & ->).
  pose proof (pure_run_state _ _ _ _ _ (obj_local_pure x) Hlocal) as ->.
  pose proof (silent_run _ _ _ _ _ (obj_local_silent x) Hlocal) as ->.
  pose proof (emits_run _ _ _ _ _ _ (discover_pattern_emits env res) Hdisc) as Ht3.
  assert (conKeys s2 = conKeys s /\ heap s2 = heap s /\ userObjCon s2 = userObjCon s)
    as (Hck & Hheap & Huser).
  { pose proof (discover_pattern_final env res s) as Hfin. rewrite Hdisc in Hfin.
    cbn [final fst] in Hfin. destruct Hfin as [->|[cp ->]]; done. }
  unfold obj_finish in H. rewrite bind_get in H.
  apply bind_inr_inv in H as (s3 & t5 & cp & t6 & Hcp & H & ->).
  apply unwrap_inr_inv in Hcp as (Hcp & -> & ->).
  apply bind_inr_inv in H as (s3 & t5 & allFuncs & t7 & Hunify & H & ->).
  pose proof (pure_run_state _ _ _ _ _ (unify_pure env res cp) Hunify) as ->.
  pose proof (emits_run _ _ _ _ _ _ (unify_emits_bcast env res cp) Hunify) as Ht5.
  apply bind_inr_inv in H as (s3 & t8 & fail & t9 & Hfail & H & ->).
  pose proof (pure_run_state _ _ _ _ _ (reduce_fail_pure env res) Hfail) as ->.
  pose proof (emits_run _ _ _ _ _ _ (reduce_fail_emits env res) Hfail) as Ht8.
  apply bind_inr_inv in H as (s3 & t10 & l & t11 & Halloc & H & ->).
  injection Halloc as <- <- <-.
  rewrite bind_modify in H.
  apply bind_inr_inv in H as (s3 & t12 & ck & t13 & Hcon & H & ->).
  apply unwrap_inr_inv in Hcon as (Hcon & -> & ->).
  rewrite bind_modify in H.
  apply bind_inr_inv in H as (s3 & t14 & inputFuncs & t15 & Hext & H & ->).
  pose proof (pure_run_state _ _ _ _ _ (extractKeys_pure _ _) Hext) as ->.
  pose proof (silent_run _ _ _ _ _ (extractKeys_silent _ _) Hext) as ->.
  apply extractKeys_spec in Hext as [Hkeys Hvals].
  apply bind_inr_inv in H as (s3 & t16 & f & t17 & Hf & H & ->).
  apply unwrap_inr_inv in Hf as (Hf & -> & ->).
  rewrite bind_emit in H.
  destruct (_ <- lift (f inputFuncs) ;; _) as [[s4 t18] r] eqn:Hrest in H.
  injection H as <- <- ->.
  apply bind_inr_inv in Hrest as (s3 & t19 & oc & t20 & Hoc & H & ->).
  apply lift_inr_inv in Hoc as (Hoc & -> & ->).
  unfold bcast in H. rewrite !bind_bind in H.
  repeat (rewrite ?bind_emit, ?bind_ret in H; cbn [with_trace final trace outcome fst snd] in H).
  injection H as <- <- _.
  exists ck, (length (heap s2)), allFuncs.
  split; [congruence|]. split; [cbn; congruence|]. split; [reflexivity|].
  split; [cbn [heap set_keys set_funcs set_heap]; now apply list_lookup_middle|].
  cbv zeta. split; [reflexivity|]. split; [reflexivity|]. split; [reflexivity|].
  split; [apply elem_of_disjoint; intros k; rewrite elem_of_difference,
    elem_of_intersection; tauto|]. split; [apply set_eq; intros k; rewrite elem_of_union,
    elem_of_difference, elem_of_intersection; destruct (decide (k ∈ ck)); tauto|].
  exists inputFuncs. split; [|split; [|exact Hvals]].
  - rewrite !List.filter_app.
    rewrite (filter_none _ _ Ht3), (filter_none _ _ Ht5), (filter_none _ _ Ht8).
    reflexivity.
  - intros k. rewrite Hkeys. apply elem_of_elements.
Qed.

Lemma obj_key_partition_witness :
  let r := obj alone VNone sample in
  exists (ck : gset string) (l : nat) (unified : dict pyval),
    conKeys sample = Some ck /\ conKeys (final r) = Some ck /\
    funcs (final r) = Some l /\ heap (final r) !! l = Some unified /\
    let funckeys : gset string := list_to_set (dict_keys unified) in
    inputKeys (final r) = Some (funckeys ∖ ck) /\
    outputKeys (final r) = Some (ck ∖ funckeys) /\
    passThroughKeys (final r) = Some (funckeys ∩ ck) /\
    (funckeys ∖ ck) ## (funckeys ∩ ck) /\
    (funckeys ∖ ck) ∪ (funckeys ∩ ck) = funckeys /\
    exists inputFuncs,
      List.filter is_objcon (trace r) = [EvObjCon inputFuncs] /\
      (forall k, k ∈ dict_keys inputFuncs <-> k ∈ funckeys ∖ ck) /\
      (forall k v, dict_get inputFuncs k = Some v -> dict_get unified k = Some v).
Proof.
  intros r.
  apply (obj_key_partition alone VNone sample (final r) (trace r)
           (VFloat 7, VDict [("c", VFloat 12)], VBool false)).
  vm_compute. reflexivity.
Defined.

(** ** The ownership pattern *)

Lemma note_keys_lookup (i : nat) (ks : list string) (cp : dict nat) (key : string) :
  dict_get
    (fold_left (fun commPattern key =>
                  if negb (dict_mem commPattern key) then
                    if negb (String.eqb key "fail")
                    then dict_set commPattern key i
                    else commPattern
                  else commPattern) ks cp) key
  = match dict_get cp key with
    | Some j => Some j
    | None => if bool_decide (key ∈ ks) && negb (String.eqb key "fail")
              then Some i else None
    end.
Proof.
  revert cp. induction ks as [|k ks IH]; intros cp; cbn [fold_left].
  - now destruct (dict_get cp key).
  - rewrite IH. unfold dict_mem.
    destruct (decide (k = key)) as [->|Hne].
    + rewrite (bool_decide_eq_true_2 (key ∈ key :: ks)) by apply list_elem_of_here.
      destruct (dict_get cp key) as [j|] eqn:E; cbn [negb]; [now rewrite E|].
      destruct (String.eqb key "fail") eqn:Ef; cbn [negb andb].
      * rewrite E. now rewrite andb_false_r.
      * now rewrite dict_get_set_eq.
    + assert (bool_decide (key ∈ k :: ks) = bool_decide (key ∈ ks)) as ->.
      { apply bool_decide_ext. rewrite elem_of_cons. split; [intros [?|?]; congruence | auto]. }
      destruct (dict_get cp k); cbn [negb]; [reflexivity|].
      destruct (String.eqb k "fail"); cbn [negb]; [reflexivity|].
      now rewrite dict_get_set_ne.
Qed.

Lemma discover_lookup (allKeys : list (list string)) (key : string) :
  dict_get (discover allKeys) key
  = if String.eqb key "fail" then None else first_owner key allKeys 0.
Proof.
  unfold discover.
  assert (forall l a cp,
            dict_get
              (fold_left (fun commPattern ik =>
                            fold_left (fun commPattern key =>
                                         if negb (dict_mem commPattern key) then
                                           if negb (String.eqb key "fail")
                                           then dict_set commPattern key (fst ik)
                                           else commPattern
                                         else commPattern)
                                      (snd ik) commPattern)
                         (combine (seq a (length l)) l) cp) key
            = match dict_get cp key with
              | Some j => Some j
              | None => if String.eqb key "fail" then None else first_owner key l a
              end) as H.
  { induction l as [|ks l IH]; intros a cp; cbn [length seq combine fold_left first_owner].
    - destruct (dict_get cp key); [reflexivity | now destruct (String.eqb key "fail")].
    - rewrite IH. cbn [fst snd]. rewrite note_keys_lookup.
      destruct (dict_get cp key); [reflexivity|].
      destruct (bool_decide (key ∈ ks)), (String.eqb key "fail"); reflexivity. }
  rewrite H. reflexivity.
Qed.

Lemma first_owner_Some key allKeys a i :
  first_owner key allKeys a = Some i <->
  (a <= i)%nat /\
  (exists ks, allKeys !! (i - a)%nat = Some ks /\ key ∈ ks) /\
  (forall j ks, (j < i - a)%nat -> allKeys !! j = Some ks -> key ∉ ks).
Proof.
  revert a. induction allKeys as [|ks0 rest IH]; intros a; cbn [first_owner].
  - split; [discriminate|]. intros (_ & (ks & Hks & _) & _). now rewrite lookup_nil in Hks.
  - destruct (bool_decide_reflect (key ∈ ks0)) as [Hin|Hout].
    + split.
      * intros [= <-]. rewrite Nat.sub_diag. split; [lia|]. split; [now exists ks0|].
        intros j ks Hj. lia.
      * intros (Hle & (ks & Hks & Hk) & Hfirst).
        destruct (decide (i = a)) as [->|Hne]; [reflexivity|].
        exfalso. apply (Hfirst 0%nat ks0); [lia | reflexivity | exact Hin].
    + rewrite IH. split.
      * intros (Hle & (ks & Hks & Hk) & Hfirst). split; [lia|]. split.
        -- exists ks. split; [|done]. replace (i - a)%nat with (S (i - S a)) by lia. exact Hks.
        -- intros [|j] ks' Hj Hks'; [now injection Hks' as <-|].
           apply (Hfirst j ks'); [lia | exact Hks'].
      * intros (Hle & (ks & Hks & Hk) & Hfirst).
        assert (i <> a) as Hne.
        { intros ->. rewrite Nat.sub_diag in Hks. injection Hks as <-. contradiction. }
        split; [lia|]. split.
        -- exists ks. split; [|done]. replace (i - a)%nat with (S (i - S a)) in Hks by lia.
           exact Hks.
        -- intros j ks' Hj Hks'. apply (Hfirst (S j) ks'); [lia | exact Hks'].
Qed.

(** ** Computations that keep the pattern *)

Lemma keeps_pure {A} (m : M multiPointSparse A) : pure_state m -> keeps_pattern m.
Proof. intros H s. now rewrite H. Qed.
Lemma keeps_bind {A B} (m : M multiPointSparse A) (k : A -> M multiPointSparse B) :
  keeps_pattern m -> (forall a, keeps_pattern (k a)) -> keeps_pattern (bind m k).
Proof.
  intros Hm Hk s. rewrite bind_final.
  destruct (outcome (m s)); [apply Hm | now rewrite Hk, Hm].
Qed.
Lemma keeps_foldM {A B} (f : A -> B -> M multiPointSparse A) l acc :
  (forall a x, keeps_pattern (f a x)) -> keeps_pattern (foldM f l acc).
Proof.
  intros Hf. revert acc. induction l as [|x l IH]; intros acc; [now intros s|].
  apply keeps_bind; auto.
Qed.
Lemma keeps_modify (f : multiPointSparse -> multiPointSparse) :
  (forall s, commPattern (f s) = commPattern s) -> keeps_pattern (modify f).
Proof. intros H s. apply H. Qed.

Ltac keeps_tac :=
  repeat first
    [ apply keeps_pure; solve [pure_tac]
    | apply keeps_modify; intros ?; reflexivity
    | apply keeps_bind; [|intros ?]
    | apply keeps_foldM; intros ? ?
    | match goal with
      | |- keeps_pattern (if ?b then _ else _) => destruct b
      | |- keeps_pattern (match ?x with _ => _ end) => destruct x
      end
    | progress cbv beta zeta ].

Lemma alloc_keeps d : keeps_pattern (alloc d).
Proof. now intros s. Qed.
Lemma store_keeps l d : keeps_pattern (store l d).
Proof. now intros s. Qed.
Lemma deref_pure l : pure_state (deref l).
Proof. unfold deref. pure_tac. Qed.

Lemma obj_finish_keeps env res : keeps_pattern (obj_finish env res).
Proof.
  unfold obj_finish.
  apply keeps_bind; [apply keeps_pure, pure_get | intros self].
  apply keeps_bind; [apply keeps_pure, pure_unwrap | intros cp].
  apply keeps_bind; [apply keeps_pure, unify_pure | intros allFuncs].
  apply keeps_bind; [apply keeps_pure, reduce_fail_pure | intros fail].
  apply keeps_bind; [apply alloc_keeps | intros l].
  apply keeps_bind; [now apply keeps_modify | intros _].
  apply keeps_bind; [apply keeps_pure, pure_unwrap | intros ck].
  apply keeps_bind; [now apply keeps_modify | intros _].
  apply keeps_pure. unfold bcast. pure_tac; try apply extractKeys_pure.
Qed.

(** ** sens keeps the pattern *)

Lemma getitem_pure funcs key : pure_state (getitem funcs key).
Proof. unfold getitem, deref. pure_tac. Qed.

Lemma setitem_keeps funcs key v : keeps_pattern (setitem funcs key v).
Proof. unfold setitem, deref, store. keeps_tac. Qed.

Lemma call_userObjCon_pure funcs : pure_state (call_userObjCon funcs).
Proof. unfold call_userObjCon, deref. pure_tac. Qed.

Lemma as_dict_pure {St} v : pure_state (@as_dict St v).
Proof. unfold as_dict. pure_tac. Qed.

Lemma ndvs_of_pure {St} op dvSet : pure_state (@ndvs_of St op dvSet).
Proof. unfold ndvs_of. pure_tac. Qed.

Lemma chain_obj_pure obj sensI pick gobj : pure_state (chain_obj obj sensI pick gobj).
Proof. unfold chain_obj. pure_tac. Qed.

Lemma chain_con_pure con sensI pick gcon : pure_state (chain_con con sensI pick gcon).
Proof. unfold chain_con. pure_tac; try apply as_dict_pure. Qed.

Lemma zero_blocks_pure gcon : pure_state (zero_blocks gcon).
Proof. unfold zero_blocks. pure_tac; try apply ndvs_of_pure. Qed.

Lemma zero_gobj_pure : pure_state zero_gobj.
Proof. unfold zero_gobj. pure_tac; try apply ndvs_of_pure. Qed.

Lemma complexifyFuncs_keeps funcs keys : keeps_pattern (_complexifyFuncs funcs keys).
Proof. unfold _complexifyFuncs, deref, store. keeps_tac. Qed.

Lemma len_pure {St} v : pure_state (@len St v).
Proof. unfold len. pure_tac. Qed.

Ltac keeps_sens :=
  repeat first
    [ apply setitem_keeps | apply complexifyFuncs_keeps | apply store_keeps
    | apply keeps_pure;
      first [ apply getitem_pure | apply call_userObjCon_pure | apply as_dict_pure
            | apply chain_obj_pure | apply chain_con_pure | apply len_pure
            | apply unify_pure | apply reduce_fail_pure | apply zero_blocks_pure
            | apply zero_gobj_pure | apply bcast_pure | apply extractKeys_pure
            | apply deref_pure | solve [pure_tac] ]
    | apply keeps_bind; [|intros ?]
    | apply keeps_foldM; intros ? ?
    | match goal with
      | |- keeps_pattern (if ?b then _ else _) => destruct b
      | |- keeps_pattern (match ?x with _ => _ end) => destruct x
      end
    | progress cbv beta zeta ].

Lemma sens_scalar_keeps funcs funcSens iKey g :
  keeps_pattern (sens_scalar funcs funcSens iKey g).
Proof. unfold sens_scalar. keeps_sens. Qed.

Lemma sens_vector_keeps funcs funcSens iKey g :
  keeps_pattern (sens_vector funcs funcSens iKey g).
Proof. unfold sens_vector. keeps_sens. Qed.

Lemma sens_finish_keeps env res : keeps_pattern (sens_finish env res).
Proof.
  unfold sens_finish.
  repeat first [ apply sens_scalar_keeps | apply sens_vector_keeps | progress keeps_sens ].
Qed.

(** ** The schedule of the broadcasts *)

Lemma schedule_app t1 t2 : schedule (t1 ++ t2) = schedule t1 ++ schedule t2.
Proof. unfold schedule. apply flat_map_app. Qed.

Lemma schedule_unscheduled tr : Forall unscheduled tr -> schedule tr = [].
Proof.
  induction 1 as [|e tr He _ IH]; [reflexivity|].
  change (e :: tr) with ([e] ++ tr). now rewrite schedule_app, He, IH.
Qed.

Lemma follows_quiet {A} (m : M multiPointSparse A) s :
  emits unscheduled m -> follows [] m s.
Proof.
  intros He. unfold follows. rewrite (schedule_unscheduled _ (He s)). split; [done | auto].
Qed.

Lemma follows_bind {A B} L1 L2 (m : M multiPointSparse A) (k : A -> M multiPointSparse B) s :
  follows L1 m s ->
  (forall a, outcome (m s) = inr a -> follows L2 (k a) (final (m s))) ->
  follows (L1 ++ L2) (bind m k) s.
Proof.
  intros [Hpre Hall] Hk. unfold follows.
  rewrite bind_trace, bind_outcome, schedule_app.
  destruct (outcome (m s)) as [e|a] eqn:Ho.
  - cbn. rewrite app_nil_r. split; [now apply prefix_app_r | discriminate].
  - rewrite (Hall a eq_refl). destruct (Hk a eq_refl) as [Hpre' Hall']. split.
    + now apply prefix_app.
    + intros b Hb. now rewrite (Hall' b Hb).
Qed.

Lemma follows_bind_quiet {A B} L (m : M multiPointSparse A) (k : A -> M multiPointSparse B) s :
  emits unscheduled m ->
  (forall a, outcome (m s) = inr a -> follows L (k a) (final (m s))) ->
  follows L (bind m k) s.
Proof. intros Hm Hk. apply (follows_bind [] L); [now apply follows_quiet | done]. Qed.

Lemma follows_bcast env g tag v root s :
  follows [Some root] (bcast env g tag v root) s.
Proof. unfold follows. cbn. split; [done | auto]. Qed.

Lemma follows_ret {A} (a : A) s : follows [] (ret a) s.
Proof. unfold follows. cbn. split; [done | auto]. Qed.

Lemma follows_bind_get {B} L (k : multiPointSparse -> M multiPointSparse B) s :
  follows L (k s) s -> follows L (bind get k) s.
Proof. unfold follows. now rewrite bind_get. Qed.

Lemma follows_unify env res cp s : follows (pattern_schedule cp) (unify env res cp) s.
Proof.
  unfold unify. apply follows_bind_get.
  generalize (@nil (string * pyval)) as acc. generalize (gcomm s) as g. revert s.
  induction cp as [|[key root] cp IH]; intros s g acc; [apply follows_ret|].
  cbn [foldM pattern_schedule map snd fst].
  apply (follows_bind [Some root]); [|intros a _; apply IH].
  rewrite <- (app_nil_r [Some root]). apply follows_bind; [|intros; apply follows_ret].
  destruct (Nat.eqb root (rank g)).
  - apply follows_bind_quiet; [emits_tac|]. intros r _.
    apply follows_bind_quiet; [emits_tac|]. intros v _. apply follows_bcast.
  - apply follows_bcast.
Qed.

Lemma reduce_fail_quiet env res : emits unscheduled (reduce_fail env res).
Proof. unfold reduce_fail, allreduce. emits_tac. Qed.

Lemma extractKeys_quiet {St} funcs keys : emits unscheduled (@_extractKeys St funcs keys).
Proof. apply silent_emits, extractKeys_silent. Qed.

Lemma three_bcasts {R} env g t1 t2 t3 a b c (tail : pyval -> pyval -> pyval -> R) s :
  follows [Some 0%nat; Some 0%nat; Some 0%nat]
    (x <- bcast env g t1 a 0 ;; y <- bcast env g t2 b 0 ;;
     z <- bcast env g t3 c 0 ;; ret (tail x y z)) s.
Proof. unfold follows. cbn. split; [done | auto]. Qed.

Lemma obj_finish_follows env res s cp :
  commPattern s = Some cp ->
  follows (pattern_schedule cp ++ [Some 0%nat; Some 0%nat; Some 0%nat])
          (obj_finish env res) s.
Proof.
  intros Hcp. unfold obj_finish. apply follows_bind_get. rewrite Hcp.
  apply follows_bind_quiet; [emits_tac | intros cp' Hcp'].
  injection Hcp' as <-.
  apply follows_bind; [apply follows_unify | intros allFuncs _].
  apply follows_bind_quiet; [apply reduce_fail_quiet | intros fail _].
  apply follows_bind_quiet; [unfold alloc; emits_tac | intros l _].
  apply follows_bind_quiet; [emits_tac | intros _ _].
  apply follows_bind_quiet; [emits_tac | intros ck _].
  apply follows_bind_quiet; [emits_tac | intros _ _].
  apply follows_bind_quiet; [apply extractKeys_quiet | intros inputFuncs _].
  apply follows_bind_quiet; [emits_tac | intros f _].
  apply follows_bind_quiet; [emits_tac | intros _ _].
  apply follows_bind_quiet; [emits_tac | intros oc _].
  apply (three_bcasts env (gcomm s) _ _ _ _ _ _ (fun x y z => (x, y, z))).
Qed.

Ltac quiet_tac :=
  unfold _complexifyFuncs, _extractKeys, zero_blocks, zero_gobj, sens_scalar, sens_vector,
    chain_obj, chain_con, getitem, setitem, call_userObjCon, deref, store, alloc,
    as_dict, ndvs_of, len;
  emits_tac.

Lemma complexifyFuncs_quiet funcs keys : emits unscheduled (_complexifyFuncs funcs keys).
Proof. quiet_tac. Qed.

Lemma zero_blocks_quiet gcon : emits unscheduled (zero_blocks gcon).
Proof. quiet_tac. Qed.

Lemma zero_gobj_quiet : emits unscheduled zero_gobj.
Proof. quiet_tac. Qed.

Lemma sens_scalar_quiet funcs funcSens iKey g :
  emits unscheduled (sens_scalar funcs funcSens iKey g).
Proof. quiet_tac. Qed.

Lemma sens_vector_quiet funcs funcSens iKey g :
  emits unscheduled (sens_vector funcs funcSens iKey g).
Proof. quiet_tac. Qed.

Lemma sens_finish_follows env res s cp :
  commPattern s = Some cp ->
  follows (pattern_schedule cp ++ [Some 0%nat; Some 0%nat; Some 0%nat])
          (sens_finish env res) s.
Proof.
  intros Hcp. unfold sens_finish. apply follows_bind_get. rewrite Hcp.
  apply follows_bind_quiet; [emits_tac | intros cp' Hcp'].
  injection Hcp' as <-.
  apply follows_bind; [apply follows_unify | intros funcSens _].
  apply follows_bind_quiet; [apply reduce_fail_quiet | intros fail _].
  apply follows_bind_quiet; [apply complexifyFuncs_quiet | intros funcs1 _].
  apply follows_bind_quiet; [emits_tac | intros inputKeys _].
  apply follows_bind_quiet; [quiet_tac | intros _ _].
  apply follows_bind_quiet; [emits_tac | intros passThroughKeys _].
  apply follows_bind_quiet; [emits_tac | intros gcon _].
  apply follows_bind_quiet; [apply zero_blocks_quiet | intros gcon1 _].
  apply follows_bind_quiet; [apply complexifyFuncs_quiet | intros funcs2 _].
  apply follows_bind_quiet; [apply zero_gobj_quiet | intros gobj _].
  apply follows_bind_quiet; [apply zero_blocks_quiet | intros gcon2 _].
  apply follows_bind_quiet; [| intros g _].
  { apply emits_foldM. intros a iKey.
    apply emits_bind; [quiet_tac | intros v].
    destruct (isscalar v); [apply sens_scalar_quiet | apply sens_vector_quiet]. }
  apply (three_bcasts env (gcomm s) _ _ _ _ _ _ (fun x y z => (x, y, z))).
Qed.

Lemma discover_pattern_later env res s cp :
  commPattern s = Some cp -> discover_pattern env res s = (s, [], inr tt).
Proof. intros H. unfold discover_pattern. rewrite bind_get, H. reflexivity. Qed.

Lemma discover_pattern_first env res s :
  commPattern s = None ->
  discover_pattern env (Some res) s
  = (set_commPattern s (Some (discover (gathered env (gcomm s) (dict_keys res)))),
     [EvAllgather (dict_keys res)], inr tt).
Proof. intros H. unfold discover_pattern. rewrite bind_get, H. reflexivity. Qed.

Lemma obj_later env x s cp :
  commPattern s = Some cp ->
  commPattern (final (obj env x s)) = Some cp /\
  follows (pattern_schedule cp ++ [Some 0%nat; Some 0%nat; Some 0%nat]) (obj env x) s.
Proof.
  intros Hcp. split.
  - unfold obj. rewrite bind_final, (obj_local_pure x s).
    destruct (outcome (obj_local x s)) as [e|res]; [done|].
    rewrite bind_final, (discover_pattern_later env res s cp Hcp). cbn [outcome final fst snd].
    now rewrite obj_finish_keeps.
  - unfold obj.
    apply follows_bind_quiet; [apply silent_emits, obj_local_silent | intros res _].
    rewrite (obj_local_pure x s).
    apply (follows_bind [] (pattern_schedule cp ++ [Some 0%nat; Some 0%nat; Some 0%nat])).
    + unfold follows. rewrite (discover_pattern_later env res s cp Hcp). cbn. split; [done | auto].
    + intros [] _. rewrite (discover_pattern_later env res s cp Hcp). cbn [final fst].
      now apply obj_finish_follows.
Qed.

Lemma sens_later env x fObj fCon s cp :
  commPattern s = Some cp ->
  commPattern (final (sens env x fObj fCon s)) = Some cp /\
  follows (pattern_schedule cp ++ [Some 0%nat; Some 0%nat; Some 0%nat])
          (sens env x fObj fCon) s.
Proof.
  intros Hcp. split.
  - unfold sens. rewrite bind_final, (sens_local_pure x fObj fCon s).
    destruct (outcome (sens_local x fObj fCon s)) as [e|res]; [done|].
    now rewrite sens_finish_keeps.
  - unfold sens.
    apply follows_bind_quiet; [apply silent_emits, sens_local_silent | intros res _].
    rewrite (sens_local_pure x fObj fCon s). now apply sens_finish_follows.
Qed.

Lemma obj_first env x s res :
  commPattern s = None ->
  outcome (obj_local x s) = inr (Some res) ->
  commPattern (final (obj env x s))
  = Some (discover (gathered env (gcomm s) (dict_keys res))) /\
  head (schedule (trace (obj env x s))) = Some None.
Proof.
  intros Hcp Hres. unfold obj. split.
  - rewrite bind_final, Hres, (obj_local_pure x s).
    rewrite bind_final, (discover_pattern_first env res s Hcp). cbn [outcome final fst snd].
    now rewrite obj_finish_keeps.
  - rewrite bind_trace, Hres, (obj_local_pure x s), (obj_local_silent x s).
    rewrite bind_trace, (discover_pattern_first env res s Hcp). reflexivity.
Qed.

(** C3. The pattern [discover] builds from the gathered key lists maps a
    key to rank i exactly when the key is not 'fail', the list of rank i
    holds it and the list of no lower rank does.  On a first obj (no
    pattern yet, the local result is bound) the pattern stored is the one
    discovered from the allgather of the local keys, and that allgather is
    the first scheduled call.  Once a pattern is stored, obj and sens leave
    it as it is, whatever their outcome, and their scheduled collective
    calls are one broadcast per key of the pattern, rooted at its owner and
    in the order of the pattern, then three broadcasts from rank 0 -- a
    prefix of this list when the call raises; no allgather is among them. *)
Theorem commPattern_built_once :
  (forall (allKeys : list (list string)) (key : string) (i : nat),
     dict_get (discover allKeys) key = Some i <->
     key <> "fail" /\
     (exists ks, allKeys !! i = Some ks /\ key ∈ ks) /\
     (forall j ks, (j < i)%nat -> allKeys !! j = Some ks -> key ∉ ks)) /\
  (forall (env : peers) (x : pyval) (s : multiPointSparse) (res : dict pyval),
     commPattern s = None ->
     outcome (obj_local x s) = inr (Some res) ->
     commPattern (final (obj env x s))
     = Some (discover (gathered env (gcomm s) (dict_keys res))) /\
     head (schedule (trace (obj env x s))) = Some None) /\
  (forall (env : peers) (x : pyval) (s : multiPointSparse) (cp : dict nat),
     commPattern s = Some cp ->
     let L := map (fun kr => Some (snd kr)) cp ++ [Some 0%nat; Some 0%nat; Some 0%nat] in
     commPattern (final (obj env x s)) = Some cp /\
     schedule (trace (obj env x s)) `prefix_of` L /\
     (forall r, outcome (obj env x s) = inr r -> schedule (trace (obj env x s)) = L)) /\
  (forall (env : peers) (x fObj fCon : pyval) (s : multiPointSparse) (cp : dict nat),
     commPattern s = Some cp ->
     let L := map (fun kr => Some (snd kr)) cp ++ [Some 0%nat; Some 0%nat; Some 0%nat] in
     commPattern (final (sens env x fObj fCon s)) = Some cp /\
     schedule (trace (sens env x fObj fCon s)) `prefix_of` L /\
     (forall r, outcome (sens env x fObj fCon s) = inr r ->
                schedule (trace (sens env x fObj fCon s)) = L)).
Proof.
  split; [|split; [|split]].
  - intros allKeys key i. rewrite discover_lookup.
    destruct (String.eqb_spec key "fail") as [->|Hne].
    + split; [discriminate | intros [H _]; congruence].
    + rewrite first_owner_Some, Nat.sub_0_r. split.
      * intros (_ & Hks & Hfirst). split; [done|]. split; [done|].
        intros j ks Hj. apply Hfirst. lia.
      * intros (_ & Hks & Hfirst). split; [lia|]. split; [done|].
        intros j ks Hj. apply Hfirst. lia.
  - intros env x s res Hcp Hres. now apply obj_first.
  - intros env x s cp Hcp L. destruct (obj_later env x s cp Hcp) as [Hkeep [Hpre Hall]].
    split; [done|]. split; [exact Hpre | exact Hall].
  - intros env x fObj fCon s cp Hcp L.
    destruct (sens_later env x fObj fCon s cp Hcp) as [Hkeep [Hpre Hall]].
    split; [done|]. split; [exact Hpre | exact Hall].
Qed.

Lemma commPattern_built_once_witness :
  let first := obj alone VNone sample in
  let later := obj alone VNone (final first) in
  let grad := sens alone VNone VNone VNone (final later) in
  dict_get (discover [["b"; "fail"]; ["a"; "b"; "fail"]]) "a" = Some 1%nat /\
  commPattern (final first) = Some (discover [["a"; "b"; "fail"]]) /\
  commPattern (final later) = Some [("a", 0%nat); ("b", 0%nat)] /\
  schedule (trace later) = [Some 0; Some 0; Some 0; Some 0; Some 0]%nat /\
  commPattern (final grad) = Some [("a", 0%nat); ("b", 0%nat)] /\
  schedule (trace grad) = [Some 0; Some 0; Some 0; Some 0; Some 0]%nat.
Proof.
  intros first later grad.
  destruct commPattern_built_once as (Hdisc & Hfirst & Hobj & Hsens).
  split; [|split; [|split; [|split; [|split]]]].
  - apply Hdisc. split; [discriminate|]. split.
    + exists ["a"; "b"; "fail"]. split; [reflexivity|]. apply (bool_decide_unpack _). vm_compute. exact I.
    + intros [|j] ks Hj Hks; [|lia]. injection Hks as <-.
      apply (bool_decide_unpack _). vm_compute. exact I.
  - apply (Hfirst alone VNone sample [("a", VFloat 3); ("b", VFloat 4); ("fail", VBool false)]);
      vm_compute; reflexivity.
  - apply (Hobj alone VNone (final first) [("a", 0%nat); ("b", 0%nat)]). vm_compute. reflexivity.
  - destruct (Hobj alone VNone (final first) [("a", 0%nat); ("b", 0%nat)]) as (_ & _ & Hall);
      [vm_compute; reflexivity|].
    apply (Hall (VFloat 7, VDict [("c", VFloat 12)], VBool false)). vm_compute. reflexivity.
  - apply (Hsens alone VNone VNone VNone (final later) [("a", 0%nat); ("b", 0%nat)]).
    vm_compute. reflexivity.
  - destruct (Hsens alone VNone VNone VNone (final later) [("a", 0%nat); ("b", 0%nat)])
      as (_ & _ & Hall); [vm_compute; reflexivity|].
    apply (Hall (VDict [("x", VArray [1; 1]%float)],
                 VDict [("c", VDict [("x", VMatrix [[4; 3]]%float)])], VBool false)).
    vm_compute. reflexivity.
Defined.

(** ** A key that is not in the pattern *)

Lemma bind_ext {St A B} (m m' : M St A) (k k' : A -> M St B) s :
  m s = m' s -> (forall a s1, k a s1 = k' a s1) -> bind m k s = bind m' k' s.
Proof.
  intros Hm Hk. unfold bind. rewrite Hm.
  destruct (m' s) as [[s1 t1] [e|a]]; [reflexivity | now rewrite Hk].
Qed.

Lemma foldM_ext_in {St A B} (f g : A -> B -> M St A) l :
  (forall acc x s, x ∈ l -> f acc x s = g acc x s) ->
  forall acc s, foldM f l acc s = foldM g l acc s.
Proof.
  induction l as [|x l IH]; intros Hfg acc s; [reflexivity|].
  cbn [foldM]. apply bind_ext.
  - apply Hfg, list_elem_of_here.
  - intros a s1. apply IH. intros acc' y s' Hy. apply Hfg. now apply list_elem_of_further.
Qed.

Lemma unify_agree env res res' cp s :
  (forall key, key ∈ dict_keys cp -> dict_get res' key = dict_get res key) ->
  unify env (Some res') cp s = unify env (Some res) cp s.
Proof.
  intros Hagree. unfold unify. rewrite !bind_get. apply foldM_ext_in.
  intros acc [key root] s0 Hin. cbn [fst snd unwrap].
  destruct (Nat.eqb root (rank (gcomm s))); [|reflexivity].
  apply bind_ext; [|reflexivity]. rewrite !bind_ret, (Hagree key); [reflexivity|].
  unfold dict_keys. apply list_elem_of_fmap. now exists (key, root).
Qed.

Lemma reduce_fail_agree env res res' s :
  dict_get res' "fail" = dict_get res "fail" ->
  reduce_fail env (Some res') s = reduce_fail env (Some res) s.
Proof. intros H. unfold reduce_fail. cbn [unwrap]. now rewrite !bind_ret, H. Qed.

(** obj and sens read of the local result the keys of the pattern and
    'fail', nothing else. *)
Lemma obj_finish_agree env res res' s cp :
  commPattern s = Some cp ->
  (forall key, key ∈ dict_keys cp \/ key = "fail" -> dict_get res' key = dict_get res key) ->
  obj_finish env (Some res') s = obj_finish env (Some res) s.
Proof.
  intros Hcp Hagree. unfold obj_finish. rewrite !bind_get, Hcp. cbn [unwrap].
  rewrite !bind_ret. apply bind_ext; [apply unify_agree; auto|].
  intros allFuncs s1. apply bind_ext; [apply reduce_fail_agree; auto | reflexivity].
Qed.

Lemma sens_finish_agree env res res' s cp :
  commPattern s = Some cp ->
  (forall key, key ∈ dict_keys cp \/ key = "fail" -> dict_get res' key = dict_get res key) ->
  sens_finish env (Some res') s = sens_finish env (Some res) s.
Proof.
  intros Hcp Hagree. unfold sens_finish. rewrite !bind_get, Hcp. cbn [unwrap].
  rewrite !bind_ret. apply bind_ext; [apply unify_agree; auto|].
  intros allFuncs s1. apply bind_ext; [apply reduce_fail_agree; auto | reflexivity].
Qed.

Lemma obj_later_run env x s cp res :
  commPattern s = Some cp -> outcome (obj_local x s) = inr res ->
  obj env x s = obj_finish env res s.
Proof.
  intros Hcp Hres. unfold obj.
  rewrite (bind_inr _ _ s s [] res); last first.
  { rewrite (pure_silent_run _ s (obj_local_pure x) (obj_local_silent x)). now rewrite Hres. }
  rewrite with_trace_nil.
  rewrite (bind_inr _ _ s s [] tt) by now apply (discover_pattern_later env res s cp).
  apply with_trace_nil.
Qed.

Lemma sens_run env x fObj fCon s res :
  outcome (sens_local x fObj fCon s) = inr res ->
  sens env x fObj fCon s = sens_finish env res s.
Proof.
  intros Hres. unfold sens.
  rewrite (bind_inr _ _ s s [] res); last first.
  { rewrite (pure_silent_run _ s (sens_local_pure x fObj fCon) (sens_local_silent x fObj fCon)).
    now rewrite Hres. }
  apply with_trace_nil.
Qed.

(** C6, as the code has it.  Once a pattern is stored, what obj and sens do
    depends on the local result only through the keys of the pattern and
    'fail': with any other local result [res'] that agrees on those keys
    -- the same result without the new names, say -- the call returns the
    same value (or raises the same exception), with the same trace and the
    same final object.  And when obj returns, the unified mapping it stored
    has the keys of the pattern only.  A new name raises nothing; it is left
    out. *)
Theorem unregistered_key_ignored
    (env : peers) (x fObj fCon : pyval) (s : multiPointSparse) (cp : dict nat)
    (res res' : dict pyval) :
  commPattern s = Some cp ->
  (forall key, key ∈ dict_keys cp \/ key = "fail" -> dict_get res' key = dict_get res key) ->
  (outcome (obj_local x s) = inr (Some res) ->
   obj env x s = obj_finish env (Some res') s) /\
  (outcome (sens_local x fObj fCon s) = inr (Some res) ->
   sens env x fObj fCon s = sens_finish env (Some res') s) /\
  (forall s' tr r,
     obj env x s = (s', tr, inr r) ->
     exists unified, stored s' = Some unified /\
       forall key, key ∈ dict_keys unified <-> key ∈ dict_keys cp).
Proof.
  intros Hcp Hagree. split; [|split].
  - intros Hres. rewrite (obj_later_run env x s cp (Some res) Hcp Hres).
    symmetry. now apply (obj_finish_agree env res res' s cp).
  - intros Hres. rewrite (sens_run env x fObj fCon s (Some res) Hres).
    symmetry. now apply (sens_finish_agree env res res' s cp).
  - intros s' tr r Hrun.
    destruct (outcome (obj_local x s)) as [e|res0] eqn:Hres.
    { unfold obj in Hrun. apply bind_inr_inv in Hrun as (s1 & t1 & a & t2 & Hl & _).
      unfold outcome in Hres. rewrite Hl in Hres. discriminate. }
    rewrite (obj_later_run env x s cp res0 Hcp Hres) in Hrun.
    unfold obj_finish in Hrun. rewrite bind_get, Hcp in Hrun. cbn [unwrap] in Hrun.
    rewrite bind_ret in Hrun.
    apply bind_inr_inv in Hrun as (s3 & t5 & allFuncs & t7 & Hunify & H & ->).
    pose proof (pure_run_state _ _ _ _ _ (unify_pure env res0 cp) Hunify) as ->.
    apply bind_inr_inv in H as (s3 & t8 & fail & t9 & Hfail & H & ->).
    pose proof (pure_run_state _ _ _ _ _ (reduce_fail_pure env res0) Hfail) as ->.
    apply bind_inr_inv in H as (s3 & t10 & l & t11 & Halloc & H & ->).
    injection Halloc as <- <- <-.
    rewrite bind_modify in H.
    apply bind_inr_inv in H as (s3 & t12 & ck & t13 & Hcon & H & ->).
    apply unwrap_inr_inv in Hcon as (Hcon & -> & ->).
    rewrite bind_modify in H.
    apply bind_inr_inv in H as (s3 & t14 & inputFuncs & t15 & Hext & H & ->).
    pose proof (pure_run_state _ _ _ _ _ (extractKeys_pure _ _) Hext) as ->.
    assert (stored s' = Some allFuncs) as Hstored.
    { match type of H with
      | ?m _ = _ => assert (pure_state m) as Hp by (unfold bcast; pure_tac)
      end.
      rewrite (pure_run_state _ _ _ _ _ Hp H).
      unfold stored. cbn [funcs heap set_keys set_funcs set_heap].
      now apply list_lookup_middle. }
    exists allFuncs. split; [exact Hstored|].
    exact (unify_keys env res0 cp s s t5 allFuncs Hunify).
Qed.

Lemma unregistered_key_ignored_witness :
  let s := final (obj alone VNone growing_sample) in
  let x := VBool true in
  let cp := [("a", 0%nat); ("b", 0%nat)] in
  let res := [("a", VFloat 3); ("b", VFloat 4); ("z", VFloat 5); ("fail", VBool false)] in
  let res' := [("a", VFloat 3); ("b", VFloat 4); ("fail", VBool false)] in
  (outcome (obj_local x s) = inr (Some res) ->
   obj alone x s = obj_finish alone (Some res') s) /\
  (outcome (sens_local x VNone VNone s) = inr (Some res) ->
   sens alone x VNone VNone s = sens_finish alone (Some res') s) /\
  (forall s' tr r,
     obj alone x s = (s', tr, inr r) ->
     exists unified, stored s' = Some unified /\
       forall key, key ∈ dict_keys unified <-> key ∈ dict_keys cp).
Proof.
  intros s x cp res res'.
  apply (unregistered_key_ignored alone x VNone VNone s cp res res').
  - vm_compute. reflexivity.
  - intros key [Hkey| ->]; [|reflexivity].
    cbn in Hkey. apply elem_of_cons in Hkey as [->|Hkey]; [reflexivity|].
    apply elem_of_cons in Hkey as [->|Hkey]; [reflexivity|].
    now apply elem_of_nil in Hkey.
Defined.

(** C6 as the claim states it fails: the pattern frozen by the first pass
    has no 'z'; the second pass produces 'z'; obj returns as before, and the
    snapshot it stores has no 'z'. *)
Lemma new_key_raises_nothing :
  let first := obj alone VNone growing_sample in
  let later := obj alone (VBool true) (final first) in
  commPattern (final first) = Some [("a", 0%nat); ("b", 0%nat)] /\
  outcome (obj_local (VBool true) (final first))
  = inr (Some [("a", VFloat 3); ("b", VFloat 4); ("z", VFloat 5); ("fail", VBool false)]) /\
  outcome later = inr (VFloat 7, VDict [("c", VFloat 12)], VBool false) /\
  stored (final later) = Some [("a", VFloat 3); ("b", VFloat 4)].
Proof. repeat split; vm_compute; reflexivity. Qed.

(** ** Callbacks that return nothing *)

Lemma run_callbacks_loop_ok {St F} message (call : F -> pyval) fs :
  returns_dicts call fs ->
  forall acc, exists res, forall s : St,
    foldM (fun res func =>
             match call func with
             | VNone => raise (AssertionError message)
             | VDict tmp => ret (dict_update res tmp)
             | _ => raise (TypeError "cannot convert dictionary update sequence")
             end) fs acc s = (s, [], inr res).
Proof.
  induction 1 as [|f fs [d Hd] _ IH]; intros acc.
  - now exists acc.
  - destruct (IH (dict_update acc d)) as [res Hres]. exists res. intros s.
    cbn [foldM]. rewrite Hd, bind_ret. apply Hres.
Qed.

Lemma run_callbacks_ok {St F} message (call : F -> pyval) fs :
  returns_dicts call fs ->
  exists res, forall s : St, run_callbacks message call fs s = (s, [], inr res).
Proof.
  intros H. destruct (run_callbacks_loop_ok (St:=St) message call fs H []) as [res Hres].
  eexists. intros s. unfold run_callbacks.
  rewrite (bind_inr _ _ s s [] res) by apply Hres. reflexivity.
Qed.

Lemma run_callbacks_none {St F} message (call : F -> pyval) pre f post (s : St) :
  returns_dicts call pre -> call f = VNone ->
  run_callbacks message call (pre ++ f :: post) s = (s, [], inl (AssertionError message)).
Proof.
  intros Hpre Hf. unfold run_callbacks.
  destruct (run_callbacks_loop_ok (St:=St) message call pre Hpre []) as [res Hres].
  apply bind_inl. rewrite foldM_app.
  rewrite (bind_inr _ _ s s [] res) by apply Hres. rewrite with_trace_nil.
  cbn [foldM]. now rewrite Hf.
Qed.

Lemma bind_unwrap_Some {St A B} (a : A) e (k : A -> M St B) s :
  bind (unwrap (Some a) e) k s = k a s.
Proof. cbn [unwrap]. apply bind_ret. Qed.

Lemma obj_local_loop_ok flags x sets :
  sets_return_dicts flags x sets ->
  forall acc, exists res, forall s : multiPointSparse,
    foldM (fun res kp =>
             flags <- unwrap (Some flags) not_subscriptable ;;
             flag <- unwrap (dict_get flags (fst kp)) (KeyError (fst kp)) ;;
             if flag : bool then
               res <- run_callbacks (no_return_obj (fst kp))
                                    (fun func : objCallback => func x)
                                    (procSet.objFunc (snd kp)) ;;
               ret (Some res)
             else ret res) sets acc s = (s, [], inr res).
Proof.
  induction 1 as [|[k q] sets (b & Hb & Hq) _ IH]; intros acc.
  - now exists acc.
  - cbn [fst snd] in *. destruct b.
    + destruct (run_callbacks_ok (St:=multiPointSparse) (no_return_obj k)
                  (fun func : objCallback => func x) (procSet.objFunc q) (Hq eq_refl))
        as [r Hr].
      destruct (IH (Some r)) as [res Hres]. exists res. intros s.
      cbn [foldM fst snd]. rewrite bind_bind, bind_unwrap_Some, Hb.
      rewrite bind_bind, bind_unwrap_Some, bind_bind.
      rewrite (bind_inr _ _ s s [] r) by apply Hr. rewrite with_trace_nil, bind_ret.
      apply Hres.
    + destruct (IH acc) as [res Hres]. exists res. intros s.
      cbn [foldM fst snd]. rewrite bind_bind, bind_unwrap_Some, Hb.
      rewrite bind_bind, bind_unwrap_Some, bind_ret. apply Hres.
Qed.

(** C8, as the code has it.  A functional callback of an active set must
    return a dictionary, and the empty dictionary will do: when all of them
    do, the local phase of obj ends with a result.  When one returns None
    (those before it having returned dictionaries), obj raises an
    AssertionError whose message holds the name of the set, and nothing
    else has happened. *)
Theorem missing_return_raises :
  (forall (x : pyval) (s : multiPointSparse) (flags : dict bool),
     setFlags s = Some flags ->
     sets_return_dicts flags x (pSet s) ->
     exists res, obj_local x s = (s, [], inr res)) /\
  (forall (env : peers) (x : pyval) (s : multiPointSparse) (flags : dict bool)
          (front back : dict procSet.t) (key : string) (p : procSet.t)
          (pre post : list objCallback) (f : objCallback),
     setFlags s = Some flags ->
     pSet s = front ++ (key, p) :: back ->
     sets_return_dicts flags x front ->
     dict_get flags key = Some true ->
     procSet.objFunc p = pre ++ f :: post ->
     returns_dicts (fun g : objCallback => g x) pre ->
     f x = VNone ->
     obj env x s
     = (s, [],
        inl (AssertionError
               ("No return from user supplied                Objective function for pSet "
                +:+ key +:+
                ". Functionals must be returned in a                          dictionary.")))).
Proof.
  split.
  - intros x s flags Hflags Hsets.
    destruct (obj_local_loop_ok flags x (pSet s) Hsets None) as [res Hres].
    exists res. unfold obj_local. rewrite bind_get, Hflags. apply Hres.
  - intros env x s flags front back key p pre post f Hflags Hps Hfront Hkey Hfs Hpre Hf.
    unfold obj. apply bind_inl. unfold obj_local. rewrite bind_get, Hflags, Hps, foldM_app.
    destruct (obj_local_loop_ok flags x front Hfront None) as [res Hres].
    rewrite (bind_inr _ _ s s [] res) by apply Hres. rewrite with_trace_nil.
    cbn [foldM fst snd]. apply bind_inl.
    rewrite bind_unwrap_Some, Hkey, bind_unwrap_Some.
    apply bind_inl. rewrite Hfs. now apply run_callbacks_none.
Qed.

Lemma missing_return_raises_witness :
  (exists res, obj_local VNone empty_first_sample = (empty_first_sample, [], inr res)) /\
  obj alone VNone forgetful_sample
  = (forgetful_sample, [],
     inl (AssertionError
            ("No return from user supplied                Objective function for pSet "
             +:+ "point" +:+
             ". Functionals must be returned in a                          dictionary."))).
Proof.
  destruct missing_return_raises as [Hok Hnone]. split.
  - apply (Hok VNone empty_first_sample [("point", true)]); [reflexivity|].
    repeat constructor. exists true. split; [reflexivity|]. intros _.
    repeat constructor; eexists; reflexivity.
  - eapply (Hnone alone VNone forgetful_sample [("point", true)] []
              [] "point" _ [sample_obj] [] forgetful_obj).
    + vm_compute. reflexivity.
    + vm_compute. reflexivity.
    + constructor.
    + reflexivity.
    + reflexivity.
    + repeat constructor. eexists. reflexivity.
    + reflexivity.
Defined.

(** C8 as the claim states it fails: the first callback of the active set
    returns the empty dictionary and obj returns all the same. *)
Lemma empty_mapping_accepted :
  (exists p, pSet empty_first_sample = [("point", p)] /\
             procSet.objFunc p = [empty_obj; sample_obj]) /\
  setFlags empty_first_sample = Some [("point", true)] /\
  empty_obj VNone = VDict [] /\
  outcome (obj alone VNone empty_first_sample)
  = inr (VFloat 7, VDict [("c", VFloat 12)], VBool false).
Proof.
  split; [eexists; split; vm_compute; reflexivity|].
  repeat split; vm_compute; reflexivity.
Qed.

(** ** A process in no active set *)

Lemma local_loop_inactive {F} (message : string -> string) (call : F -> pyval)
    (funcs_of : procSet.t -> list F) flags sets acc (s : multiPointSparse) :
  Forall (fun kp : string * procSet.t => dict_get flags (fst kp) = Some false) sets ->
  foldM (fun res kp =>
           flags <- unwrap (Some flags) not_subscriptable ;;
           flag <- unwrap (dict_get flags (fst kp)) (KeyError (fst kp)) ;;
           if flag : bool then
             res <- run_callbacks (message (fst kp)) call (funcs_of (snd kp)) ;;
             ret (Some res)
           else ret res) sets acc s = (s, [], inr acc).
Proof.
  induction 1 as [|kp sets Hkp _ IH]; [reflexivity|].
  cbn [foldM]. rewrite bind_bind, bind_unwrap_Some, Hkp.
  rewrite bind_bind, bind_unwrap_Some, bind_ret. apply IH.
Qed.

Lemma obj_local_unbound x s : no_active_set s -> obj_local x s = (s, [], inr None).
Proof.
  intros [Hps|(flags & Hflags & Hall)]; unfold obj_local; rewrite bind_get.
  - now rewrite Hps.
  - rewrite Hflags.
    apply (local_loop_inactive no_return_obj (fun func : objCallback => func x)
             procSet.objFunc flags (pSet s) None s Hall).
Qed.

Lemma sens_local_unbound x fObj fCon s :
  no_active_set s -> sens_local x fObj fCon s = (s, [], inr None).
Proof.
  intros [Hps|(flags & Hflags & Hall)]; unfold sens_local; rewrite bind_get.
  - now rewrite Hps.
  - rewrite Hflags.
    apply (local_loop_inactive no_return_sens (fun func : sensCallback => func x fObj fCon)
             procSet.sensFunc flags (pSet s) None s Hall).
Qed.

(** With [res] unbound the broadcasts go on until the first key this rank
    owns; if it owns none, all of them are made. *)
Lemma unify_unbound env cp s :
  exists r,
    unify env None cp s
    = (s, map (fun kr => EvBcast (snd kr) VNone) (before_own (rank (gcomm s)) cp), r) /\
    (r = inl (UnboundLocalError "res") \/ exists d, r = inr d).
Proof.
  unfold unify. rewrite bind_get.
  generalize (@nil (string * pyval)) as acc. generalize (gcomm s) as g.
  induction cp as [|[key root] cp IH]; intros g acc.
  - eexists. split; [reflexivity | right; eauto].
  - cbn [foldM before_own fst snd]. destruct (Nat.eqb root (rank g)) eqn:E.
    + eexists. split; [reflexivity | now left].
    + destruct (IH g (dict_set acc key (peer_bcast env root (TagKey key)))) as (r & Hrun & Hr).
      exists r. split; [|exact Hr].
      unfold bcast at 1. rewrite !bind_bind, bind_emit, !bind_ret, E, Hrun. reflexivity.
Qed.

Lemma finish_unbound {A} env cp s (k : dict pyval -> bool -> M multiPointSparse A) :
  (funcs <- unify env None cp ;; fail <- reduce_fail env None ;; k funcs fail) s
  = (s, map (fun kr => EvBcast (snd kr) VNone) (before_own (rank (gcomm s)) cp),
     inl (UnboundLocalError "res")).
Proof.
  destruct (unify_unbound env cp s) as (r & Hrun & [->|[d ->]]).
  - now apply bind_inl.
  - rewrite (bind_inr _ _ _ _ _ _ Hrun). unfold reduce_fail. cbn [unwrap].
    rewrite bind_bind, bind_raise. unfold with_trace. cbn [final trace outcome fst snd].
    now rewrite app_nil_r.
Qed.

(** C10, as the code has it.  On a process in no active set the local
    phase of obj and of sens ends with [res] unbound; no empty result is
    made up.  Before a pattern exists, obj raises UnboundLocalError for
    'res' before any collective call and sens raises the TypeError of
    iterating None, also before any collective call.  Once a pattern
    exists, obj and sens take part in the broadcasts of the keys that come
    before the first key this rank owns, each rooted at another rank, and
    then raise UnboundLocalError for 'res'; they reach no allgather and no
    reduction, and they never return. *)
Theorem no_active_set_fails
    (env : peers) (x fObj fCon : pyval) (s : multiPointSparse) :
  no_active_set s ->
  obj_local x s = (s, [], inr None) /\
  sens_local x fObj fCon s = (s, [], inr None) /\
  match commPattern s with
  | None =>
      obj env x s = (s, [], inl (UnboundLocalError "res")) /\
      sens env x fObj fCon s = (s, [], inl (TypeError "'NoneType' object is not iterable"))
  | Some cp =>
      let heard := map (fun kr => EvBcast (snd kr) VNone)
                       (before_own (rank (gcomm s)) cp) in
      obj env x s = (s, heard, inl (UnboundLocalError "res")) /\
      sens env x fObj fCon s = (s, heard, inl (UnboundLocalError "res"))
  end.
Proof.
  intros Hs.
  pose proof (obj_local_unbound x s Hs) as Hobj.
  pose proof (sens_local_unbound x fObj fCon s Hs) as Hsens.
  split; [exact Hobj|]. split; [exact Hsens|].
  unfold obj, sens.
  rewrite (bind_inr _ _ _ _ _ _ Hobj), (bind_inr _ _ _ _ _ _ Hsens), !with_trace_nil.
  unfold discover_pattern, obj_finish, sens_finish.
  destruct (commPattern s) as [cp|] eqn:Hcp.
  - cbv zeta. rewrite bind_bind, !bind_get, Hcp, bind_ret, bind_get, Hcp.
    cbn [unwrap]. rewrite !bind_ret. split; apply finish_unbound.
  - rewrite bind_bind, !bind_get, Hcp. split; reflexivity.
Qed.

Lemma no_active_set_fails_witness :
  obj_local VNone all_dummy_sample = (all_dummy_sample, [], inr None) /\
  sens_local VNone VNone VNone retired_sample = (retired_sample, [], inr None) /\
  obj alone VNone all_dummy_sample = (all_dummy_sample, [], inl (UnboundLocalError "res")) /\
  obj from_rank0 VNone retired_sample
  = (retired_sample, [EvBcast 0 VNone], inl (UnboundLocalError "res")).
Proof.
  assert (no_active_set all_dummy_sample) as H1 by (now left).
  assert (no_active_set retired_sample) as H2.
  { right. exists [("first", false); ("second", false)]. split; [vm_compute; reflexivity|].
    vm_compute. repeat constructor. }
  pose proof (no_active_set_fails alone VNone VNone VNone all_dummy_sample H1) as (Ha & _ & Hb).
  pose proof (no_active_set_fails from_rank0 VNone VNone VNone retired_sample H2)
    as (_ & Hc & Hd).
  change (commPattern all_dummy_sample) with (@None (dict nat)) in Hb.
  replace (commPattern retired_sample) with (Some [("a", 0%nat); ("b", 1%nat)]) in Hd
    by (vm_compute; reflexivity).
  split; [exact Ha|]. split; [exact Hc|]. split; [apply Hb|]. apply Hd.
Defined.

(** C10 as the claim states it fails.  With every declared set a dummy,
    sens raises a TypeError, not the unbound 'res'.  And on rank 1 of two,
    whose set was made a dummy after a first evaluation, every flag is
    False, the pattern gives 'a' to rank 0 and 'b' to rank 1, and obj and
    sens join the broadcast of 'a' before they raise. *)
Lemma no_active_set_other_failures :
  pSet all_dummy_sample = [] /\
  sens alone VNone VNone VNone all_dummy_sample
  = (all_dummy_sample, [], inl (TypeError "'NoneType' object is not iterable")) /\
  setFlags retired_sample = Some [("first", false); ("second", false)] /\
  dict_keys (pSet retired_sample) = ["first"; "second"] /\
  commPattern retired_sample = Some [("a", 0%nat); ("b", 1%nat)] /\
  trace (obj from_rank0 VNone retired_sample) = [EvBcast 0 VNone] /\
  trace (sens from_rank0 VNone VNone VNone retired_sample) = [EvBcast 0 VNone] /\
  outcome (sens from_rank0 VNone VNone VNone retired_sample)
  = inl (UnboundLocalError "res").
Proof. repeat split; vm_compute; reflexivity. Qed.

(** * The rest of the code *)

(** ** createGroups on sizes that add up to the size of the communicator *)








(** ** Declaring sets: what addProcessorSet stores *)

Lemma totalProcs_acc (ps : dict procSet.t) (a : Z) :
  fold_left (fun nProc kp => nProc + procSet.nProc (snd kp)) ps a = a + totalProcs ps.
Proof.
  unfold totalProcs. revert a. induction ps as [|kp ps IH]; intros a; simpl; [lia|].
  rewrite IH, (IH (0 + _)). lia.
Qed.

Lemma totalProcs_snoc ps k p : totalProcs (ps ++ [(k, p)]) = totalProcs ps + procSet.nProc p.
Proof. unfold totalProcs. now rewrite fold_left_app. Qed.

(** X3. addProcessorSet with a name not used before, at least one member and
    sizes of a right length: the set is appended after the sets declared
    so far, which stay as they are; its setID is their number; a single
    size stands for nMembers members of that size; and the processor count
    that createCommunicators will ask for grows by the sum of the sizes. *)
Theorem addProcessorSet_appends
    (setName : string) (nMembers : Z) (memberSizes : sizesArg) (self : multiPointSparse) :
  setName ∉ dict_keys (pSet self) ->
  1 <= nMembers ->
  length (atleast_1d memberSizes) = 1%nat
  \/ Z.of_nat (length (atleast_1d memberSizes)) = nMembers ->
  let p := procSet.init setName nMembers (stored_sizes nMembers memberSizes)
                        (length (pSet self)) in
  addProcessorSet setName nMembers memberSizes self
  = (set_pSet self (pSet self ++ [(setName, p)]), [], inr tt) /\
  length (procSet.memberSizes p) = Z.to_nat nMembers /\
  (length (atleast_1d memberSizes) = 1%nat ->
   procSet.nProc p = nMembers * (atleast_1d memberSizes !!! 0%nat)) /\
  totalProcs (pSet self ++ [(setName, p)]) = totalProcs (pSet self) + procSet.nProc p.
Proof.
  intros Hfresh Hn Hlen p.
  assert ((nMembers =? 0) = false) as Hz by lia.
  assert ((nMembers <? 0) = false) as Hneg by lia.
  split; [|split; [|split]].
  - unfold addProcessorSet. rewrite Hz.
    destruct (atleast_1d memberSizes) as [|z [|z' l]] eqn:E.
    + cbn [length] in Hlen. destruct Hlen; [discriminate | lia].
    + cbn [length Nat.eqb]. rewrite Hneg. msimpl.
      rewrite dict_set_fresh by done. unfold p, stored_sizes. now rewrite E.
    + cbn [length Nat.eqb] in *. destruct Hlen as [|Hlen]; [discriminate|].
      destruct (Z.eqb_spec (Z.of_nat (S (S (length l)))) nMembers); [|contradiction].
      cbn [negb]. msimpl. rewrite dict_set_fresh by done.
      unfold p, stored_sizes. now rewrite E.
  - unfold p, stored_sizes. cbn [procSet.memberSizes procSet.init].
    destruct (atleast_1d memberSizes) as [|z [|z' l]] eqn:E.
    + cbn [length] in Hlen. destruct Hlen; [discriminate | lia].
    + now rewrite length_replicate.
    + destruct Hlen as [|Hlen]; [discriminate | lia].
  - intros H1. unfold p, stored_sizes. cbn [procSet.nProc procSet.init].
    destruct (atleast_1d memberSizes) as [|z [|z' l]]; try discriminate.
    rewrite sum_list_Z_replicate. cbn. f_equal. lia.
  - apply totalProcs_snoc.
Qed.

Lemma addProcessorSet_appends_witness :
  let self := final (addProcessorSet "cruise" 3 (SizeInt 32) (init (Comm 0 126))) in
  let p := procSet.init "maneuver" 2 (stored_sizes 2 (SizeSeq [10; 20])) (length (pSet self)) in
  addProcessorSet "maneuver" 2 (SizeSeq [10; 20]) self
  = (set_pSet self (pSet self ++ [("maneuver", p)]), [], inr tt) /\
  length (procSet.memberSizes p) = Z.to_nat 2 /\
  (length (atleast_1d (SizeSeq [10; 20])) = 1%nat ->
   procSet.nProc p = 2 * (atleast_1d (SizeSeq [10; 20]) !!! 0%nat)) /\
  totalProcs (pSet self ++ [("maneuver", p)]) = totalProcs (pSet self) + procSet.nProc p.
Proof.
  intros self.
  apply (addProcessorSet_appends "maneuver" 2 (SizeSeq [10; 20]) self).
  - apply (bool_decide_unpack _). vm_compute. exact I.
  - lia.
  - right. reflexivity.
Defined.

(** ** A name declared twice *)




(** ** The setters of the callbacks *)

Lemma dict_mem_false {V} (d : dict V) k : k ∉ dict_keys d -> dict_mem d k = false.
Proof. intros H. unfold dict_mem. now rewrite (proj2 (dict_get_None d k) H). Qed.

(** X6. The four setters refuse a name that addProcessorSet has not stored,
    with the MPError of lines 399, 419, 437 and 457, and leave the object
    as it was.  A set switched off with nMembers = 0 is such a name:
    addProcessorSet only notes it as a dummy, so a script that declares a
    set with no member and then gives it its callbacks stops here. *)
Theorem unregistered_set_refused
    (setName : string) (memberSizes : sizesArg) (self : multiPointSparse)
    (f : objCallback) (g : sensCallback) :
  setName ∉ dict_keys (pSet self) ->
  let refused := inl (MPError "'setName' has not been added with addProcessorSet.") in
  setProcSetObjFunc setName f self = (self, [], refused) /\
  setProcSetSensFunc setName g self = (self, [], refused) /\
  addProcSetObjFunc setName f self = (self, [], refused) /\
  addProcSetSensFunc setName g self = (self, [], refused) /\
  let self' := final (addProcessorSet setName 0 memberSizes self) in
  outcome (addProcessorSet setName 0 memberSizes self) = inr tt /\
  pSet self' = pSet self /\
  setName ∈ dummyPSet self' /\
  setProcSetObjFunc setName f self' = (self', [], refused) /\
  setProcSetSensFunc setName g self' = (self', [], refused) /\
  addProcSetObjFunc setName f self' = (self', [], refused) /\
  addProcSetSensFunc setName g self' = (self', [], refused).
Proof.
  intros Hout refused.
  assert (forall s, pSet s = pSet self ->
            setProcSetObjFunc setName f s = (s, [], refused) /\
            setProcSetSensFunc setName g s = (s, [], refused) /\
            addProcSetObjFunc setName f s = (s, [], refused) /\
            addProcSetSensFunc setName g s = (s, [], refused)) as H.
  { intros s Hs.
    unfold setProcSetObjFunc, setProcSetSensFunc, addProcSetObjFunc, addProcSetSensFunc.
    rewrite !bind_get, Hs, (dict_mem_false _ _ Hout). now cbn [negb]. }
  destruct (H self eq_refl) as (H1 & H2 & H3 & H4).
  split; [exact H1|]. split; [exact H2|]. split; [exact H3|]. split; [exact H4|].
  intros self'. unfold self', addProcessorSet. cbn [Z.eqb modify final outcome fst snd].
  split; [reflexivity|]. split; [reflexivity|].
  split; [cbn [dummyPSet set_dummyPSet]; apply elem_of_union_l, elem_of_singleton; reflexivity|].
  now apply H.
Qed.

Lemma unregistered_set_refused_witness :
  let self := final (addProcessorSet "cruise" 1 (SizeInt 2) (init (Comm 0 2))) in
  let self' := final (addProcessorSet "maneuver" 0 (SizeInt 4) self) in
  setProcSetObjFunc "maneuver" sample_obj self'
  = (self', [], inl (MPError "'setName' has not been added with addProcessorSet.")).
Proof.
  intros self self'.
  apply (unregistered_set_refused "maneuver" (SizeInt 4) self sample_obj sample_sens).
  apply (bool_decide_unpack _). vm_compute. exact I.
Defined.

Lemma on_procSet_modify key (h : procSet.t -> procSet.t) (s : multiPointSparse) p :
  dict_get (pSet s) key = Some p ->
  on_procSet key (modify h) s = (set_pSet s (dict_set (pSet s) key (h p)), [], inr tt).
Proof. intros Hp. unfold on_procSet. now rewrite Hp. Qed.

Lemma dict_mem_true {V} (d : dict V) k v : dict_get d k = Some v -> dict_mem d k = true.
Proof. intros H. unfold dict_mem. now rewrite H. Qed.

Lemma two_setters (key : string) (h1 h2 : procSet.t -> procSet.t) (e : exn)
    (self : multiPointSparse) (p : procSet.t) :
  dict_get (pSet self) key = Some p ->
  (on_procSet key (modify h1) ;;
   self0 <- get ;;
   if negb (dict_mem (pSet self0) key) then raise e else on_procSet key (modify h2)) self
  = (set_pSet self (dict_set (pSet self) key (h2 (h1 p))), [], inr tt).
Proof.
  intros Hp.
  rewrite (bind_inr _ _ _ _ _ _ (on_procSet_modify key h1 self p Hp)), with_trace_nil, bind_get.
  cbn [pSet set_pSet].
  rewrite (dict_mem_true _ _ (h1 p)) by apply dict_get_set_eq. cbn [negb].
  rewrite (on_procSet_modify key h2 _ (h1 p)) by apply dict_get_set_eq.
  cbn [pSet set_pSet]. rewrite dict_set_set. reflexivity.
Qed.

(** X7. On a registered set, setProcSetObjFunc makes the list of functional
    callbacks hold the one function, whatever it held, and
    addProcSetObjFunc puts one more at its end; so "set f, add g" leaves
    [f, g], "add g, set f" leaves [f].  The same for the sensitivity
    callbacks.  Nothing else of the set or of the object changes. *)
Theorem callbacks_set_and_add
    (setName : string) (p : procSet.t) (self : multiPointSparse)
    (f g : objCallback) (f' g' : sensCallback) :
  dict_get (pSet self) setName = Some p ->
  let stored q := (set_pSet self (dict_set (pSet self) setName q), [], inr tt) in
  (setProcSetObjFunc setName f ;; addProcSetObjFunc setName g) self
  = stored (procSet.set_objFunc p [f; g]) /\
  (addProcSetObjFunc setName g ;; setProcSetObjFunc setName f) self
  = stored (procSet.set_objFunc p [f]) /\
  addProcSetObjFunc setName g self
  = stored (procSet.set_objFunc p (procSet.objFunc p ++ [g])) /\
  (setProcSetSensFunc setName f' ;; addProcSetSensFunc setName g') self
  = stored (procSet.set_sensFunc p [f'; g']) /\
  (addProcSetSensFunc setName g' ;; setProcSetSensFunc setName f') self
  = stored (procSet.set_sensFunc p [f']) /\
  addProcSetSensFunc setName g' self
  = stored (procSet.set_sensFunc p (procSet.sensFunc p ++ [g'])).
Proof.
  intros Hp stored.
  pose proof (dict_mem_true _ _ _ Hp) as Hmem.
  unfold setProcSetObjFunc, setProcSetSensFunc, addProcSetObjFunc, addProcSetSensFunc, stored.
  repeat split.
  all: rewrite ?bind_bind, ?bind_get, ?Hmem; cbn [negb].
  all: try (now rewrite (two_setters _ _ _ _ _ p Hp)).
  all: now erewrite on_procSet_modify by exact Hp.
Qed.

Lemma callbacks_set_and_add_witness :
  let self := final (addProcessorSet "cruise" 1 (SizeInt 2) (init (Comm 0 2))) in
  let p := procSet.init "cruise" 1 [2] 0 in
  (setProcSetObjFunc "cruise" sample_obj ;; addProcSetObjFunc "cruise" empty_obj) self
  = (set_pSet self (dict_set (pSet self) "cruise"
                      (procSet.set_objFunc p [sample_obj; empty_obj])), [], inr tt).
Proof.
  intros self p.
  apply (callbacks_set_and_add "cruise" p self sample_obj empty_obj sample_sens sample_sens).
  reflexivity.
Defined.

(** ** createDirectories *)

Lemma dict_append_set (d : dict (list string)) k l x :
  dict_append (dict_set d k l) k x = dict_set d k (l ++ [x]).
Proof. unfold dict_append. now rewrite dict_get_set_eq, dict_set_set. Qed.

(** The loop over the members of one set. *)
Lemma createDirectories_members (rootDir key : string) (name : string) (root : bool)
    (ms : list nat) :
  forall (cmds : list string) (d : dict (list string)) (l : list string),
    fold_left (fun acc i =>
        let dirName := rootDir +:+ "/" +:+ name +:+ "_" +:+ fmt_d (Z.of_nat i) in
        let ptDirs := dict_append (snd acc) key dirName in
        if root then (fst acc ++ ["mkdir -p " +:+ dirName], ptDirs) else (fst acc, ptDirs))
      ms (cmds, dict_set d key l)
    = (let dirs := map (fun i => rootDir +:+ "/" +:+ name +:+ "_" +:+ fmt_d (Z.of_nat i)) ms in
       (if root then cmds ++ map (String.append "mkdir -p ") dirs else cmds,
        dict_set d key (l ++ dirs))).
Proof.
  induction ms as [|i ms IH]; intros cmds d l.
  - cbn. rewrite !app_nil_r. now destruct root.
  - cbn [fold_left map fst snd]. cbv zeta. rewrite dict_append_set.
    destruct root.
    + rewrite IH. cbv zeta. now rewrite <- !app_assoc.
    + rewrite IH. cbv zeta. now rewrite <- !app_assoc.
Qed.

Lemma createDirectories_sets (rootDir : string) (root : bool) (ps : dict procSet.t) :
  forall (cmds : list string) (d : dict (list string)),
    NoDup (dict_keys d ++ dict_keys ps) ->
    fold_left (fun acc kp =>
        let key := fst kp in
        fold_left (fun acc i =>
            let dirName := rootDir +:+ "/" +:+ procSet.setName (snd kp) +:+ "_"
                           +:+ fmt_d (Z.of_nat i) in
            let ptDirs := dict_append (snd acc) key dirName in
            if root then (fst acc ++ ["mkdir -p " +:+ dirName], ptDirs) else (fst acc, ptDirs))
          (seq 0 (Z.to_nat (procSet.nMembers (snd kp))))
          (fst acc, dict_set (snd acc) key []))
      ps (cmds, d)
    = (if root
       then cmds ++ map (String.append "mkdir -p ")
                        (concat (map (fun kp => member_dirs rootDir (snd kp)) ps))
       else cmds,
       d ++ map (fun kp => (fst kp, member_dirs rootDir (snd kp))) ps).
Proof.
  induction ps as [|[k p] ps IH]; intros cmds d Hnd.
  - cbn. rewrite !app_nil_r. now destruct root.
  - cbn [fold_left fst snd]. cbv zeta.
    rewrite createDirectories_members. cbv zeta. cbn [app].
    fold (member_dirs rootDir p).
    assert (k ∉ dict_keys d) as Hk.
    { intros Hin. apply NoDup_app in Hnd as (_ & Hdisj & _).
      apply (Hdisj k Hin). cbn. apply list_elem_of_here. }
    rewrite dict_set_fresh by done.
    rewrite IH.
    + cbn [map concat fst snd]. rewrite <- !app_assoc. cbn [app].
      destruct root; [|reflexivity].
      now rewrite map_app, <- !app_assoc.
    + unfold dict_keys in *. rewrite map_app, <- app_assoc. exact Hnd.
Qed.

(** What createDirectories returns when it returns a dictionary. *)
Lemma createDirectories_returned (rootDir : string) (self : multiPointSparse)
    (cmds : list string) (ptDirs : dict (list string)) :
  NoDup (dict_keys (pSet self)) ->
  createDirectories rootDir self = (cmds, Some ptDirs) ->
  ptDirs = map (fun kp => (fst kp, member_dirs rootDir (snd kp))) (pSet self).
Proof.
  intros Hnd. unfold createDirectories.
  destruct (pSet self) as [|kp ps] eqn:E; [discriminate|].
  cbn [length Nat.eqb].
  pose proof (createDirectories_sets rootDir (Nat.eqb (rank (gcomm self)) 0) (kp :: ps) [] [] Hnd)
    as Hrun.
  cbv zeta in *. rewrite Hrun. cbn [app fst snd]. now intros [= _ <-].
Qed.

(** X8. createDirectories returns None, and runs nothing, when no set is
    declared.  Otherwise it returns one entry per declared set, in the
    order of the declarations, that lists one directory per member,
    rootDir/setName_i for i from 0; the global root runs "mkdir -p" once
    for each of them, set after set, and the other ranks run nothing. *)
Theorem createDirectories_lists (rootDir : string) (self : multiPointSparse) :
  NoDup (dict_keys (pSet self)) ->
  createDirectories rootDir self
  = match pSet self with
    | [] => ([], None)
    | ps =>
        let ptDirs := map (fun kp => (fst kp, member_dirs rootDir (snd kp))) ps in
        (if Nat.eqb (rank (gcomm self)) 0
         then map (String.append "mkdir -p ") (concat (map snd ptDirs))
         else [],
         Some ptDirs)
    end.
Proof.
  intros Hnd. unfold createDirectories.
  destruct (pSet self) as [|kp ps] eqn:E; [reflexivity|].
  cbn [length Nat.eqb].
  pose proof (createDirectories_sets rootDir (Nat.eqb (rank (gcomm self)) 0) (kp :: ps) [] [] Hnd)
    as Hrun.
  cbv zeta in *. rewrite Hrun, map_map. cbn [app fst snd].
  now destruct (Nat.eqb (rank (gcomm self)) 0).
Qed.

Lemma createDirectories_lists_witness :
  let self := final ((addProcessorSet "cruise" 3 (SizeInt 32) ;;
                      addProcessorSet "maneuver" 2 (SizeSeq [10; 20])) (init (Comm 0 126))) in
  createDirectories "/home/user/output" self
  = (["mkdir -p /home/user/output/cruise_0"; "mkdir -p /home/user/output/cruise_1";
      "mkdir -p /home/user/output/cruise_2"; "mkdir -p /home/user/output/maneuver_0";
      "mkdir -p /home/user/output/maneuver_1"],
     Some [("cruise", ["/home/user/output/cruise_0"; "/home/user/output/cruise_1";
                       "/home/user/output/cruise_2"]);
           ("maneuver", ["/home/user/output/maneuver_0"; "/home/user/output/maneuver_1"])]).
Proof.
  intros self.
  rewrite (createDirectories_lists "/home/user/output" self).
  - reflexivity.
  - apply (bool_decide_unpack _). vm_compute. exact I.
Defined.

(** *** No two members share a directory *)

Lemma append_inj_l (a x y : string) : a +:+ x = a +:+ y -> x = y.
Proof.
  induction a as [|c a IH]; cbv [String.append]; fold String.append; [done|].
  intros [= H]. auto.
Qed.

Lemma has_char_uint (d : Decimal.uint) : has_char "_" (NilEmpty.string_of_uint d) = false.
Proof. induction d; cbn; auto. Qed.

Lemma has_char_fmt_d (i : nat) : has_char "_" (fmt_d (Z.of_nat i)) = false.
Proof.
  unfold fmt_d. destruct (Z.of_nat i) as [|p|p] eqn:E; [reflexivity| |lia].
  cbn [Z.to_int NilZero.string_of_int]. unfold NilZero.string_of_uint.
  destruct (Pos.to_uint p); try apply has_char_uint. reflexivity.
Qed.

Lemma fmt_d_inj (a b : Z) : fmt_d a = fmt_d b -> a = b.
Proof.
  unfold fmt_d. intros H. apply DecimalZ.to_int_inj.
  assert (forall z, NilZero.int_of_string (NilZero.string_of_int (Z.to_int z))
                    = Some (Z.to_int z)) as Hisi.
  { intros z. apply NilZero.isi; destruct z as [|p|p]; cbn; try discriminate;
      intros [= Hp]; exact (DecimalPos.Unsigned.to_uint_nonnil p Hp). }
  pose proof (Hisi a) as Ha. rewrite H, Hisi in Ha. now injection Ha.
Qed.

Lemma has_char_middle (c : ascii) (a d : string) : has_char c (a +:+ String c d) = true.
Proof.
  induction a as [|c' a IH]; cbv [String.append]; fold String.append; cbn [has_char].
  - now rewrite Ascii.eqb_refl.
  - rewrite IH. apply orb_true_r.
Qed.

(** The last underscore of [name_digits] splits it in one way only. *)
Lemma underscore_split (a b d1 d2 : string) :
  has_char "_" d1 = false -> has_char "_" d2 = false ->
  a +:+ "_" +:+ d1 = b +:+ "_" +:+ d2 -> a = b /\ d1 = d2.
Proof.
  intros H1 H2. revert b. induction a as [|c a IH]; intros [|c' b];
    cbv [String.append]; fold String.append.
  - intros [= ->]. done.
  - intros [= <- ->].
    rewrite (has_char_middle "_" b d2) in H1. discriminate.
  - intros [= -> <-].
    rewrite (has_char_middle "_" a d1) in H2. discriminate.
  - intros [= -> H]. destruct (IH b H) as [-> ->]. done.
Qed.

Lemma dirName_inj (rootDir n1 n2 : string) (i1 i2 : nat) :
  rootDir +:+ "/" +:+ n1 +:+ "_" +:+ fmt_d (Z.of_nat i1)
  = rootDir +:+ "/" +:+ n2 +:+ "_" +:+ fmt_d (Z.of_nat i2) ->
  n1 = n2 /\ i1 = i2.
Proof.
  intros H. apply append_inj_l, (append_inj_l "/") in H.
  apply underscore_split in H as [-> H]; try apply has_char_fmt_d.
  split; [done|]. apply fmt_d_inj in H. lia.
Qed.

Lemma member_dirs_elem (rootDir : string) (p : procSet.t) (dir : string) :
  dir ∈ member_dirs rootDir p ->
  exists i, dir = rootDir +:+ "/" +:+ procSet.setName p +:+ "_" +:+ fmt_d (Z.of_nat i).
Proof.
  unfold member_dirs. intros H. apply list_elem_of_fmap in H as (i & -> & _). now exists i.
Qed.

Lemma member_dirs_NoDup (rootDir : string) (p : procSet.t) : NoDup (member_dirs rootDir p).
Proof.
  unfold member_dirs. apply (NoDup_fmap_2_strong _).
  - intros i j _ _ H. now apply dirName_inj in H.
  - apply NoDup_seq.
Qed.

(** X9. When the sets are stored under their names, as addProcessorSet stores
    them, the directories that createDirectories returns are all different:
    no two members, of one set or of two, get the same directory. *)
Theorem createDirectories_distinct
    (rootDir : string) (self : multiPointSparse)
    (cmds : list string) (ptDirs : dict (list string)) :
  NoDup (dict_keys (pSet self)) ->
  (forall k p, (k, p) ∈ pSet self -> procSet.setName p = k) ->
  createDirectories rootDir self = (cmds, Some ptDirs) ->
  NoDup (concat (map snd ptDirs)).
Proof.
  intros Hnd Hname Hrun.
  rewrite (createDirectories_returned rootDir self cmds ptDirs Hnd Hrun).
  clear Hrun cmds ptDirs. rewrite map_map. cbn [snd].
  induction (pSet self) as [|[k p] ps IH]; [constructor|].
  cbn [map concat snd]. apply NoDup_app. split; [apply member_dirs_NoDup|]. split.
  - intros dir Hp Hrest.
    apply member_dirs_elem in Hp as [i Hi].
    apply list_elem_of_In, in_concat in Hrest as (l & Hl & Hdir).
    apply in_map_iff in Hl as ([k' q] & <- & Hq). cbn [snd] in Hdir.
    apply list_elem_of_In, member_dirs_elem in Hdir as [j Hj].
    rewrite Hi in Hj. apply dirName_inj in Hj as [Hpq _].
    rewrite (Hname k p) in Hpq by apply list_elem_of_here.
    apply list_elem_of_In in Hq.
    rewrite (Hname k' q) in Hpq by now apply list_elem_of_further.
    subst k'. cbn in Hnd. apply NoDup_cons in Hnd as [Hk _]. apply Hk.
    unfold dict_keys. apply list_elem_of_fmap. now exists (k, q).
  - apply IH.
    + cbn in Hnd. now apply NoDup_cons in Hnd as [_ Hnd].
    + intros k' q Hq. apply Hname. now apply list_elem_of_further.
Qed.

Lemma createDirectories_distinct_witness :
  let self := final ((addProcessorSet "a" 11 (SizeInt 1) ;;
                      addProcessorSet "a_1" 1 (SizeInt 1)) (init (Comm 0 12))) in
  NoDup (concat (map snd (default [] (snd (createDirectories "out" self))))).
Proof.
  intros self.
  apply (createDirectories_distinct "out" self (fst (createDirectories "out" self))).
  - apply (bool_decide_unpack _). vm_compute. exact I.
  - intros k p Hkp. apply list_elem_of_In in Hkp.
    destruct Hkp as [[= <- <-]|[[= <- <-]|[]]]; reflexivity.
  - vm_compute. reflexivity.
Defined.

(** ** What createCommunicators returns and stores *)

(** X10. The communicators.  Under the conditions of the partition theorem, a
    process makes two Splits and one barrier, in this order: of the global
    communicator with the index of its set as colour, of the communicator
    of the set with the index of its member, and the barrier on the global
    communicator.  The communicator of the set holds as many processes as
    the set was declared with, the communicator of the member as many as
    the member, and the rank of the process in each is its global rank
    minus the offset of the set, minus the offset of the member. *)
Theorem createCommunicators_comms
    (specs : list setSpec) (N r : nat) (mp : multiPointSparse) :
  NoDup (map spec_name specs) ->
  Forall nonneg_sizes specs ->
  declare specs (init (Comm r N)) = (mp, [], inr tt) ->
  totalProcs (pSet mp) = Z.of_nat N ->
  Z.of_nat N < 2 ^ 31 ->
  (r < N)%nat ->
  exists mp' comm setComm setFlags groupFlags ptID name p,
    dict_get (pSet mp) name = Some p /\
    createCommunicators mp
    = (mp',
       [EvSplit (Comm r N) (procSet.setID p); EvSplit setComm ptID; EvBarrier (Comm r N)],
       inr (comm, setComm, setFlags, groupFlags, ptID)) /\
    Z.of_nat (size setComm) = procSet.nProc p /\
    Z.of_nat (rank setComm)
    = Z.of_nat r - psum (setSizes_of (pSet mp)) (procSet.setID p) /\
    (rank setComm < size setComm)%nat /\
    Z.of_nat (size comm) = procSet.memberSizes p !!! ptID /\
    Z.of_nat (rank comm) = Z.of_nat (rank setComm) - psum (procSet.memberSizes p) ptID /\
    (rank comm < size comm)%nat.
Proof.
  intros Hnd Hpos Hdecl Htot HN Hr.
  destruct (declare_declared specs [] _ _ _ (init_declared _) Hnd Hpos Hdecl)
    as (Hwf & Hg & Hdisj & _).
  cbn [gcomm init] in Hg.
  destruct (createCommunicators_run_full mp) as
    (i & name & p & m & flags & Hp & Hin & Hm & Hmin & Hrun & _);
    try done; try (rewrite Hg; cbn [rank size]; done).
  rewrite Hg in *. cbn [rank size] in *. cbv zeta in Hrun. cbn [rank] in Hrun.
  destruct (proj2 Hwf i name p Hp) as (_ & Hid & Hn1 & Hlen & Hsum & Hmpos).
  pose proof (setSizes_of_nonneg _ Hwf) as Hspos.
  pose proof (setSizes_of_lookup _ i name p Hp) as Hsz.
  pose proof (lookup_lt_Some _ _ _ Hp) as Hi.
  pose proof (psum_S (setSizes_of (pSet mp)) i
                ltac:(now rewrite setSizes_of_length)) as HpS.
  rewrite Hsz in HpS.
  pose proof (psum_S (procSet.memberSizes p) m ltac:(lia)) as HmS.
  destruct Hin as [Hin1 Hin2]. destruct Hmin as [Hmin1 Hmin2].
  eexists _, _, _, flags, _, m, name, p.
  split; [apply (dict_get_lookup _ i); [apply Hwf | done]|].
  rewrite Hid. split; [exact Hrun|].
  cbn [rank size]. lia.
Qed.

Lemma createCommunicators_comms_witness :
  let specs := [SetSpec "cruise" 3 (SizeInt 2); SetSpec "off" 0 (SizeInt 4);
                SetSpec "maneuver" 2 (SizeSeq [1; 2])] in
  let mp := final (declare specs (init (Comm 7 9))) in
  exists mp' comm setComm setFlags groupFlags ptID name p,
    dict_get (pSet mp) name = Some p /\
    createCommunicators mp
    = (mp',
       [EvSplit (Comm 7 9) (procSet.setID p); EvSplit setComm ptID; EvBarrier (Comm 7 9)],
       inr (comm, setComm, setFlags, groupFlags, ptID)) /\
    Z.of_nat (size setComm) = procSet.nProc p /\
    Z.of_nat (rank setComm)
    = Z.of_nat 7 - psum (setSizes_of (pSet mp)) (procSet.setID p) /\
    (rank setComm < size setComm)%nat /\
    Z.of_nat (size comm) = procSet.memberSizes p !!! ptID /\
    Z.of_nat (rank comm) = Z.of_nat (rank setComm) - psum (procSet.memberSizes p) ptID /\
    (rank comm < size comm)%nat.
Proof.
  intros specs mp.
  apply (createCommunicators_comms specs 9 7 mp).
  - apply (bool_decide_unpack _). vm_compute. exact I.
  - repeat constructor; vm_compute; discriminate.
  - vm_compute. reflexivity.
  - vm_compute. reflexivity.
  - vm_compute. reflexivity.
  - lia.
Defined.

Lemma dict_set_insert {V} (d : dict V) i k v v' :
  NoDup (dict_keys d) -> d !! i = Some (k, v) -> dict_set d k v' = <[i := (k, v')]> d.
Proof.
  revert i. induction d as [|[k0 v0] d IH]; intros i Hnd Hi; [done|].
  cbn in Hnd. apply NoDup_cons in Hnd as [Hk0 Hnd].
  destruct i as [|i]; cbn in Hi.
  - injection Hi as -> ->. cbn. now rewrite String.eqb_refl.
  - cbn. destruct (String.eqb_spec k0 k) as [->|Hne].
    + exfalso. apply Hk0. unfold dict_keys. apply list_elem_of_fmap. exists (k, v).
      split; [done|]. now apply (list_elem_of_lookup_2 _ i).
    + f_equal. now apply IH.
Qed.

Lemma roots_of_lookup cum (ps : dict procSet.t) j k q :
  NoDup (dict_keys ps) -> ps !! j = Some (k, q) ->
  dict_get (roots_of cum ps) k = Some (cum !!! procSet.setID q).
Proof.
  unfold roots_of. revert j. induction ps as [|[k' q'] ps IH] using rev_ind; intros j Hnd Hj.
  - done.
  - rewrite fold_left_app. cbn [fold_left fst snd].
    unfold dict_keys in Hnd. rewrite map_app in Hnd. cbn in Hnd.
    apply NoDup_app in Hnd as (Hnd & Hdisj & _).
    destruct (decide (j = length ps)) as [->|Hne].
    + rewrite list_lookup_middle in Hj by done. injection Hj as -> ->.
      apply dict_get_set_eq.
    + assert (j < length ps)%nat as Hlt.
      { apply lookup_lt_Some in Hj. rewrite length_app in Hj. cbn in Hj. lia. }
      rewrite lookup_app_l in Hj by done.
      rewrite dict_get_set_ne; [now apply (IH j)|].
      intros ->. apply (Hdisj k); [|apply list_elem_of_here].
      apply list_elem_of_fmap. exists (k, q). split; [done|].
      now apply (list_elem_of_lookup_2 _ j).
Qed.

(** X11. The object after createCommunicators, under the conditions of the
    partition theorem.  self.setFlags is the returned dictionary, and is
    False under every dummy name; self.pSetRoot gives each declared set the
    global rank of its first process, the sum of the processor counts of the
    sets declared before it; the set of this process holds the two
    communicators, groupFlags and the returned ptID as its groupID; every
    other set is as it was, its communicators still None. *)
Theorem createCommunicators_stores
    (specs : list setSpec) (N r : nat) (mp : multiPointSparse) :
  NoDup (map spec_name specs) ->
  Forall nonneg_sizes specs ->
  declare specs (init (Comm r N)) = (mp, [], inr tt) ->
  totalProcs (pSet mp) = Z.of_nat N ->
  Z.of_nat N < 2 ^ 31 ->
  (r < N)%nat ->
  exists mp' tr comm setComm flags groupFlags ptID name p' roots,
    createCommunicators mp = (mp', tr, inr (comm, setComm, flags, groupFlags, ptID)) /\
    setFlags mp' = Some flags /\
    (forall k, k ∈ dummyPSet mp -> dict_get flags k = Some false) /\
    pSetRoot mp' = Some roots /\
    (forall j k q, pSet mp !! j = Some (k, q) ->
                   dict_get roots k = Some (psum (setSizes_of (pSet mp)) j)) /\
    dict_get flags name = Some true /\
    dict_get (pSet mp') name = Some p' /\
    procSet.gcomm p' = Some setComm /\
    procSet.comm_ p' = Some comm /\
    procSet.groupFlags p' = Some groupFlags /\
    procSet.groupID p' = Some ptID /\
    (forall k, k <> name -> dict_get (pSet mp') k = dict_get (pSet mp) k) /\
    dict_keys (pSet mp') = dict_keys (pSet mp) /\
    dummyPSet mp' = dummyPSet mp /\
    gcomm mp' = gcomm mp.
Proof.
  intros Hnd Hpos Hdecl Htot HN Hr.
  destruct (declare_declared specs [] _ _ _ (init_declared _) Hnd Hpos Hdecl)
    as (Hwf & Hg & Hdisj & _).
  cbn [gcomm init] in Hg.
  destruct (createCommunicators_run_full mp) as
    (i & name & p & m & flags & Hp & Hin & Hm & Hmin & Hrun & Hfl & Hdum & _);
    try done; try (rewrite Hg; cbn [rank size]; done).
  cbv zeta in Hrun.
  set (p' := procSet.set_split _ _ _ _ _) in Hrun.
  set (cum := cumulative intc _ _) in Hrun.
  assert (dict_set (pSet mp) name p' = <[i := (name, p')]> (pSet mp)) as Hps'
      by (apply (dict_set_insert _ i name p); [apply Hwf | done]).
  assert (dict_keys (dict_set (pSet mp) name p') = dict_keys (pSet mp)) as Hkeys.
  { rewrite Hps'. unfold dict_keys.
    change (map fst ?l) with (fst <$> l). rewrite list_fmap_insert. cbn [fst].
    apply list_insert_id. now rewrite list_lookup_fmap, Hp. }
  pose proof (setSizes_of_nonneg _ Hwf) as Hspos.
  eexists _, _, _, _, flags, _, m, name, p', _.
  split; [exact Hrun|]. cbn [setFlags pSetRoot pSet dummyPSet gcomm
                             set_pSetRoot set_setFlags set_pSet].
  split; [reflexivity|]. split; [exact Hdum|]. split; [reflexivity|].
  split; [|split; [|split; [|split; [|split; [|split; [|split; [|split; [|split]]]]]]]];
    try reflexivity.
  - intros j k q Hj.
    pose proof (lookup_lt_Some _ _ _ Hj) as Hlt.
    assert (exists q', dict_set (pSet mp) name p' !! j = Some (k, q')
                       /\ procSet.setID q' = j) as (q' & Hq' & Hid).
    { rewrite Hps'. destruct (decide (j = i)) as [->|Hne].
      - rewrite list_lookup_insert_eq by done. rewrite Hp in Hj. injection Hj as <- <-.
        exists p'. split; [done|]. unfold p'. cbn [procSet.setID procSet.set_split
          procSet.set_gcomm]. apply (proj2 Hwf i name p Hp).
      - rewrite list_lookup_insert_ne by done. exists q. split; [done|].
        apply (proj2 Hwf j k q Hj). }
    rewrite (roots_of_lookup cum _ j k q'); [|rewrite Hkeys; apply Hwf | exact Hq'].
    rewrite Hid. f_equal. unfold cum. apply cumulative_intc.
    + now rewrite setSizes_of_length.
    + done.
    + rewrite setSizes_of_total, Htot. lia.
    + lia.
  - rewrite (Hfl i name p Hp). f_equal. now apply bool_decide_eq_true_2.
  - apply dict_get_set_eq.
  - intros k Hk. now apply dict_get_set_ne.
  - exact Hkeys.
  - split; reflexivity.
Qed.

Lemma createCommunicators_stores_witness :
  let specs := [SetSpec "cruise" 3 (SizeInt 2); SetSpec "off" 0 (SizeInt 4);
                SetSpec "maneuver" 2 (SizeSeq [1; 2])] in
  let mp := final (declare specs (init (Comm 7 9))) in
  exists mp' tr comm setComm flags groupFlags ptID name p' roots,
    createCommunicators mp = (mp', tr, inr (comm, setComm, flags, groupFlags, ptID)) /\
    setFlags mp' = Some flags /\
    (forall k, k ∈ dummyPSet mp -> dict_get flags k = Some false) /\
    pSetRoot mp' = Some roots /\
    (forall j k q, pSet mp !! j = Some (k, q) ->
                   dict_get roots k = Some (psum (setSizes_of (pSet mp)) j)) /\
    dict_get flags name = Some true /\
    dict_get (pSet mp') name = Some p' /\
    procSet.gcomm p' = Some setComm /\
    procSet.comm_ p' = Some comm /\
    procSet.groupFlags p' = Some groupFlags /\
    procSet.groupID p' = Some ptID /\
    (forall k, k <> name -> dict_get (pSet mp') k = dict_get (pSet mp) k) /\
    dict_keys (pSet mp') = dict_keys (pSet mp) /\
    dummyPSet mp' = dummyPSet mp /\
    gcomm mp' = gcomm mp.
Proof.
  intros specs mp.
  apply (createCommunicators_stores specs 9 7 mp).
  - apply (bool_decide_unpack _). vm_compute. exact I.
  - repeat constructor; vm_compute; discriminate.
  - vm_compute. reflexivity.
  - vm_compute. reflexivity.
  - vm_compute. reflexivity.
  - lia.
Defined.

(** ** The order of the calls: sens after obj *)

Lemma sens_finish_no_pattern env res s :
  commPattern s = None -> sens_finish env res s = (s, [], inl not_iterable).
Proof. intros H. unfold sens_finish. now rewrite bind_get, H. Qed.

Lemma complexifyFuncs_no_keys funcs s :
  _complexifyFuncs funcs None s = (s, [], inl not_iterable).
Proof. reflexivity. Qed.

Lemma sens_finish_no_keys env res s s' tr r :
  inputKeys s = None -> sens_finish env res s <> (s', tr, inr r).
Proof.
  intros Hk H. unfold sens_finish in H. rewrite bind_get in H.
  apply bind_inr_inv in H as (s1 & t1 & cp & t2 & _ & H & _).
  apply bind_inr_inv in H as (s2 & t3 & funcSens & t4 & _ & H & _).
  apply bind_inr_inv in H as (s3 & t5 & fail & t6 & _ & H & _).
  apply bind_inr_inv in H as (s4 & t7 & funcs1 & t8 & H & _ & _).
  rewrite Hk in H. discriminate.
Qed.

(** X14. sens needs an obj before it.  On an object whose communication pattern
    is still None -- no obj has got as far as line 536 -- sens makes no
    collective call, changes nothing and raises; when its callbacks went
    through, what it raises is the TypeError of iterating None (line 607).
    On an object whose inputKeys is None it never returns, and this is the
    state setOptProb leaves: after setOptProb, sens fails until obj has
    been called again. *)
Theorem sens_needs_obj (env : peers) (x fObj fCon : pyval) (s : multiPointSparse) :
  (commPattern s = None ->
   final (sens env x fObj fCon s) = s /\
   trace (sens env x fObj fCon s) = [] /\
   (exists e, outcome (sens env x fObj fCon s) = inl e) /\
   (forall res, outcome (sens_local x fObj fCon s) = inr res ->
                outcome (sens env x fObj fCon s)
                = inl (TypeError "'NoneType' object is not iterable"))) /\
  (inputKeys s = None -> exists e, outcome (sens env x fObj fCon s) = inl e) /\
  (forall optProb,
      inputKeys (final (setOptProb optProb s)) = None /\
      exists e, outcome (sens env x fObj fCon (final (setOptProb optProb s))) = inl e).
Proof.
  assert (forall s0, inputKeys s0 = None ->
                     exists e, outcome (sens env x fObj fCon s0) = inl e) as Hkeys.
  { intros s0 Hk. destruct (sens env x fObj fCon s0) as [[s' tr] [e|r]] eqn:H; [now exists e|].
    exfalso. unfold sens in H.
    apply bind_inr_inv in H as (s1 & t1 & res & t2 & Hlocal & H & _).
    pose proof (pure_run_state _ _ _ _ _ (sens_local_pure x fObj fCon) Hlocal) as ->.
    exact (sens_finish_no_keys env res s0 s' t2 r Hk H). }
  split; [|split; [apply Hkeys | intros op; split; [reflexivity | now apply Hkeys]]].
  intros Hcp.
  pose proof (pure_silent_run _ s (sens_local_pure x fObj fCon) (sens_local_silent x fObj fCon))
    as Hlocal.
  destruct (outcome (sens_local x fObj fCon s)) as [e|res] eqn:Hout.
  - unfold sens. rewrite (bind_inl _ _ _ _ _ _ Hlocal). cbn.
    split; [done|]. split; [done|]. split; [now exists e | intros res [=]].
  - rewrite (sens_run env x fObj fCon s res Hout), (sens_finish_no_pattern env res s Hcp). cbn.
    split; [done|]. split; [done|]. split; [now eexists | intros ? _; reflexivity].
Qed.

Lemma sens_needs_obj_witness :
  let s := final (sample_setup sample_obj sample_sens sample_optProb (init (Comm 0 1))) in
  final (sens alone VNone VNone VNone s) = s /\
  trace (sens alone VNone VNone VNone s) = [] /\
  (exists e, outcome (sens alone VNone VNone VNone s) = inl e) /\
  (forall res, outcome (sens_local VNone VNone VNone s) = inr res ->
               outcome (sens alone VNone VNone VNone s)
               = inl (TypeError "'NoneType' object is not iterable")).
Proof.
  intros s. apply (sens_needs_obj alone VNone VNone VNone s). reflexivity.
Defined.

(** ** What obj and sens leave as it is *)

Section Preserves.
Variable R : multiPointSparse -> multiPointSparse -> Prop.
Hypothesis R_refl : forall s, R s s.
Hypothesis R_trans : forall s1 s2 s3, R s1 s2 -> R s2 s3 -> R s1 s3.

Lemma preserves_pure {A} (m : M multiPointSparse A) : pure_state m -> preserves R m.
Proof. intros H s. rewrite H. apply R_refl. Qed.

Lemma preserves_bind {A B} (m : M multiPointSparse A) (k : A -> M multiPointSparse B) :
  preserves R m -> (forall a, preserves R (k a)) -> preserves R (bind m k).
Proof.
  intros Hm Hk s. rewrite bind_final.
  destruct (outcome (m s)); [apply Hm | exact (R_trans _ _ _ (Hm s) (Hk _ _))].
Qed.

Lemma preserves_foldM {A B} (f : A -> B -> M multiPointSparse A) l acc :
  (forall a x, preserves R (f a x)) -> preserves R (foldM f l acc).
Proof.
  intros Hf. revert acc. induction l as [|x l IH]; intros acc; [intros s; apply R_refl|].
  apply preserves_bind; auto.
Qed.

Lemma preserves_modify (f : multiPointSparse -> multiPointSparse) :
  (forall s, R s (f s)) -> preserves R (modify f).
Proof. intros H s. apply H. Qed.
End Preserves.

Lemma same_setup_refl s : same_setup s s.
Proof. unfold same_setup. repeat split; reflexivity. Qed.

Lemma same_setup_trans s1 s2 s3 : same_setup s1 s2 -> same_setup s2 s3 -> same_setup s1 s3.
Proof.
  unfold same_setup. intros (?&?&?&?&?&?&?&?&?) (?&?&?&?&?&?&?&?&?).
  repeat split; try congruence. etrans; eassumption.
Qed.

Lemma same_but_values_refl s : same_but_values s s.
Proof. unfold same_but_values. repeat split; reflexivity. Qed.

Lemma same_but_values_trans s1 s2 s3 :
  same_but_values s1 s2 -> same_but_values s2 s3 -> same_but_values s1 s3.
Proof.
  unfold same_but_values. intros (?&?&?&?&?&?&?&?&?&?&?&?&?&?) (?&?&?&?&?&?&?&?&?&?&?&?&?&?).
  repeat split; congruence.
Qed.

Lemma store_same_but_values l d : preserves same_but_values (store l d).
Proof.
  intros s. unfold store, modify, same_but_values. cbn.
  repeat split. apply length_insert.
Qed.

Ltac values_tac :=
  repeat first
    [ apply store_same_but_values
    | apply (preserves_pure _ same_but_values_refl);
      first [ apply getitem_pure | apply call_userObjCon_pure | apply as_dict_pure
            | apply chain_obj_pure | apply chain_con_pure | apply len_pure
            | apply unify_pure | apply reduce_fail_pure | apply zero_blocks_pure
            | apply zero_gobj_pure | apply bcast_pure | apply extractKeys_pure
            | apply deref_pure | solve [pure_tac] ]
    | apply (preserves_bind _ same_but_values_trans); [|intros ?]
    | apply (preserves_foldM _ same_but_values_refl same_but_values_trans); intros ? ?
    | match goal with
      | |- preserves _ (if ?b then _ else _) => destruct b
      | |- preserves _ (match ?x with _ => _ end) => destruct x
      end
    | progress cbv beta zeta ].

Lemma setitem_same_but_values funcs key v : preserves same_but_values (setitem funcs key v).
Proof. unfold setitem. values_tac. Qed.

Lemma complexifyFuncs_same_but_values funcs keys :
  preserves same_but_values (_complexifyFuncs funcs keys).
Proof. unfold _complexifyFuncs. values_tac. Qed.

Lemma sens_scalar_same_but_values funcs funcSens iKey g :
  preserves same_but_values (sens_scalar funcs funcSens iKey g).
Proof. unfold sens_scalar. repeat first [apply setitem_same_but_values | progress values_tac]. Qed.

Lemma sens_vector_same_but_values funcs funcSens iKey g :
  preserves same_but_values (sens_vector funcs funcSens iKey g).
Proof. unfold sens_vector. repeat first [apply setitem_same_but_values | progress values_tac]. Qed.

(** X16. sens, whether it returns or raises, changes nothing of the object but
    the values held by the stored dictionaries: the processor sets and
    their callbacks, the flags, the optimization problem, the combination
    function, the constraint names, the communication pattern, the three key
    sets and the reference self.funcs are as before, and no dictionary is
    added to the store. *)
Theorem sens_changes_values_only (env : peers) (x fObj fCon : pyval) (s : multiPointSparse) :
  same_but_values s (final (sens env x fObj fCon s)).
Proof.
  revert s. change (preserves same_but_values (sens env x fObj fCon)).
  unfold sens, sens_local, sens_finish.
  repeat first [ apply run_callbacks_pure
               | apply complexifyFuncs_same_but_values
               | apply sens_scalar_same_but_values | apply sens_vector_same_but_values
               | progress values_tac ].
Qed.

Lemma alloc_same_setup d : preserves same_setup (alloc d).
Proof.
  intros s. unfold alloc. cbn. unfold same_setup. cbn.
  repeat split. now apply prefix_app_r.
Qed.

(** X15. obj, whether it returns or raises, leaves the setup as it is: the
    processor sets and their callbacks, the dummy names, the flags, the
    roots, the optimization problem, the combination function and the
    constraint names.  It writes into no dictionary that was stored before
    the call: the snapshot it keeps is a new one. *)
Theorem obj_keeps_setup (env : peers) (x : pyval) (s : multiPointSparse) :
  same_setup s (final (obj env x s)).
Proof.
  revert s. change (preserves same_setup (obj env x)).
  unfold obj.
  apply (preserves_bind _ same_setup_trans);
    [apply (preserves_pure _ same_setup_refl), obj_local_pure | intros res].
  apply (preserves_bind _ same_setup_trans); [|intros _].
  { intros s. destruct (discover_pattern_final env res s) as [->|[cp ->]];
      [apply same_setup_refl|]. unfold same_setup. cbn. repeat split; reflexivity. }
  unfold obj_finish.
  apply (preserves_bind _ same_setup_trans);
    [apply (preserves_pure _ same_setup_refl), pure_get | intros self].
  apply (preserves_bind _ same_setup_trans);
    [apply (preserves_pure _ same_setup_refl), pure_unwrap | intros cp].
  apply (preserves_bind _ same_setup_trans);
    [apply (preserves_pure _ same_setup_refl), unify_pure | intros allFuncs].
  apply (preserves_bind _ same_setup_trans);
    [apply (preserves_pure _ same_setup_refl), reduce_fail_pure | intros fail].
  apply (preserves_bind _ same_setup_trans); [apply alloc_same_setup | intros l].
  apply (preserves_bind _ same_setup_trans);
    [apply preserves_modify; intros s0; unfold same_setup; cbn; repeat split; reflexivity
    | intros _].
  apply (preserves_bind _ same_setup_trans);
    [apply (preserves_pure _ same_setup_refl), pure_unwrap | intros ck].
  apply (preserves_bind _ same_setup_trans);
    [apply preserves_modify; intros s0; unfold same_setup; cbn; repeat split; reflexivity
    | intros _].
  apply (preserves_pure _ same_setup_refl). unfold bcast. pure_tac; try apply extractKeys_pure.
Qed.

(** ** The values obj and sens return are those of rank 0 *)







(** ** _extractKeys *)

Lemma extractKeys_loop_run {St} (funcs : dict pyval) (keys : list string) :
  forall (acc : dict pyval) (s : St),
    foldM (fun newDict key =>
             v <- unwrap (dict_get funcs key) (KeyError key) ;;
             ret (dict_set newDict key v)) keys acc s
    = match List.find (fun k => negb (dict_mem funcs k)) keys with
      | Some missing => (s, [], inl (KeyError missing))
      | None =>
          (s, [],
           inr (fold_left (fun d k => match dict_get funcs k with
                                      | Some v => dict_set d k v
                                      | None => d
                                      end) keys acc))
      end.
Proof.
  induction keys as [|k keys IH]; intros acc s; [reflexivity|].
  cbn [foldM List.find fold_left]. unfold dict_mem.
  destruct (dict_get funcs k) as [v|]; cbn [negb unwrap].
  - rewrite bind_bind, !bind_ret. apply IH.
  - now rewrite bind_bind, bind_raise.
Qed.

Lemma extracted_lookup (funcs : dict pyval) (keys : list string) :
  forall (acc : dict pyval) (k : string),
    List.find (fun k => negb (dict_mem funcs k)) keys = None ->
    dict_get (fold_left (fun d k => match dict_get funcs k with
                                    | Some v => dict_set d k v
                                    | None => d
                                    end) keys acc) k
    = if bool_decide (k ∈ keys) then dict_get funcs k else dict_get acc k.
Proof.
  induction keys as [|k0 keys IH]; intros acc k Hfind; [reflexivity|].
  cbn [List.find fold_left] in *. unfold dict_mem in Hfind.
  destruct (dict_get funcs k0) as [v|] eqn:Hk0; [|discriminate]. cbn [negb] in Hfind.
  rewrite (IH _ k Hfind).
  destruct (bool_decide_reflect (k ∈ keys)) as [Hin|Hout].
  - now rewrite bool_decide_eq_true_2 by now apply list_elem_of_further.
  - destruct (decide (k0 = k)) as [->|Hne].
    + rewrite bool_decide_eq_true_2 by apply list_elem_of_here.
      now rewrite dict_get_set_eq.
    + rewrite bool_decide_eq_false_2 by (rewrite elem_of_cons; intros [?|?]; congruence).
      now apply dict_get_set_ne.
Qed.

Lemma extracted_keys (funcs : dict pyval) (keys : list string) :
  forall (acc : dict pyval),
    List.find (fun k => negb (dict_mem funcs k)) keys = None ->
    NoDup (dict_keys acc ++ keys) ->
    dict_keys (fold_left (fun d k => match dict_get funcs k with
                                     | Some v => dict_set d k v
                                     | None => d
                                     end) keys acc)
    = dict_keys acc ++ keys.
Proof.
  induction keys as [|k0 keys IH]; intros acc Hfind Hnd; [now rewrite app_nil_r|].
  cbn [List.find fold_left] in *. unfold dict_mem in Hfind.
  destruct (dict_get funcs k0) as [v|] eqn:Hk0; [|discriminate]. cbn [negb] in Hfind.
  assert (k0 ∉ dict_keys acc) as Hfresh.
  { intros Hin. apply NoDup_app in Hnd as (_ & Hdisj & _).
    apply (Hdisj k0 Hin), list_elem_of_here. }
  rewrite IH; [|done|]; rewrite dict_set_fresh by done; unfold dict_keys;
    rewrite map_app, <- app_assoc; [reflexivity | exact Hnd].
Qed.

(** X21. _extractKeys raises the KeyError of the first of [keys] that [funcs]
    does not hold, and returns when it holds them all: the new dictionary
    holds the keys of [keys] and no other, each with the value it has in
    [funcs], in the order of [keys].  It makes no collective call and
    changes nothing. *)
Theorem extractKeys_total {St} (funcs : dict pyval) (keys : list string) (s : St) :
  match List.find (fun k => negb (dict_mem funcs k)) keys with
  | Some missing => _extractKeys funcs keys s = (s, [], inl (KeyError missing))
  | None =>
      exists newDict,
        _extractKeys funcs keys s = (s, [], inr newDict) /\
        (forall k, dict_get newDict k
                   = if bool_decide (k ∈ keys) then dict_get funcs k else None) /\
        (NoDup keys -> dict_keys newDict = keys)
  end.
Proof.
  unfold _extractKeys. rewrite extractKeys_loop_run.
  destruct (List.find _ keys) eqn:Hfind; [reflexivity|].
  eexists. split; [reflexivity|]. split.
  - intros k. now rewrite extracted_lookup.
  - intros Hnd. now rewrite extracted_keys.
Qed.

Lemma extractKeys_total_witness :
  _extractKeys [("a", VFloat 3); ("b", VFloat 4)] ["b"; "c"; "d"] tt
  = (tt, [], inl (KeyError "c")) /\
  exists newDict,
    _extractKeys [("a", VFloat 3); ("b", VFloat 4); ("c", VFloat 5)] ["c"; "a"] tt
    = (tt, [], inr newDict) /\
    (forall k, dict_get newDict k
               = if bool_decide (k ∈ ["c"; "a"])
                 then dict_get [("a", VFloat 3); ("b", VFloat 4); ("c", VFloat 5)] k
                 else None) /\
    (NoDup ["c"; "a"] -> dict_keys newDict = ["c"; "a"]).
Proof.
  split.
  - exact (extractKeys_total [("a", VFloat 3); ("b", VFloat 4)] ["b"; "c"; "d"] tt).
  - exact (extractKeys_total [("a", VFloat 3); ("b", VFloat 4); ("c", VFloat 5)] ["c"; "a"] tt).
Defined.

(** ** _complexifyFuncs *)

Lemma widened_idem v : widened (widened v) = widened v.
Proof. now destruct v. Qed.

Lemma complexified_keys keys d : dict_keys (complexified keys d) = dict_keys d.
Proof.
  unfold complexified, dict_keys. rewrite map_map. apply map_ext.
  intros [k v]. cbn. now destruct (bool_decide _).
Qed.

Lemma complexified_get keys d k :
  dict_get (complexified keys d) k
  = match dict_get d k with
    | Some v => Some (if bool_decide (k ∈ keys) then widened v else v)
    | None => None
    end.
Proof.
  unfold complexified. induction d as [|[k' v'] d IH]; [reflexivity|].
  cbn [map fst snd]. destruct (bool_decide_reflect (k' ∈ keys)) as [Hin|Hout]; cbn [dict_get].
  - destruct (String.eqb_spec k' k) as [->|Hne]; [|exact IH].
    now rewrite bool_decide_eq_true_2.
  - destruct (String.eqb_spec k' k) as [->|Hne]; [|exact IH].
    now rewrite bool_decide_eq_false_2.
Qed.

Lemma complexified_nil d : complexified [] d = d.
Proof.
  unfold complexified. rewrite <- (map_id d) at 2. apply map_ext. intros [k v].
  now rewrite bool_decide_eq_false_2 by apply not_elem_of_nil.
Qed.

Lemma complexified_cons k keys d :
  complexified keys (complexified [k] d) = complexified (k :: keys) d.
Proof.
  unfold complexified. rewrite map_map. apply map_ext. intros [k' v]. cbn [fst snd].
  destruct (decide (k' = k)) as [->|Hne].
  - rewrite (bool_decide_eq_true_2 (k ∈ [k])) by apply list_elem_of_here.
    rewrite (bool_decide_eq_true_2 (k ∈ k :: keys)) by apply list_elem_of_here.
    cbn [fst snd]. destruct (bool_decide (k ∈ keys)); [now rewrite widened_idem | done].
  - rewrite (bool_decide_eq_false_2 (k' ∈ [k]))
      by (rewrite list_elem_of_singleton; congruence).
    cbn [fst snd].
    destruct (bool_decide_reflect (k' ∈ keys)) as [Hin|Hout].
    + now rewrite bool_decide_eq_true_2 by now apply list_elem_of_further.
    + now rewrite bool_decide_eq_false_2 by (rewrite elem_of_cons; intros [?|?]; congruence).
Qed.

(** One round of the loop writes [widened v] under the key. *)
Lemma dict_set_complexified (d : dict pyval) k v :
  NoDup (dict_keys d) -> dict_get d k = Some v ->
  dict_set d k (widened v) = complexified [k] d.
Proof.
  unfold complexified. induction d as [|[k' v'] d IH]; intros Hnd Hget; [done|].
  cbn in Hnd. apply NoDup_cons in Hnd as [Hk' Hnd]. cbn [dict_get dict_set map fst snd] in *.
  destruct (String.eqb_spec k' k) as [->|Hne].
  - injection Hget as ->.
    rewrite bool_decide_eq_true_2 by apply list_elem_of_here. f_equal.
    rewrite <- (map_id d) at 1. apply map_ext_in. intros [k2 v2] Hin. cbn [fst snd].
    rewrite bool_decide_eq_false_2; [done|].
    rewrite list_elem_of_singleton. intros ->. apply Hk'.
    unfold dict_keys. apply list_elem_of_fmap. exists (k, v2). split; [done|].
    now apply list_elem_of_In.
  - rewrite bool_decide_eq_false_2 by (rewrite list_elem_of_singleton; congruence).
    f_equal. now apply IH.
Qed.

Lemma dict_set_same {V} (d : dict V) k v : dict_get d k = Some v -> dict_set d k v = d.
Proof.
  induction d as [|[k' v'] d IH]; [done|]. cbn.
  destruct (String.eqb k' k); [now intros [= ->] | intros H; f_equal; auto].
Qed.

Lemma widened_scalar v : isscalar v = true -> widened v = v.
Proof. now destruct v. Qed.

Lemma astype_D_widened v :
  isscalar v = false -> is_vector v = true -> astype_D v = inr (widened v).
Proof. now destruct v. Qed.

Lemma set_heap_same (s : multiPointSparse) l d :
  heap s !! l = Some d -> set_heap s (<[l := d]> (heap s)) = s.
Proof. intros H. destruct s. unfold set_heap. cbn in *. f_equal. now apply list_insert_id. Qed.

(** One round of the loop of _complexifyFuncs. *)
Lemma complexifyFuncs_round (l : nat) (s : multiPointSparse) (k : string) (d : dict pyval) v :
  NoDup (dict_keys d) ->
  (l < length (heap s))%nat ->
  dict_get d k = Some v ->
  isscalar v = true \/ is_vector v = true ->
  (l <- unwrap (Some l) not_subscriptable ;;
   d <- deref l ;;
   v <- unwrap (dict_get d k) (KeyError k) ;;
   if isscalar v then ret tt
   else v' <- lift (astype_D v) ;; store l (dict_set d k v'))
    (set_heap s (<[l := d]> (heap s)))
  = (set_heap s (<[l := complexified [k] d]> (heap s)), [], inr tt).
Proof.
  intros Hnd Hl Hv Hkind.
  cbn [unwrap]. rewrite bind_ret.
  unfold deref. rewrite !bind_bind, bind_get. cbn [heap set_heap].
  rewrite list_lookup_insert_eq by done. cbn [unwrap]. rewrite bind_ret, Hv.
  cbn [unwrap]. rewrite bind_ret.
  destruct (isscalar v) eqn:Hsc.
  - rewrite <- (dict_set_complexified d k v Hnd Hv), (widened_scalar v Hsc).
    now rewrite (dict_set_same d k v Hv).
  - destruct Hkind as [Hkind|Hkind]; [congruence|].
    rewrite (astype_D_widened v Hsc Hkind). cbn [lift]. rewrite bind_ret.
    unfold store, modify. cbn [heap set_heap].
    rewrite list_insert_insert_eq.
    now rewrite (dict_set_complexified d k v Hnd Hv).
Qed.

Lemma complexifyFuncs_loop (l : nat) (s : multiPointSparse) (keys : list string) :
  forall d,
    NoDup (dict_keys d) ->
    (l < length (heap s))%nat ->
    (forall k, k ∈ keys -> exists v, dict_get d k = Some v /\
                                     (isscalar v = true \/ is_vector v = true)) ->
    foldM (fun _ key =>
             l <- unwrap (Some l) not_subscriptable ;;
             d <- deref l ;;
             v <- unwrap (dict_get d key) (KeyError key) ;;
             if isscalar v then ret tt
             else v' <- lift (astype_D v) ;; store l (dict_set d key v'))
          keys tt (set_heap s (<[l := d]> (heap s)))
    = (set_heap s (<[l := complexified keys d]> (heap s)), [], inr tt).
Proof.
  induction keys as [|k keys IH]; intros d Hnd Hl Hkeys.
  - cbn [foldM]. now rewrite complexified_nil.
  - cbn [foldM].
    destruct (Hkeys k (list_elem_of_here _ _)) as (v & Hv & Hkind).
    rewrite (bind_inr _ _ _ _ _ _ (complexifyFuncs_round l s k d v Hnd Hl Hv Hkind)).
    rewrite with_trace_nil, <- (complexified_cons k keys d).
    apply IH; [now rewrite complexified_keys | done |].
    intros k' Hk'. destruct (Hkeys k' ltac:(now apply list_elem_of_further))
      as (v' & Hv' & Hkind').
    rewrite complexified_get, Hv'. eexists. split; [reflexivity|].
    destruct (bool_decide _); [|done]. destruct v'; cbn in *; tauto.
Qed.

(** X22. _complexifyFuncs works in place.  Given a reference to a stored
    dictionary that holds every key of [keys], each with a scalar or a
    one-dimensional array, it returns the same reference, and the
    dictionary behind it has the same keys in the same order; under a key
    of [keys] a real array has become the complex array with imaginary
    parts 0.0; scalars, complex arrays and the values under other keys are
    as before.  Called again it changes nothing more. *)
Theorem complexifyFuncs_in_place
    (l : nat) (keys : gset string) (d : dict pyval) (s : multiPointSparse) :
  heap s !! l = Some d ->
  NoDup (dict_keys d) ->
  (forall k, k ∈ keys -> exists v, dict_get d k = Some v /\
                                   (isscalar v = true \/ is_vector v = true)) ->
  let d' := complexified (elements keys) d in
  let s' := set_heap s (<[l := d']> (heap s)) in
  _complexifyFuncs (Some l) (Some keys) s = (s', [], inr (Some l)) /\
  dict_keys d' = dict_keys d /\
  (forall k, dict_get d' k
             = match dict_get d k with
               | Some v => Some (if bool_decide (k ∈ keys) then widened v else v)
               | None => None
               end) /\
  _complexifyFuncs (Some l) (Some keys) s' = (s', [], inr (Some l)).
Proof.
  intros Hl Hnd Hkeys d' s'.
  pose proof (lookup_lt_Some _ _ _ Hl) as Hlt.
  assert (forall k, k ∈ elements keys ->
            exists v, dict_get d k = Some v /\ (isscalar v = true \/ is_vector v = true))
    as Hkeys' by (intros k Hk; apply Hkeys; now apply elem_of_elements).
  assert (forall d0, NoDup (dict_keys d0) ->
            (forall k, k ∈ elements keys ->
               exists v, dict_get d0 k = Some v /\ (isscalar v = true \/ is_vector v = true)) ->
            _complexifyFuncs (Some l) (Some keys) (set_heap s (<[l := d0]> (heap s)))
            = (set_heap s (<[l := complexified (elements keys) d0]> (heap s)), [],
               inr (Some l))) as Hrun.
  { intros d0 Hnd0 Hk0. unfold _complexifyFuncs. cbn [unwrap]. rewrite bind_ret.
    rewrite (bind_inr _ _ _ _ _ _ (complexifyFuncs_loop l s (elements keys) d0 Hnd0 Hlt Hk0)).
    reflexivity. }
  split; [|split; [apply complexified_keys|split]].
  - unfold s', d'. rewrite <- (set_heap_same s l d Hl) at 1. now apply Hrun.
  - intros k. unfold d'. rewrite complexified_get.
    destruct (dict_get d k); [|done].
    destruct (bool_decide_reflect (k ∈ elements keys)) as [H|H];
      [rewrite bool_decide_eq_true_2 | rewrite bool_decide_eq_false_2];
      try done; now rewrite <- elem_of_elements.
  - unfold s'. rewrite Hrun.
    + unfold d'. f_equal. f_equal. f_equal. f_equal.
      unfold complexified. rewrite map_map. apply map_ext. intros [k v]. cbn [fst snd].
      destruct (bool_decide (k ∈ elements keys)) eqn:E; cbn [fst snd]; rewrite E;
        [now rewrite widened_idem | done].
    + unfold d'. now rewrite complexified_keys.
    + intros k Hk. destruct (Hkeys' k Hk) as (v & Hv & Hkind).
      unfold d'. rewrite complexified_get, Hv. eexists. split; [reflexivity|].
      destruct (bool_decide _); [|done]. destruct v; cbn in *; tauto.
Qed.

Lemma complexifyFuncs_in_place_witness :
  let d := [("a", VFloat 3); ("v", VArray [1; 2]%float); ("w", VArray [5]%float)] in
  let s := set_heap (init (Comm 0 1)) [d] in
  let keys : gset string := {["a"; "v"]} in
  let d' := complexified (elements keys) d in
  let s' := set_heap s (<[0%nat := d']> (heap s)) in
  _complexifyFuncs (Some 0%nat) (Some keys) s = (s', [], inr (Some 0%nat)) /\
  dict_keys d' = dict_keys d /\
  (forall k, dict_get d' k
             = match dict_get d k with
               | Some v => Some (if bool_decide (k ∈ keys) then widened v else v)
               | None => None
               end) /\
  _complexifyFuncs (Some 0%nat) (Some keys) s' = (s', [], inr (Some 0%nat)).
Proof.
  intros d s keys.
  apply (complexifyFuncs_in_place 0 keys d s).
  - reflexivity.
  - apply (bool_decide_unpack _). vm_compute. exact I.
  - intros k Hk. unfold keys in Hk. apply elem_of_union in Hk as [Hk|Hk];
      apply elem_of_singleton in Hk; subst k; eexists; (split; [reflexivity|]); cbn; tauto.
Defined.

(** ** The local result of a set: res.update(tmp), callback after callback *)

Lemma dict_set_NoDup {V} (d : dict V) k v : NoDup (dict_keys d) -> NoDup (dict_keys (dict_set d k v)).
Proof.
  intros Hnd. rewrite dict_keys_set. unfold dict_mem.
  destruct (dict_get d k) eqn:E; [done|].
  apply NoDup_app. split; [done|]. split; [|apply NoDup_singleton].
  intros k' Hk' Hk. apply list_elem_of_singleton in Hk. subst k'.
  now apply dict_get_None in E.
Qed.

Lemma dict_update_NoDup {V} (o d : dict V) : NoDup (dict_keys d) -> NoDup (dict_keys (dict_update d o)).
Proof.
  unfold dict_update. revert d. induction o as [|[k v] o IH]; intros d Hnd; [done|].
  cbn [fold_left]. apply IH. now apply dict_set_NoDup.
Qed.

Lemma dict_update_get {V} (o d : dict V) k :
  NoDup (dict_keys o) ->
  dict_get (dict_update d o) k
  = match dict_get o k with Some v => Some v | None => dict_get d k end.
Proof.
  unfold dict_update. revert d. induction o as [|[k0 v0] o IH]; intros d Hnd; [done|].
  cbn in Hnd. apply NoDup_cons in Hnd as [Hk0 Hnd].
  cbn [fold_left dict_get fst snd]. rewrite (IH _ Hnd).
  destruct (String.eqb_spec k0 k) as [->|Hne].
  - rewrite (proj2 (dict_get_None o k) Hk0). apply dict_get_set_eq.
  - now rewrite dict_get_set_ne.
Qed.

Lemma last_value_acc (ds : list (dict pyval)) (k : string) (found : option pyval) :
  fold_left (fun found tmp => match dict_get tmp k with Some v => Some v | None => found end)
            ds found
  = match last_value ds k with Some v => Some v | None => found end.
Proof.
  unfold last_value. revert found. induction ds as [|tmp ds IH]; intros found; [done|].
  cbn [fold_left]. rewrite IH, (IH (match dict_get tmp k with Some v => Some v | None => None end)).
  destruct (fold_left _ ds None); [done|]. now destruct (dict_get tmp k).
Qed.

Lemma last_value_cons (tmp : dict pyval) (ds : list (dict pyval)) (k : string) :
  last_value (tmp :: ds) k
  = match last_value ds k with Some v => Some v | None => dict_get tmp k end.
Proof.
  unfold last_value at 1. cbn [fold_left]. rewrite last_value_acc.
  destruct (last_value ds k); [done|]. now destruct (dict_get tmp k).
Qed.

Lemma callbacks_loop {St F} message (call : F -> pyval) (fs : list F) (ds : list (dict pyval)) :
  Forall2 (fun f tmp => call f = VDict tmp) fs ds ->
  forall (acc : dict pyval) (s : St),
    foldM (fun res func =>
             match call func with
             | VNone => raise (AssertionError message)
             | VDict tmp => ret (dict_update res tmp)
             | _ => raise (TypeError "cannot convert dictionary update sequence")
             end) fs acc s
    = (s, [], inr (fold_left dict_update ds acc)).
Proof.
  induction 1 as [|f tmp fs ds Hf _ IH]; intros acc s; [reflexivity|].
  cbn [foldM fold_left]. rewrite Hf, bind_ret. apply IH.
Qed.

Lemma merged_get (ds : list (dict pyval)) :
  Forall (fun tmp => NoDup (dict_keys tmp)) ds ->
  forall (acc : dict pyval) (k : string),
    dict_get (fold_left dict_update ds acc) k
    = match last_value ds k with Some v => Some v | None => dict_get acc k end.
Proof.
  induction 1 as [|tmp ds Hnd _ IH]; intros acc k; [reflexivity|].
  cbn [fold_left]. rewrite IH, (dict_update_get tmp acc k Hnd), last_value_cons.
  now destruct (last_value ds k).
Qed.

Lemma merged_NoDup (ds : list (dict pyval)) :
  forall acc, NoDup (dict_keys acc) -> NoDup (dict_keys (fold_left dict_update ds acc)).
Proof.
  induction ds as [|tmp ds IH]; intros acc Hnd; [done|].
  cbn [fold_left]. apply IH. now apply dict_update_NoDup.
Qed.

(** X20. The callbacks of an active set are called in the order of the list,
    each once; when all of them return dictionaries, the local result
    holds, under every name, the value of the last callback that returned
    the name, and it always has a 'fail' entry: the last one returned, or
    False when no callback returned one.  Nothing is communicated and the
    object is not changed. *)
Theorem run_callbacks_merges {St F}
    (message : string) (call : F -> pyval) (fs : list F) (ds : list (dict pyval)) (s : St) :
  Forall2 (fun f tmp => call f = VDict tmp) fs ds ->
  Forall (fun tmp => NoDup (dict_keys tmp)) ds ->
  exists res,
    run_callbacks message call fs s = (s, [], inr res) /\
    NoDup (dict_keys res) /\
    (forall k, k <> "fail" -> dict_get res k = last_value ds k) /\
    dict_get res "fail" = Some (default (VBool false) (last_value ds "fail")).
Proof.
  intros Hcalls Hnd. unfold run_callbacks.
  rewrite (bind_inr _ _ _ _ _ _ (callbacks_loop message call fs ds Hcalls [] s)).
  rewrite with_trace_nil.
  set (merged := fold_left dict_update ds []).
  assert (NoDup (dict_keys merged)) as Hm by (apply merged_NoDup; constructor).
  assert (forall k, dict_get merged k = last_value ds k) as Hget.
  { intros k. unfold merged. rewrite (merged_get ds Hnd [] k).
    now destruct (last_value ds k). }
  eexists. split; [reflexivity|]. unfold dict_mem. rewrite Hget.
  destruct (last_value ds "fail") as [v|] eqn:Hfail.
  - split; [done|]. split; [intros k _; apply Hget|]. now rewrite Hget, Hfail.
  - split; [now apply dict_set_NoDup|]. split.
    + intros k Hk. rewrite dict_get_set_ne by congruence. apply Hget.
    + apply dict_get_set_eq.
Qed.

Lemma run_callbacks_merges_witness :
  let f1 : objCallback := fun _ => VDict [("a", VFloat 1); ("b", VFloat 2)] in
  let f2 : objCallback := fun _ => VDict [("b", VFloat 5); ("fail", VBool true)] in
  let ds := [[("a", VFloat 1); ("b", VFloat 2)]; [("b", VFloat 5); ("fail", VBool true)]] in
  exists res,
    run_callbacks "" (fun f : objCallback => f VNone) [f1; f2] tt = (tt, [], inr res) /\
    NoDup (dict_keys res) /\
    (forall k, k <> "fail" -> dict_get res k = last_value ds k) /\
    dict_get res "fail" = Some (default (VBool false) (last_value ds "fail")).
Proof.
  intros f1 f2 ds.
  apply (run_callbacks_merges "" (fun f : objCallback => f VNone) [f1; f2] ds tt).
  - repeat constructor.
  - repeat constructor; apply (bool_decide_unpack _); vm_compute; exact I.
Defined.

(** ** The box MPError prints *)






Lemma slen_dashes n : String.length (dashes n) = n.
Proof. unfold dashes. induction n as [|n IH]; cbn; auto. Qed.


Lemma slen_border : String.length border = 80%nat.
Proof. reflexivity. Qed.







(** *** No word of the message is lost *)


Lemma sapp_not_nil (a : string) (c : ascii) : a +:+ String c "" <> "".
Proof. destruct a; cbv [String.append]; discriminate. Qed.












(** ** obj on a job of one process *)















(** ** The shapes of the gradients *)

Lemma add_rows_length (t inc : list float) :
  length inc = length t -> length (add_rows t inc) = length t.
Proof.
  revert inc. induction t as [|x t IH]; intros [|y inc] H; cbn in *; try done.
  f_equal. apply IH. lia.
Qed.

Lemma iadd_row_length (t inc t' : list float) :
  iadd_row t inc = inr t' -> length t' = length t.
Proof.
  unfold iadd_row. destruct (Nat.eqb_spec (length inc) (length t)) as [Heq|Hne].
  - intros [= <-]. now apply add_rows_length.
  - destruct inc as [|y [|]]; try discriminate. intros [= <-]. apply length_map.
Qed.

Lemma iadd_rows_shape (n : nat) (t : list (list float)) :
  forall inc t', iadd_rows t inc = inr t' ->
    length t' = length t /\
    (Forall (fun row => length row = n) t -> Forall (fun row => length row = n) t').
Proof.
  induction t as [|r t IH]; intros [|s inc] t' H; cbn in H; try discriminate.
  - injection H as <-. done.
  - destruct (iadd_row r s) as [e|r'] eqn:Hr; [now destruct (iadd_rows t inc)|].
    destruct (iadd_rows t inc) as [e|t''] eqn:Ht; [discriminate|]. injection H as <-.
    destruct (IH _ _ Ht) as [Hlen Hrows]. split; [cbn; lia|].
    intros Hall. apply Forall_cons in Hall as [Hr0 Hall]. constructor; [|auto].
    now rewrite (iadd_row_length _ _ _ Hr).
Qed.

Lemma iadd_vector (n : nat) (g inc g' : pyval) :
  is_vector_of n g -> iadd g inc = inr g' -> is_vector_of n g'.
Proof.
  intros (t & -> & Hn). destruct inc; cbn; try discriminate.
  - intros [= <-]. eexists. split; [reflexivity|]. now rewrite length_map.
  - intros [= <-]. eexists. split; [reflexivity|]. now rewrite length_map.
  - destruct (iadd_row t a) as [e|t'] eqn:Hrow; [discriminate|]. intros [= <-].
    eexists. split; [reflexivity|]. now rewrite (iadd_row_length _ _ _ Hrow).
Qed.

Lemma iadd_matrix (rows cols : nat) (g inc g' : pyval) :
  is_matrix_of rows cols g -> iadd g inc = inr g' -> is_matrix_of rows cols g'.
Proof.
  intros (t & -> & Hrows & Hcols). destruct inc; cbn; try discriminate.
  destruct (Nat.eqb (length m) (length t)).
  - destruct (iadd_rows t m) as [e|t'] eqn:Ht; [discriminate|]. intros [= <-].
    destruct (iadd_rows_shape cols _ _ _ Ht) as [Hlen Hall].
    exists t'. split; [done|]. split; [lia | auto].
  - destruct m as [|row [|]]; try discriminate.
    destruct (iadd_rows t (replicate (length t) row)) as [e|t'] eqn:Ht; [discriminate|].
    intros [= <-]. destruct (iadd_rows_shape cols _ _ _ Ht) as [Hlen Hall].
    exists t'. split; [done|]. split; [lia | auto].
Qed.

(** Replacing the value under a key by one of the same shape. *)
Lemma by_dvSet_set op (good : nat -> pyval -> Prop) dvSets d dv v v' :
  by_dvSet op good dvSets d -> dict_get d dv = Some v ->
  (forall n, good n v -> good n v') ->
  by_dvSet op good dvSets (dict_set d dv v').
Proof.
  intros [Hkeys Hvals] Hget Hgood. split.
  - intros k. rewrite dict_keys_set_iff, <- Hkeys.
    pose proof (dict_get_Some_key _ _ _ Hget). split; [intros [?| ->]; done | tauto].
  - intros k w. destruct (decide (dv = k)) as [->|Hne].
    + rewrite dict_get_set_eq. intros [= <-].
      destruct (Hvals k v Hget) as (n & Hn & Hv). exists n. split; [done | auto].
    + rewrite dict_get_set_ne by done. apply Hvals.
Qed.

Section Triples.
Variable P : multiPointSparse -> Prop.

Lemma triple_ret {A} (a : A) (Q : A -> Prop) : Q a -> triple P (ret a) Q.
Proof. intros HQ s s' tr a' HP [= <- _ <-]. done. Qed.

Lemma triple_raise {A} e (Q : A -> Prop) : triple P (raise e) Q.
Proof. intros s s' tr a HP [=]. Qed.

Lemma triple_get : triple P get P.
Proof. intros s s' tr a HP [= <- _ <-]. done. Qed.

Lemma triple_emit e : triple P (emit e) (fun _ => True).
Proof. intros s s' tr a HP [= <- _ _]. done. Qed.

Lemma triple_modify f : (forall s, P s -> P (f s)) -> triple P (modify f) (fun _ => True).
Proof. intros Hf s s' tr a HP [= <- _ _]. auto. Qed.

Lemma triple_unwrap {A} (o : option A) e (Q : A -> Prop) :
  (forall a, o = Some a -> Q a) -> triple P (unwrap o e) Q.
Proof. intros HQ s s' tr a HP H. apply unwrap_inr_inv in H as (-> & -> & _). auto. Qed.

Lemma triple_lift {A} (r : exn + A) (Q : A -> Prop) :
  (forall a, r = inr a -> Q a) -> triple P (lift r) Q.
Proof. intros HQ s s' tr a HP H. apply lift_inr_inv in H as (-> & -> & _). auto. Qed.

Lemma triple_bind {A B} (m : M multiPointSparse A) (k : A -> M multiPointSparse B)
    (Q1 : A -> Prop) (Q : B -> Prop) :
  triple P m Q1 -> (forall a, Q1 a -> triple P (k a) Q) -> triple P (bind m k) Q.
Proof.
  intros Hm Hk s s' tr b HP H.
  apply bind_inr_inv in H as (s1 & t1 & a & t2 & Hrun & Hrest & _).
  destruct (Hm _ _ _ _ HP Hrun) as [HP1 HQ1]. exact (Hk a HQ1 _ _ _ _ HP1 Hrest).
Qed.

Lemma triple_weaken {A} (m : M multiPointSparse A) (Q Q' : A -> Prop) :
  triple P m Q -> (forall a, Q a -> Q' a) -> triple P m Q'.
Proof. intros Hm HQ s s' tr a HP H. destruct (Hm _ _ _ _ HP H). auto. Qed.

Lemma triple_foldM {A B} (f : A -> B -> M multiPointSparse A) (Q : A -> Prop) l acc :
  Q acc -> (forall a x, Q a -> triple P (f a x) Q) -> triple P (foldM f l acc) Q.
Proof.
  intros Hacc Hf. revert acc Hacc. induction l as [|x l IH]; intros acc Hacc.
  - now apply triple_ret.
  - cbn [foldM]. apply (triple_bind _ _ Q); [now apply Hf | auto].
Qed.
End Triples.

Lemma triple_foldM_in {A B} P (f : A -> B -> M multiPointSparse A) (Q : A -> Prop) l acc :
  Q acc -> (forall a x, x ∈ l -> Q a -> triple P (f a x) Q) -> triple P (foldM f l acc) Q.
Proof.
  intros Hacc Hf. revert acc Hacc. induction l as [|x l IH]; intros acc Hacc.
  - now apply triple_ret.
  - cbn [foldM]. apply (triple_bind _ _ _ Q); [apply Hf; [apply list_elem_of_here | done]|].
    intros a Ha. apply IH; [|done]. intros a' x' Hx'. apply Hf. now apply list_elem_of_further.
Qed.

(** A step whose result is not looked at. *)
Ltac triple_any :=
  repeat first
    [ apply triple_raise
    | apply triple_ret; exact I
    | apply (triple_weaken _ _ _ _ (triple_get _)); intros; exact I
    | apply triple_emit
    | apply triple_modify; intros ? H; exact H
    | apply triple_unwrap; intros; exact I
    | apply triple_lift; intros; exact I
    | apply (triple_bind _ _ _ (fun _ => True)); [|intros ? _]
    | apply triple_foldM; [exact I | intros ? ? _]
    | match goal with
      | |- triple _ (if ?b then _ else _) _ => destruct b
      | |- triple _ (match ?x with _ => _ end) _ => destruct x
      end
    | progress cbv beta zeta ].

Section Shapes.
Variables (op : Optimization) (pk ok : gset string).
Let P := assembling op pk ok.

Lemma getitem_any funcs key : triple P (getitem funcs key) (fun _ => True).
Proof. unfold getitem, deref. triple_any. Qed.

Lemma setitem_any funcs key v : triple P (setitem funcs key v) (fun _ => True).
Proof. unfold setitem, deref, store. triple_any. Qed.

Lemma call_userObjCon_any funcs : triple P (call_userObjCon funcs) (fun _ => True).
Proof. unfold call_userObjCon, deref. triple_any. Qed.

Lemma complexifyFuncs_any funcs keys : triple P (_complexifyFuncs funcs keys) (fun _ => True).
Proof. unfold _complexifyFuncs, deref, store. triple_any. Qed.

Lemma len_any v : triple P (len v) (fun _ => True).
Proof. unfold len. triple_any. Qed.

Lemma as_dict_triple v : triple P (as_dict v) (fun d => v = VDict d).
Proof.
  unfold as_dict. destruct v; try apply triple_raise. now apply triple_ret.
Qed.

Lemma ndvs_of_triple dv : triple P (ndvs_of op dv) (fun n => ndvs_spec op dv = Some n).
Proof.
  unfold ndvs_of, ndvs_spec.
  apply (triple_bind _ _ _ (fun ss => dict_get (dvOffset op) dv = Some ss));
    [now apply triple_unwrap | intros ss ->].
  cbv zeta. destruct (snd ss - fst ss <? 0); [apply triple_raise | now apply triple_ret].
Qed.

(** The loops that set up zeros: lines 649-652 and the inner loop of
    lines 636-643. *)
Lemma zeros_triple (good : nat -> pyval -> Prop) (mk : nat -> pyval) :
  (forall n, good n (mk n)) ->
  forall l done acc,
    by_dvSet op good done acc ->
    triple P (foldM (fun d dvSet => ndvs <- ndvs_of op dvSet ;; ret (dict_set d dvSet (mk ndvs)))
                    l acc)
           (by_dvSet op good (done ++ l)).
Proof.
  intros Hmk. induction l as [|dv l IH]; intros done acc Hacc.
  - rewrite app_nil_r. now apply triple_ret.
  - cbn [foldM].
    apply (triple_bind _ _ _ (by_dvSet op good (done ++ [dv]))).
    + apply (triple_bind _ _ _ _ _ (ndvs_of_triple dv)). intros n Hn. apply triple_ret.
      destruct Hacc as [Hkeys Hvals]. split.
      * intros k. rewrite dict_keys_set_iff, Hkeys, elem_of_app, list_elem_of_singleton. tauto.
      * intros k v. destruct (decide (dv = k)) as [->|Hne].
        -- rewrite dict_get_set_eq. intros [= <-]. eauto.
        -- rewrite dict_get_set_ne by done. apply Hvals.
    + intros acc' Hacc'.
      replace (done ++ dv :: l) with ((done ++ [dv]) ++ l) by now rewrite <- app_assoc.
      now apply IH.
Qed.

Lemma by_dvSet_nil good : by_dvSet op good [] [].
Proof. split; [intros dv; cbn; tauto | intros dv v [=]]. Qed.

Lemma zero_gobj_triple : triple P zero_gobj (gobj_shape op).
Proof.
  unfold zero_gobj.
  apply (triple_bind _ _ _ _ _ (triple_get P)). intros self (Hop & _).
  apply (triple_bind _ _ _ (fun o => o = op)); [apply triple_unwrap; congruence | intros ? ->].
  apply (zeros_triple is_vector_of (fun n => VArray (replicate n 0%float))
           ltac:(intros n; eexists; split; [reflexivity | apply length_replicate])
           (variables op) [] [] (by_dvSet_nil _)).
Qed.

(** Lines 636-643 and 654-661. *)
Lemma zero_blocks_triple gcon :
  (forall k, k ∈ dict_keys gcon -> k ∈ pk \/ k ∈ ok) ->
  (forall k, k ∈ pk -> k ∈ dict_keys gcon) ->
  triple P (zero_blocks gcon) (gcon_shape op pk ok).
Proof.
  intros Hsub Hpk. unfold zero_blocks.
  apply (triple_bind _ _ _ _ _ (triple_get P)). intros self (Hop & _ & Hok & _).
  apply (triple_bind _ _ _ (fun o => o = ok)); [apply triple_unwrap; congruence | intros ? ->].
  set (Inv := fun (done : list string) (acc : dict pyval) =>
                (forall k, k ∈ dict_keys acc <-> k ∈ dict_keys gcon \/ k ∈ done) /\
                (forall oKey, oKey ∈ done ->
                   exists v, dict_get acc oKey = Some v /\ blocks_shape op oKey v)).
  assert (forall l done acc,
            Inv done acc ->
            triple P
              (foldM (fun gcon oKey =>
                        optProb <- unwrap (optProb self) no_optProb ;;
                        c <- unwrap (dict_get (constraints optProb) oKey) (KeyError oKey) ;;
                        blocks <- foldM (fun blocks dvSet =>
                                           ndvs <- ndvs_of optProb dvSet ;;
                                           ret (dict_set blocks dvSet
                                                  (VMatrix (replicate (ncon c)
                                                              (replicate ndvs 0%float)))))
                                        (wrt c) [] ;;
                        ret (dict_set gcon oKey (VDict blocks))) l acc)
              (Inv (done ++ l))) as Hloop.
  { induction l as [|oKey l IH]; intros done acc Hacc.
    - rewrite app_nil_r. now apply triple_ret.
    - cbn [foldM]. apply (triple_bind _ _ _ (Inv (done ++ [oKey]))).
      + apply (triple_bind _ _ _ (fun o => o = op));
          [apply triple_unwrap; congruence | intros ? ->].
        apply (triple_bind _ _ _ (fun c => dict_get (constraints op) oKey = Some c));
          [now apply triple_unwrap | intros c Hc].
        apply (triple_bind _ _ _ (by_dvSet op (is_matrix_of (ncon c)) (wrt c))).
        { apply (zeros_triple (is_matrix_of (ncon c))
                   (fun n => VMatrix (replicate (ncon c) (replicate n 0%float)))
                   ltac:(intros n; eexists; split; [reflexivity|];
                         split; [apply length_replicate|];
                         apply Forall_replicate, length_replicate)
                   (wrt c) [] [] (by_dvSet_nil _)). }
        intros blocks Hblocks. apply triple_ret. destruct Hacc as [Hkeys Hdone]. split.
        * intros k. rewrite dict_keys_set_iff, Hkeys, elem_of_app, list_elem_of_singleton. tauto.
        * intros o Ho. destruct (decide (oKey = o)) as [->|Hne].
          -- rewrite dict_get_set_eq. eexists. split; [reflexivity|]. now exists c, blocks.
          -- rewrite dict_get_set_ne by done. apply Hdone.
             apply elem_of_app in Ho as [Ho|Ho]; [done|].
             apply list_elem_of_singleton in Ho. congruence.
      + intros acc' Hacc'.
        replace (done ++ oKey :: l) with ((done ++ [oKey]) ++ l) by now rewrite <- app_assoc.
        now apply IH. }
  apply (triple_weaken _ _ (Inv ([] ++ elements ok))).
  - apply Hloop. split; [intros k; rewrite elem_of_nil; tauto | intros o Ho].
    now apply elem_of_nil in Ho.
  - intros acc [Hkeys Hdone]. cbn [app] in *. split.
    + intros k. rewrite Hkeys, elem_of_elements. split; [intros [?|?]; auto | intros [?|?]; auto].
    + intros o Ho. apply Hdone. now apply elem_of_elements.
Qed.

(** Lines 670-673 and 692-695. *)
Lemma chain_obj_triple obj sensI pick gobj :
  gobj_shape op gobj -> triple P (chain_obj obj sensI pick gobj) (gobj_shape op).
Proof.
  intros Hg. unfold chain_obj.
  apply (triple_bind _ _ _ _ _ (triple_get P)). intros self (Hop & _).
  apply triple_foldM; [exact Hg|]. intros g [dv J] Hshape. cbn [fst snd].
  apply (triple_bind _ _ _ (fun o => o = op)); [apply triple_unwrap; congruence | intros ? ->].
  destruct (existsb _ _); [|now apply triple_ret].
  apply (triple_bind _ _ _ (fun _ => True)); [triple_any | intros deriv _].
  apply (triple_bind _ _ _ (fun v => dict_get g dv = Some v));
    [now apply triple_unwrap | intros v Hv].
  apply (triple_bind _ _ _ (fun _ => True)); [triple_any | intros J' _].
  apply (triple_bind _ _ _ (fun _ => True)); [triple_any | intros inc _].
  apply (triple_bind _ _ _ (fun v' => iadd v inc = inr v'));
    [now apply triple_lift | intros v' Hv'].
  apply triple_ret. apply (by_dvSet_set op is_vector_of _ g dv v v' Hshape Hv).
  intros n Hn. exact (iadd_vector n v inc v' Hn Hv').
Qed.

Lemma gcon_shape_update gcon oKey blocks dv g g' :
  gcon_shape op pk ok gcon -> oKey ∈ ok ->
  dict_get gcon oKey = Some (VDict blocks) -> dict_get blocks dv = Some g ->
  (forall rows cols, is_matrix_of rows cols g -> is_matrix_of rows cols g') ->
  gcon_shape op pk ok (dict_set gcon oKey (VDict (dict_set blocks dv g'))).
Proof.
  intros [Hkeys Hout] Hok Hget Hg Hsame. split.
  - intros k. rewrite dict_keys_set_iff, Hkeys. split; [intros [?| ->]; auto | tauto].
  - intros o Ho. destruct (decide (oKey = o)) as [->|Hne].
    + rewrite dict_get_set_eq. eexists. split; [reflexivity|].
      destruct (Hout o Ho) as (v & Hv & con & blocks0 & Hcon & Heq & Hshape).
      rewrite Hget in Hv. injection Hv as <-. injection Heq as <-.
      exists con, (dict_set blocks dv g'). split; [done|]. split; [done|].
      apply (by_dvSet_set op _ _ blocks dv g g' Hshape Hg). auto.
    + rewrite dict_get_set_ne by done. now apply Hout.
Qed.

(** Lines 676-683 and 698-706. *)
Lemma chain_con_triple con sensI pick gcon :
  gcon_shape op pk ok gcon -> triple P (chain_con con sensI pick gcon) (gcon_shape op pk ok).
Proof.
  intros Hg. unfold chain_con.
  apply (triple_bind _ _ _ _ _ (triple_get P)). intros self (Hop & _ & Hok & _).
  apply (triple_bind _ _ _ (fun o => o = ok)); [apply triple_unwrap; congruence | intros ? ->].
  apply triple_foldM_in; [exact Hg|]. intros g oKey HoKey Hshape.
  apply elem_of_elements in HoKey.
  apply (triple_bind _ _ _ (fun o => o = op)); [apply triple_unwrap; congruence | intros ? ->].
  apply (triple_bind _ _ _ (fun _ => True)); [triple_any | intros c _].
  apply triple_foldM; [exact Hshape|]. intros g1 dv Hshape1.
  destruct (dict_get sensI dv) as [J|]; [|now apply triple_ret].
  apply (triple_bind _ _ _ (fun _ => True)); [apply (triple_weaken _ _ _ _ (as_dict_triple _)); auto
                                             | intros cond _].
  apply (triple_bind _ _ _ (fun _ => True)); [triple_any | intros v _].
  apply (triple_bind _ _ _ (fun _ => True)); [triple_any | intros deriv _].
  apply (triple_bind _ _ _ (fun b => dict_get g1 oKey = Some b));
    [now apply triple_unwrap | intros bv Hbv].
  apply (triple_bind _ _ _ _ _ (as_dict_triple bv)). intros blocks ->.
  apply (triple_bind _ _ _ (fun b => dict_get blocks dv = Some b));
    [now apply triple_unwrap | intros b Hb].
  apply (triple_bind _ _ _ (fun _ => True)); [triple_any | intros J' _].
  apply (triple_bind _ _ _ (fun _ => True)); [triple_any | intros J2 _].
  apply (triple_bind _ _ _ (fun _ => True)); [triple_any | intros inc _].
  apply (triple_bind _ _ _ (fun b' => iadd b inc = inr b'));
    [now apply triple_lift | intros b' Hb'].
  apply triple_ret. apply (gcon_shape_update g1 oKey blocks dv b b' Hshape1 HoKey Hbv Hb).
  intros rows cols Hm. exact (iadd_matrix rows cols b inc b' Hm Hb').
Qed.

Lemma sens_scalar_triple funcs funcSens iKey g :
  both_shapes op pk ok g ->
  triple P (sens_scalar funcs funcSens iKey g) (both_shapes op pk ok).
Proof.
  intros [Hgobj Hgcon]. unfold sens_scalar.
  apply (triple_bind _ _ _ _ _ (getitem_any _ _)). intros v _.
  apply (triple_bind _ _ _ (fun _ => True)); [triple_any | intros v' _].
  apply (triple_bind _ _ _ _ _ (setitem_any _ _ _)). intros _ _.
  apply (triple_bind _ _ _ _ _ (call_userObjCon_any _)). intros obj_con _.
  apply (triple_bind _ _ _ _ _ (getitem_any _ _)). intros v2 _.
  apply (triple_bind _ _ _ (fun _ => True)); [triple_any | intros v2' _].
  apply (triple_bind _ _ _ _ _ (setitem_any _ _ _)). intros _ _.
  apply (triple_bind _ _ _ (fun _ => True)); [triple_any | intros sensI _].
  apply (triple_bind _ _ _ (fun _ => True));
    [apply (triple_weaken _ _ _ _ (as_dict_triple _)); auto | intros sensD _].
  apply (triple_bind _ _ _ _ _ (chain_obj_triple _ _ _ _ Hgobj)). intros gobj' Hgobj'.
  apply (triple_bind _ _ _ _ _ (chain_con_triple _ _ _ _ Hgcon)). intros gcon' Hgcon'.
  now apply triple_ret.
Qed.

Lemma sens_vector_triple funcs funcSens iKey g :
  both_shapes op pk ok g ->
  triple P (sens_vector funcs funcSens iKey g) (both_shapes op pk ok).
Proof.
  intros Hg. unfold sens_vector.
  apply (triple_bind _ _ _ _ _ (getitem_any _ _)). intros v _.
  apply (triple_bind _ _ _ _ _ (len_any _)). intros n _.
  apply triple_foldM; [exact Hg|]. intros g1 i [Hgobj Hgcon].
  apply (triple_bind _ _ _ _ _ (getitem_any _ _)). intros v1 _.
  apply (triple_bind _ _ _ (fun _ => True)); [triple_any | intros v' _].
  apply (triple_bind _ _ _ _ _ (setitem_any _ _ _)). intros _ _.
  apply (triple_bind _ _ _ _ _ (call_userObjCon_any _)). intros obj_con _.
  apply (triple_bind _ _ _ _ _ (getitem_any _ _)). intros v2 _.
  apply (triple_bind _ _ _ (fun _ => True)); [triple_any | intros v2' _].
  apply (triple_bind _ _ _ _ _ (setitem_any _ _ _)). intros _ _.
  apply (triple_bind _ _ _ (fun _ => True)); [triple_any | intros sensI _].
  apply (triple_bind _ _ _ (fun _ => True));
    [apply (triple_weaken _ _ _ _ (as_dict_triple _)); auto | intros sensD _].
  apply (triple_bind _ _ _ _ _ (chain_obj_triple _ _ _ _ Hgobj)). intros gobj' Hgobj'.
  apply (triple_bind _ _ _ _ _ (chain_con_triple _ _ _ _ Hgcon)). intros gcon' Hgcon'.
  now apply triple_ret.
Qed.

(** Lines 632-633. *)
Lemma pass_through_triple (funcSens : dict pyval) :
  triple P
    (foldM (fun gcon pKey =>
              v <- unwrap (dict_get funcSens pKey) (KeyError pKey) ;;
              ret (dict_set gcon pKey v)) (elements pk) [])
    (fun gcon => forall k, k ∈ dict_keys gcon <-> k ∈ pk).
Proof.
  assert (forall l done acc,
            (forall k, k ∈ dict_keys acc <-> k ∈ done) ->
            triple P
              (foldM (fun gcon pKey =>
                        v <- unwrap (dict_get funcSens pKey) (KeyError pKey) ;;
                        ret (dict_set gcon pKey v)) l acc)
              (fun gcon => forall k, k ∈ dict_keys gcon <-> k ∈ done ++ l)) as Hloop.
  { induction l as [|p l IH]; intros done acc Hacc.
    - rewrite app_nil_r. now apply triple_ret.
    - cbn [foldM].
      apply (triple_bind _ _ _ (fun acc' => forall k, k ∈ dict_keys acc' <-> k ∈ done ++ [p])).
      + apply (triple_bind _ _ _ (fun _ => True)); [triple_any | intros v _].
        apply triple_ret. intros k.
        rewrite dict_keys_set_iff, Hacc, elem_of_app, list_elem_of_singleton. tauto.
      + intros acc' Hacc'.
        replace (done ++ p :: l) with ((done ++ [p]) ++ l) by now rewrite <- app_assoc.
        now apply IH. }
  apply (triple_weaken _ _ (fun gcon => forall k, k ∈ dict_keys gcon <-> k ∈ [] ++ elements pk)).
  - apply Hloop. intros k. cbn. rewrite elem_of_nil. tauto.
  - intros gcon H k. rewrite H. cbn [app]. apply elem_of_elements.
Qed.

Lemma bcast_root_triple env g tag v :
  rank g = 0%nat -> triple P (bcast env g tag v 0) (fun r => r = v).
Proof.
  intros Hg s s' tr r HP H. unfold bcast in H. rewrite bind_emit in H.
  injection H as <- _ <-. rewrite Hg. done.
Qed.

Lemma sens_finish_triple env res :
  triple P (sens_finish env res)
    (fun r => exists gobj gcon fail,
                r = (VDict gobj, VDict gcon, fail) /\
                gobj_shape op gobj /\ gcon_shape op pk ok gcon).
Proof.
  unfold sens_finish.
  apply (triple_bind _ _ _ _ _ (triple_get P)). intros self (Hop & Hpk & Hok & Hrank).
  apply (triple_bind _ _ _ (fun _ => True)); [triple_any | intros cp _].
  apply (triple_bind _ _ _ (fun _ => True)); [unfold unify, bcast; triple_any | intros funcSens _].
  apply (triple_bind _ _ _ (fun _ => True));
    [unfold reduce_fail, allreduce; triple_any | intros fail _].
  apply (triple_bind _ _ _ _ _ (complexifyFuncs_any _ _)). intros funcs1 _.
  apply (triple_bind _ _ _ (fun _ => True)); [triple_any | intros ik _].
  apply (triple_bind _ _ _ (fun _ => True));
    [unfold _extractKeys, deref; triple_any | intros extracted _].
  apply (triple_bind _ _ _ (fun o => o = pk)); [apply triple_unwrap; congruence | intros ? ->].
  apply (triple_bind _ _ _ _ _ (pass_through_triple funcSens)). intros gcon1 Hgcon1.
  apply (triple_bind _ _ _ (gcon_shape op pk ok)).
  { apply zero_blocks_triple; intros k; rewrite Hgcon1; auto. }
  intros gcon2 Hgcon2.
  apply (triple_bind _ _ _ _ _ (complexifyFuncs_any _ _)). intros funcs2 _.
  apply (triple_bind _ _ _ _ _ zero_gobj_triple). intros gobj1 Hgobj1.
  apply (triple_bind _ _ _ (gcon_shape op pk ok)).
  { destruct Hgcon2 as [Hkeys _]. apply zero_blocks_triple; intros k; rewrite Hkeys; auto. }
  intros gcon3 Hgcon3.
  apply (triple_bind _ _ _ (both_shapes op pk ok)).
  { apply triple_foldM; [now split|]. intros g iKey Hg.
    apply (triple_bind _ _ _ _ _ (getitem_any _ _)). intros v _.
    destruct (isscalar v); [now apply sens_scalar_triple | now apply sens_vector_triple]. }
  intros g [Hgobj Hgcon].
  apply (triple_bind _ _ _ _ _ (bcast_root_triple env _ _ _ Hrank)). intros ? ->.
  apply (triple_bind _ _ _ _ _ (bcast_root_triple env _ _ _ Hrank)). intros ? ->.
  apply (triple_bind _ _ _ _ _ (bcast_root_triple env _ _ _ Hrank)). intros ? ->.
  apply triple_ret. now exists (fst g), (snd g), (VBool fail).
Qed.
End Shapes.

(** X23. The gradients sens returns on rank 0 have the shapes the optimization
    problem asks for.  gobj is a dictionary with one entry per
    design-variable set of the problem, a vector of the ndvs entries of the
    set.  gcon is a dictionary whose keys are the pass-through keys and the
    output keys; under an output key it holds a dictionary with one entry
    per design-variable set the constraint depends on (wrt), a matrix of
    ncon rows and ndvs columns. *)
Theorem sens_gradient_shapes
    (env : peers) (x fObj fCon : pyval) (s s' : multiPointSparse) (tr : list event)
    (gobj gcon fail : pyval) (op : Optimization) (passKeys outKeys : gset string) :
  sens env x fObj fCon s = (s', tr, inr (gobj, gcon, fail)) ->
  rank (gcomm s) = 0%nat ->
  optProb s = Some op ->
  passThroughKeys s = Some passKeys ->
  outputKeys s = Some outKeys ->
  exists g c,
    gobj = VDict g /\ gcon = VDict c /\
    gobj_shape op g /\ gcon_shape op passKeys outKeys c.
Proof.
  intros Hrun Hrank Hop Hpk Hok. unfold sens in Hrun.
  apply bind_inr_inv in Hrun as (s1 & t1 & res & t2 & Hlocal & Hrun & _).
  pose proof (pure_run_state _ _ _ _ _ (sens_local_pure x fObj fCon) Hlocal) as ->.
  destruct (sens_finish_triple op passKeys outKeys env res s s' t2 (gobj, gcon, fail))
    as [_ (g & c & fl & Heq & Hg & Hc)]; [done | exact Hrun |].
  injection Heq as -> -> _. now exists g, c.
Qed.

Lemma sens_gradient_shapes_witness :
  let s := final (obj alone VNone sample) in
  match outcome (sens alone VNone VNone VNone s) with
  | inr (gobj, gcon, _) =>
      exists g c,
        gobj = VDict g /\ gcon = VDict c /\
        gobj_shape sample_optProb g /\ gcon_shape sample_optProb ∅ {["c"]} c
  | inl _ => False
  end.
Proof.
  intros s.
  destruct (sens alone VNone VNone VNone s) as [[s' tr] [e|[[gobj gcon] fail]]] eqn:Hrun;
    [vm_compute in Hrun; discriminate|].
  apply (sens_gradient_shapes alone VNone VNone VNone s s' tr gobj gcon fail _ _ _ Hrun).
  - reflexivity.
  - reflexivity.
  - vm_compute. reflexivity.
  - vm_compute. reflexivity.
Defined.

(** ** setOptProb, and what obj needs of the setup *)

(** X12. setOptProb keeps the problem and the names of its constraints that are
    not linear, and forgets the snapshot and the three key sets.  It keeps
    everything else, the communication pattern too: with a new problem, obj
    goes on with the pattern of the old one. *)
Theorem setOptProb_resets (optProb0 : Optimization) (s : multiPointSparse) :
  let s' := final (setOptProb optProb0 s) in
  setOptProb optProb0 s = (s', [], inr tt) /\
  optProb s' = Some optProb0 /\
  (exists ck, conKeys s' = Some ck /\
     forall k, k ∈ ck <-> exists c, (k, c) ∈ constraints optProb0 /\ linear c = false) /\
  funcs s' = None /\ inputKeys s' = None /\ outputKeys s' = None /\
  passThroughKeys s' = None /\
  commPattern s' = commPattern s /\ gcomm s' = gcomm s /\ pSet s' = pSet s /\
  dummyPSet s' = dummyPSet s /\ pSetRoot s' = pSetRoot s /\ setFlags s' = setFlags s /\
  userObjCon s' = userObjCon s /\ heap s' = heap s.
Proof.
  intros s'. split; [reflexivity|]. split; [reflexivity|].
  split; [apply setOptProb_conKeys|]. repeat split; reflexivity.
Qed.

Lemma obj_local_no_flags x s :
  setFlags s = None -> pSet s <> [] -> obj_local x s = (s, [], inl not_subscriptable).
Proof.
  intros Hf Hp. unfold obj_local. rewrite bind_get.
  destruct (pSet s) as [|kp ps]; [done|]. cbn [foldM]. now rewrite Hf.
Qed.

Lemma sens_local_no_flags x fObj fCon s :
  setFlags s = None -> pSet s <> [] ->
  sens_local x fObj fCon s = (s, [], inl not_subscriptable).
Proof.
  intros Hf Hp. unfold sens_local. rewrite bind_get.
  destruct (pSet s) as [|kp ps]; [done|]. cbn [foldM]. now rewrite Hf.
Qed.

(** X13. obj and sens need the setup.  When a set is declared and
    createCommunicators has not been called, self.setFlags is None and
    both raise the TypeError of subscripting None before anything else,
    with no collective call.  obj never returns while self.conKeys is None
    (no setOptProb) or self.userObjCon is None (no setObjCon). *)
Theorem obj_needs_setup (env : peers) (x fObj fCon : pyval) (s : multiPointSparse) :
  (setFlags s = None -> pSet s <> [] ->
   obj env x s = (s, [], inl (TypeError "'NoneType' object is not subscriptable")) /\
   sens env x fObj fCon s
   = (s, [], inl (TypeError "'NoneType' object is not subscriptable"))) /\
  (conKeys s = None \/ userObjCon s = None -> exists e, outcome (obj env x s) = inl e).
Proof.
  split.
  - intros Hf Hp. split.
    + unfold obj. now rewrite (bind_inl _ _ _ _ _ _ (obj_local_no_flags x s Hf Hp)).
    + unfold sens. now rewrite (bind_inl _ _ _ _ _ _ (sens_local_no_flags x fObj fCon s Hf Hp)).
  - intros Hnone.
    destruct (obj env x s) as [[s' tr] [e|r]] eqn:H; [now exists e|]. exfalso.
    unfold obj in H.
    apply bind_inr_inv in H as (s1 & t1 & res & t2 & Hlocal & H & _).
    apply bind_inr_inv in H as (s2 & t3 & [] & t4 & Hdisc & H & _).
    pose proof (pure_run_state _ _ _ _ _ (obj_local_pure x) Hlocal) as ->.
    assert (conKeys s2 = conKeys s /\ userObjCon s2 = userObjCon s) as (Hck & Huser).
    { pose proof (discover_pattern_final env res s) as Hfin. rewrite Hdisc in Hfin.
      cbn [final fst] in Hfin. destruct Hfin as [->|[cp ->]]; done. }
    unfold obj_finish in H. rewrite bind_get in H.
    apply bind_inr_inv in H as (? & ? & cp & ? & _ & H & _).
    apply bind_inr_inv in H as (? & ? & allFuncs & ? & _ & H & _).
    apply bind_inr_inv in H as (? & ? & fl & ? & _ & H & _).
    apply bind_inr_inv in H as (? & ? & l & ? & _ & H & _).
    apply bind_inr_inv in H as (? & ? & ? & ? & _ & H & _).
    apply bind_inr_inv in H as (? & ? & ck & ? & Hcon & H & _).
    apply unwrap_inr_inv in Hcon as (Hcon & _ & _).
    apply bind_inr_inv in H as (? & ? & ? & ? & _ & H & _).
    apply bind_inr_inv in H as (? & ? & inputFuncs & ? & _ & H & _).
    apply bind_inr_inv in H as (? & ? & f & ? & Hf & H & _).
    apply unwrap_inr_inv in Hf as (Hf & _ & _).
    destruct Hnone; congruence.
Qed.

Lemma obj_needs_setup_witness :
  let s := final (addProcessorSet "point" 1 (SizeInt 1) (init (Comm 0 1))) in
  obj alone VNone s = (s, [], inl (TypeError "'NoneType' object is not subscriptable")) /\
  sens alone VNone VNone VNone s
  = (s, [], inl (TypeError "'NoneType' object is not subscriptable")).
Proof.
  intros s. apply (obj_needs_setup alone VNone VNone VNone s).
  - reflexivity.
  - discriminate.
Defined.

(** ** What a declaration can store *)

Lemma addProcessorSet_sound setName nMembers memberSizes s s' tr :
  sound_pSet s ->
  addProcessorSet setName nMembers memberSizes s = (s', tr, inr tt) ->
  sound_pSet s' /\ tr = [] /\ gcomm s' = gcomm s.
Proof.
  intros [Hnd Hsound] Hrun. unfold addProcessorSet in Hrun.
  destruct (Z.eqb_spec nMembers 0) as [->|Hn0].
  { injection Hrun as <- <-. done. }
  apply bind_inr_inv in Hrun as (s1 & t1 & sizes & t2 & Hsizes & Hrun & ->).
  rewrite bind_get in Hrun. injection Hrun as <- <-.
  assert (s1 = s /\ t1 = [] /\ 1 <= nMembers /\ Z.of_nat (length sizes) = nMembers)
    as (-> & -> & Hn & Hlen).
  { destruct (Nat.eqb_spec (length (atleast_1d memberSizes)) 1) as [H1|H1].
    - destruct (Z.ltb_spec nMembers 0); [discriminate|]. injection Hsizes as <- <- <-.
      rewrite length_replicate. repeat split; lia.
    - destruct (Z.eqb_spec (Z.of_nat (length (atleast_1d memberSizes))) nMembers) as [He|He];
        [|discriminate].
      cbn [negb] in Hsizes. injection Hsizes as <- <- <-. repeat split; lia. }
  split; [|done]. unfold sound_pSet. cbn [pSet set_pSet]. split; [now apply dict_set_NoDup|].
  intros k p. destruct (decide (setName = k)) as [->|Hne].
  - rewrite dict_get_set_eq. intros [= <-]. repeat split; done.
  - rewrite dict_get_set_ne by done. apply Hsound.
Qed.

(** X5. However the sets are declared -- names used twice, negative sizes, any
    nMembers --, when the declarations all return, every stored set is kept
    under its name, has at least one member, one size per member, the sum of
    the sizes as nProc, and neither callback nor communicator yet; nothing
    was communicated and the global communicator is the one given.  A
    declaration with a negative nMembers never returns. *)
Theorem declarations_sound (specs : list setSpec) (c : comm) (mp : multiPointSparse)
    (tr : list event) :
  declare specs (init c) = (mp, tr, inr tt) ->
  tr = [] /\ gcomm mp = c /\
  NoDup (dict_keys (pSet mp)) /\
  (forall k p, dict_get (pSet mp) k = Some p ->
     procSet.setName p = k /\ 1 <= procSet.nMembers p /\
     Z.of_nat (length (procSet.memberSizes p)) = procSet.nMembers p /\
     procSet.nProc p = sum_list_Z (procSet.memberSizes p) /\
     procSet.objFunc p = [] /\ procSet.sensFunc p = [] /\
     procSet.gcomm p = None /\ procSet.comm_ p = None) /\
  Forall (fun spec => 0 <= spec_nMembers spec) specs.
Proof.
  assert (forall specs s s' tr,
            sound_pSet s -> declare specs s = (s', tr, inr tt) ->
            sound_pSet s' /\ tr = [] /\ gcomm s' = gcomm s /\
            Forall (fun spec => 0 <= spec_nMembers spec) specs) as H.
  { clear. unfold declare. induction specs as [|spec specs IH]; intros s s' tr Hs Hrun.
    - injection Hrun as <- <-. done.
    - cbn [foldM] in Hrun.
      apply bind_inr_inv in Hrun as (s1 & t1 & [] & t2 & Hadd & Hrest & ->).
      assert (0 <= spec_nMembers spec) as Hpos.
      { destruct (Z.eqb_spec (spec_nMembers spec) 0) as [->|Hne]; [lia|].
        destruct (addProcessorSet_sound _ _ _ _ _ _ Hs Hadd) as [[_ Hs1] _].
        unfold addProcessorSet in Hadd. destruct (Z.eqb_spec (spec_nMembers spec) 0); [done|].
        apply bind_inr_inv in Hadd as (s2 & t3 & sizes & t4 & _ & Hput & _).
        rewrite bind_get in Hput. injection Hput as <- _.
        destruct (Hs1 (spec_name spec) _ (dict_get_set_eq _ _ _)) as (_ & Hn & _).
        cbn [procSet.nMembers procSet.init] in Hn. lia. }
      destruct (addProcessorSet_sound _ _ _ _ _ _ Hs Hadd) as (Hs1 & -> & Hg1).
      destruct (IH _ _ _ Hs1 Hrest) as (Hs' & -> & Hg' & Hall).
      split; [done|]. split; [done|]. split; [congruence|]. now constructor. }
  intros Hrun. destruct (H specs (init c) mp tr) as ([Hnd Hsound] & -> & Hg & Hall); [|done|].
  { split; [constructor | intros k p [=]]. }
  split; [done|]. split; [exact Hg|]. split; [exact Hnd|]. split; [exact Hsound | exact Hall].
Qed.

Lemma declarations_sound_witness :
  let specs := [SetSpec "a" 2 (SizeInt (-3)); SetSpec "a" 1 (SizeSeq [5]);
                SetSpec "off" 0 (SizeSeq [])] in
  let mp := final (declare specs (init (Comm 0 1))) in
  trace (declare specs (init (Comm 0 1))) = [] /\ gcomm mp = Comm 0 1 /\
  NoDup (dict_keys (pSet mp)) /\
  (forall k p, dict_get (pSet mp) k = Some p ->
     procSet.setName p = k /\ 1 <= procSet.nMembers p /\
     Z.of_nat (length (procSet.memberSizes p)) = procSet.nMembers p /\
     procSet.nProc p = sum_list_Z (procSet.memberSizes p) /\
     procSet.objFunc p = [] /\ procSet.sensFunc p = [] /\
     procSet.gcomm p = None /\ procSet.comm_ p = None) /\
  Forall (fun spec => 0 <= spec_nMembers spec) specs.
Proof.
  intros specs mp.
  apply (declarations_sound specs (Comm 0 1) mp).
  vm_compute. reflexivity.
Defined.
